(** * tcreader: a shallow embedding of [src/libs/tcreader.cpp]

    The development follows the order of the source file: the base64
    encoder, the natural-sort comparator, the libarchive wrapper
    [ArchiveReader], and the [ComicReader] class with its page cache, the
    Kitty renderer and the body of the event loop. The loaders of the
    configuration and progress files, the choice of the start directory
    in [main] and the character renderer come after the class.

    Conventions.
    - [int] values are [Z]; arithmetic that the source performs on [int]
      goes through [to_int] (two's complement wrap-around to 32 bits),
      [size_t] values through [to_size_t] (64 bits).
    - [unsigned char] is [byte]; [char] is [ascii]; a [std::string] that is
      processed character by character is a [list ascii], a name used as a
      map key is a [string].
    - [std::map] is stdpp's [gmap].
    - Calls into libarchive, stb_image and the terminal are modelled at
      their interface: an archive file is the list of its entries, in
      stream order. *)

From Stdlib Require Import ZArith List Ascii String Lia Permutation.
From Stdlib.Strings Require Import Byte.
From stdpp Require Import gmap strings list.
From Equations Require Import Equations.

Local Open Scope Z_scope.

(** ** Machine integers *)

Definition to_int (z : Z) : Z := (z + 2 ^ 31) mod 2 ^ 32 - 2 ^ 31.
Definition to_size_t (z : Z) : Z := z mod 2 ^ 64.
Definition to_uchar (z : Z) : Z := z mod 256.

Definition in_int (z : Z) : Prop := - 2 ^ 31 <= z < 2 ^ 31.

(** Arithmetic on [int]; division truncates towards zero. [int_div] is
    applied to a constant divisor or behind a test that the divisor is
    not zero: the functions that divide by a value of the terminal fail
    ([None]) when that value is zero. *)
Definition int_add (a b : Z) : Z := to_int (a + b).
Definition int_sub (a b : Z) : Z := to_int (a - b).
Definition int_mul (a b : Z) : Z := to_int (a * b).
Definition int_div (a b : Z) : Z := to_int (Z.quot a b).
Definition int_neg (a : Z) : Z := to_int (- a).

(** [std::abs] and [std::clamp]. *)
Definition int_abs (a : Z) : Z := to_int (Z.abs a).
Definition clamp (v lo hi : Z) : Z :=
  if v <? lo then lo else if hi <? v then hi else v.

Definition byte_val (b : byte) : Z := Z.of_N (Byte.to_N b).

(** ** Base64 encoding for the Kitty graphics protocol (lines 81-110) *)

Module Base64.

Definition base64_chars : list ascii :=
  list_ascii_of_string
    "ABCDEFGHIJKLMNOPQRSTUVWXYZabcdefghijklmnopqrstuvwxyz0123456789+/".

(** [base64_chars[k]]; every index the encoder produces is below 64. *)
Definition char_at (k : Z) : ascii := nth (Z.to_nat k) base64_chars "A"%char.

(** The loop state: the counter [i], the three-byte buffer [arr3] and the
    string [ret] built so far. *)
Record state := mk_state {
  st_i : Z;
  st_arr3 : list Z;
  st_ret : list ascii
}.

Definition arr_get (a : list Z) (k : nat) : Z := nth k a 0.

(** [arr4[0..3]] computed from [arr3] (lines 92-95). *)
Definition arr4_of (a : list Z) : list Z :=
  [ to_uchar (Z.shiftr (Z.land (arr_get a 0) 252) 2);
    to_uchar (Z.shiftl (Z.land (arr_get a 0) 3) 4
              + Z.shiftr (Z.land (arr_get a 1) 240) 4);
    to_uchar (Z.shiftl (Z.land (arr_get a 1) 15) 2
              + Z.shiftr (Z.land (arr_get a 2) 192) 6);
    to_uchar (Z.land (arr_get a 2) 63) ].

(** One iteration of [while (len--)]: store the byte, and on the third one
    emit four characters and reset [i]. *)
Definition step (s : state) (d : byte) : state :=
  let a := <[Z.to_nat (st_i s) := byte_val d]> (st_arr3 s) in
  let i := st_i s + 1 in
  if i =? 3
  then mk_state 0 a (st_ret s ++ map char_at (arr4_of a))
  else mk_state i a (st_ret s).

(** [for (j = i; j < 3; j++) arr3[j] = 0]. *)
Definition zero_from (i : Z) (a : list Z) : list Z :=
  take (Z.to_nat i) a ++ repeat 0 (3 - Z.to_nat i).

(** The block after the loop (lines 101-108): only [arr4[0..2]] are
    recomputed and only [i + 1] of them are written, then [3 - i] pads. *)
Definition finish (s : state) : list ascii :=
  if st_i s =? 0 then st_ret s
  else
    let a := zero_from (st_i s) (st_arr3 s) in
    st_ret s
      ++ map char_at (take (Z.to_nat (st_i s + 1)) (take 3 (arr4_of a)))
      ++ repeat "="%char (Z.to_nat (3 - st_i s)).

Definition init : state := mk_state 0 [0; 0; 0] [].

Definition base64_encode (data : list byte) : list ascii :=
  finish (fold_left step data init).

(** *** RFC 4648, section 4, written from the standard's words

    Each group of three input bytes is read as one 24-bit number and cut
    into four 6-bit indices into the alphabet; a final group of one byte
    gives two characters and two pads, a final group of two bytes gives
    three characters and one pad. *)

Definition sextets (b0 b1 b2 : Z) : list Z :=
  let n := b0 * 65536 + b1 * 256 + b2 in
  [ n / 262144; (n / 4096) mod 64; (n / 64) mod 64; n mod 64 ].

Fixpoint rfc4648_encode (data : list byte) : list ascii :=
  match data with
  | [] => []
  | [b0] => map char_at (take 2 (sextets (byte_val b0) 0 0)) ++ ["="; "="]%char
  | [b0; b1] =>
      map char_at (take 3 (sextets (byte_val b0) (byte_val b1) 0)) ++ ["="%char]
  | b0 :: b1 :: b2 :: rest =>
      map char_at (sextets (byte_val b0) (byte_val b1) (byte_val b2))
        ++ rfc4648_encode rest
  end.

Fixpoint index_from (c : ascii) (l : list ascii) (k : Z) : option Z :=
  match l with
  | [] => None
  | x :: l' => if Ascii.eqb c x then Some k else index_from c l' (k + 1)
  end.

Definition sextet_of (c : ascii) : option Z := index_from c base64_chars 0.

Definition byte_of (z : Z) : option byte := Byte.of_N (Z.to_N z).

Definition is_pad (c : ascii) : bool := Ascii.eqb c "="%char.

(** The inverse transformation of RFC 4648: four characters give three
    bytes, and the pads of the last group say how many bytes it holds. *)
Fixpoint rfc4648_decode (s : list ascii) : option (list byte) :=
  match s with
  | [] => Some []
  | c0 :: c1 :: c2 :: c3 :: rest =>
      s0 ← sextet_of c0;
      s1 ← sextet_of c1;
      x0 ← byte_of (s0 * 4 + s1 / 16);
      if is_pad c2 then
        if is_pad c3 then
          match rest with [] => Some [x0] | _ => None end
        else None
      else
        s2 ← sextet_of c2;
        x1 ← byte_of ((s1 mod 16) * 16 + s2 / 4);
        if is_pad c3 then
          match rest with [] => Some [x0; x1] | _ => None end
        else
          s3 ← sextet_of c3;
          x2 ← byte_of ((s2 mod 4) * 64 + s3);
          tl ← rfc4648_decode rest;
          Some (x0 :: x1 :: x2 :: tl)
  | _ => None
  end.

(** The characters a base64 text may contain. *)
Definition base64_symbol (c : ascii) : Prop :=
  In c base64_chars \/ c = "="%char.

Definition option_Z_eqb (o : option Z) (k : Z) : bool :=
  match o with Some j => j =? k | None => false end.

End Base64.


(** ** Natural sort comparator (lines 115-133) *)

Module NaturalSort.

Definition code (c : ascii) : Z := Z.of_N (N_of_ascii c).

(** [std::isdigit] in the "C" locale. *)
Definition isdigit (c : ascii) : bool := (48 <=? code c) && (code c <=? 57).

(** The maximal run of digits at the head of a string, and what follows it:
    the two inner [while] loops of lines 120-121. *)
Fixpoint digit_run (s : list ascii) : list ascii :=
  match s with
  | c :: s' => if isdigit c then c :: digit_run s' else []
  | [] => []
  end.

Fixpoint after_digits (s : list ascii) : list ascii :=
  match s with
  | c :: s' => if isdigit c then after_digits s' else s
  | [] => []
  end.

Definition decimal (ds : list ascii) : Z :=
  fold_left (fun acc c => acc * 10 + (code c - 48)) ds 0.

(** [std::stoll] on a string of digits: the value, or [None] when it does
    not fit a [long long] and [std::out_of_range] is thrown. *)
Definition stoll (ds : list ascii) : option Z :=
  let v := decimal ds in
  if v <? 2 ^ 63 then Some v else None.

Section Compare.

(** Whether plain [char] is a signed type is left to the platform; it
    decides how [a[i] < b[j]] orders characters above 127. *)
Variable char_is_signed : bool.

Definition char_value (c : ascii) : Z :=
  if char_is_signed && (128 <=? code c) then code c - 256 else code c.

(** The main loop, on the suffixes [a[i..]] and [b[j..]]; [la] and [lb]
    are [a.size()] and [b.size()]. [None] is an exception leaving the
    function. *)
Equations? compare_from (la lb : nat) (sa sb : list ascii) : option bool
  by wf (length sa) lt :=
compare_from la lb [] _ := Some (la <? lb)%nat;
compare_from la lb (_ :: _) [] := Some (la <? lb)%nat;
compare_from la lb (x :: sa') (y :: sb') with isdigit x && isdigit y := {
  | true with stoll (x :: digit_run sa') := {
    | None := None;
    | Some num_a with stoll (y :: digit_run sb') := {
      | None := None;
      | Some num_b :=
          if num_a =? num_b
          then compare_from la lb (after_digits sa') (after_digits sb')
          else Some (num_a <? num_b) } };
  | false :=
      if Ascii.eqb x y
      then compare_from la lb sa' sb'
      else Some (char_value x <? char_value y) }.
Proof.
  all: try (cbn [length]; lia).
  clear. cbn [length]. induction sa' as [|c s IH]; cbn; [lia|].
  destruct (isdigit c); cbn [length]; lia.
Qed.

Definition natural_sort_compare (a b : string) : option bool :=
  let sa := list_ascii_of_string a in
  let sb := list_ascii_of_string b in
  compare_from (length sa) (length sb) sa sb.

End Compare.

(** Plain character-by-character comparison ([std::string::operator<] on
    unsigned character codes), for contrast with the natural order. *)
Fixpoint lexicographic_lt (a b : list ascii) : bool :=
  match a, b with
  | [], [] => false
  | [], _ :: _ => true
  | _ :: _, [] => false
  | x :: a', y :: b' =>
      if Ascii.eqb x y then lexicographic_lt a' b' else code x <? code y
  end.

(** The string is empty or begins with a character that is no digit. *)
Definition starts_without_digit (s : list ascii) : Prop :=
  match s with
  | [] => True
  | c :: _ => isdigit c = false
  end.

End NaturalSort.

(** ** [std::sort] with a comparator that may throw

    The standard fixes the result of [std::sort] only up to the order of
    equivalent elements. The model is the insertion sort that libstdc++
    runs on a short range: an element moves towards the front as long as
    it is ordered before the one in front of it, so that equivalent
    elements keep their order. An exception thrown by the comparator
    leaves the sort ([None]). *)

Module StdSort.
Section Sort.
Context {A : Type}.
Variable comp : A -> A -> option bool.

(** [x] stood in front of the sorted [l]; every element of [l] that is
    ordered before [x] passes it. *)
Fixpoint insert (x : A) (l : list A) : option (list A) :=
  match l with
  | [] => Some [x]
  | y :: l' =>
      b ← comp y x;
      if b : bool then (r ← insert x l'; Some (y :: r))
      else Some (x :: y :: l')
  end.

Fixpoint sort (l : list A) : option (list A) :=
  match l with
  | [] => Some []
  | x :: l' => s ← sort l'; insert x s
  end.

(** What [std::sort] guarantees of its result: no element is ordered
    before one that precedes it. *)
Definition ordered (l : list A) : Prop :=
  forall i j x y, (i < j)%nat -> l !! i = Some x -> l !! j = Some y ->
    comp y x = Some false.

End Sort.
End StdSort.

(** ** Archive handling: the libarchive wrapper (lines 247-352) *)

(** [fs::path(name).extension()] on a POSIX path: the suffix of the last
    path component that starts at its last period, and nothing when that
    component is ".", ".." or has no period after its first character. *)
Module Path.

Definition is_slash (c : ascii) : bool := Ascii.eqb c "/"%char.
Definition is_dot (c : ascii) : bool := Ascii.eqb c "."%char.

Fixpoint filename_from (cur p : list ascii) : list ascii :=
  match p with
  | [] => cur
  | c :: p' => if is_slash c then filename_from p' p' else filename_from cur p'
  end.

Definition filename (p : list ascii) : list ascii := filename_from p p.

(** The suffix starting at the last period of [f], if there is one. *)
Fixpoint last_dot_suffix (f : list ascii) : option (list ascii) :=
  match f with
  | [] => None
  | c :: f' =>
      match last_dot_suffix f' with
      | Some s => Some s
      | None => if is_dot c then Some f else None
      end
  end.

Definition extension (p : list ascii) : list ascii :=
  match filename p with
  | [] => []
  | c :: f' =>
      if forallb is_dot (c :: f') && (length (c :: f') <=? 2)%nat then []
      else match last_dot_suffix f' with
           | Some s => s
           | None => []
           end
  end.

(** [::tolower] in the "C" locale. *)
Definition tolower (c : ascii) : ascii :=
  let n := N_of_ascii c in
  if ((65 <=? n) && (n <=? 90))%N then ascii_of_N (n + 32) else c.

End Path.

(** An archive on disk, as libarchive presents it: the entries in stream
    order. [entry_size] is [archive_entry_size]; [entry_data] is what
    [archive_read_data] delivers for the entry, [None] when it reports an
    error; a failed read is taken to leave the handle where a successful
    one leaves it. Only entries whose header reads with [ARCHIVE_OK] are
    listed: both loops of the source stop at the first header that does
    not. *)
Record ArchiveEntry := mk_entry {
  entry_pathname : string;
  entry_size : nat;
  entry_data : option (list byte)
}.

Record PageEntry := mk_page {
  name : string;
  index_in_archive : Z
}.

Module ArchiveReader.

(** [archive_handle] is [None] for [nullptr]; an open handle is the list
    of the entries that [archive_read_next_header] has not yet returned.
    [rewinds] is not a member of the class: it counts how often the rewind
    block of [read_page] (lines 326-332) has run. *)
Record t := mk {
  archive_handle : option (list ArchiveEntry);
  archive_path : string;
  entries : list PageEntry;
  current_entry : Z;
  rewinds : nat
}.

Definition initial : t := mk None "" [] (-1) 0.

Definition image_extensions : list string :=
  [".jpg"; ".jpeg"; ".png"; ".gif"; ".webp"; ".bmp"]%string.

Definition is_image (pathname : string) : bool :=
  let ext := map Path.tolower (Path.extension (list_ascii_of_string pathname)) in
  existsb (String.eqb (string_of_list_ascii ext)) image_extensions.

(** The buffer [data(sz)] after [archive_read_data(handle, data.data(), sz)]:
    zero-initialised, then overwritten with what could be read; the empty
    vector when the read fails. *)
Definition read_data (e : ArchiveEntry) : list byte :=
  match entry_data e with
  | None => []
  | Some bs =>
      take (entry_size e) bs ++ replicate (entry_size e - length bs) "000"%byte
  end.

(** The indexing loop of [open] (lines 280-292); [idx] counts every
    header. *)
Fixpoint index_entries (stream : list ArchiveEntry) (idx : Z) : list PageEntry :=
  match stream with
  | [] => []
  | e :: rest =>
      let tl := index_entries rest (to_size_t (idx + 1)) in
      if is_image (entry_pathname e)
      then mk_page (entry_pathname e) idx :: tl
      else tl
  end.

(** The forward walk of [read_page] (lines 336-347): the bytes returned,
    what is left of the stream, and [current_entry]. *)
Fixpoint walk (target : Z) (stream : list ArchiveEntry) (cur : Z)
  : list byte * (list ArchiveEntry * Z) :=
  match stream with
  | [] => ([], ([], cur))
  | e :: rest =>
      let cur' := to_int (cur + 1) in
      if to_size_t cur' =? target
      then (read_data e, (rest, cur'))
      else walk target rest cur'
  end.

Section WithDisk.

Variable char_is_signed : bool.

(** What [archive_read_open_filename] finds at a path; [None] when the
    call does not return [ARCHIVE_OK]. *)
Variable disk : string -> option (list ArchiveEntry).

(** A handle whose open call failed yields no headers. *)
Definition open_stream (path : string) : list ArchiveEntry :=
  match disk path with
  | Some es => es
  | None => []
  end.

Definition close (s : t) : t :=
  mk None (archive_path s) [] (-1) (rewinds s).

Definition page_less (a b : PageEntry) : option bool :=
  NaturalSort.natural_sort_compare char_is_signed (name a) (name b).

(** [open]: [None] when the comparator throws inside [std::sort]. *)
Definition open (path : string) (s : t) : option (bool * t) :=
  let s := close s in
  let s := mk (Some []) path (entries s) (current_entry s) (rewinds s) in
  match disk path with
  | None => Some (false, close s)
  | Some es =>
      sorted ← StdSort.sort page_less (index_entries es 0);
      Some (match sorted with [] => false | _ :: _ => true end,
            mk (Some (open_stream path)) path sorted (-1) (rewinds s))
  end.

Definition rewind (s : t) : t :=
  mk (Some (open_stream (archive_path s))) (archive_path s) (entries s) (-1)
     (S (rewinds s)).

Definition must_rewind (s : t) (target_idx : Z) : bool :=
  (current_entry s >? to_int target_idx) || (current_entry s =? -1).

(** [read_page]; [page_idx] is a [size_t]. *)
Definition read_page (page_idx : Z) (s : t) : list byte * t :=
  if (Z.of_nat (length (entries s)) <=? page_idx)
     || negb (bool_decide (is_Some (archive_handle s)))
  then ([], s)
  else
    match entries s !! Z.to_nat page_idx with
    | None => ([], s)
    | Some pg =>
        let target_idx := index_in_archive pg in
        let s := if must_rewind s target_idx then rewind s else s in
        let stream :=
          match archive_handle s with Some st => st | None => [] end in
        let '(data, (rest, cur)) := walk target_idx stream (current_entry s) in
        (data, mk (Some rest) (archive_path s) (entries s) cur (rewinds s))
    end.

Definition page_count (s : t) : Z := Z.of_nat (length (entries s)).

(** The session reads the archive [es]: its path leads to [es], and its
    handle stands just behind the entry numbered [current_entry]. *)
Definition positioned (es : list ArchiveEntry) (s : t) : Prop :=
  disk (archive_path s) = Some es
  /\ -1 <= current_entry s < Z.of_nat (length es)
  /\ archive_handle s = Some (drop (Z.to_nat (current_entry s + 1)) es).

(** A payload that reads without error and has the size its header
    announces. *)
Definition well_formed (e : ArchiveEntry) (bs : list byte) : Prop :=
  entry_data e = Some bs /\ length bs = entry_size e.

Definition well_formed_archive (es : list ArchiveEntry) : Prop :=
  Forall (fun e => exists bs, well_formed e bs) es.

End WithDisk.
End ArchiveReader.

(** ** Rendering mode, configuration and terminal size (lines 138-242) *)

Inductive RenderMode := KITTY | TIMG | ASCII.

Record Config := mk_config {
  keymap : gmap string string;
  double_page : bool;
  show_help : bool;
  render_mode : RenderMode;
  library_paths : list string
}.

Definition ESC : ascii := "027"%char.

(** The key map set up by the constructor of [Config]. *)
Definition default_keymap : gmap string string :=
  list_to_map
    [ ("quit", "q"); ("refresh", "r"); ("toggle_help", "?");
      ("first_page", "g"); ("last_page", "G");
      ("next", "l"); ("prev", "h");
      ("next_alt", String ESC "[C"); ("prev_alt", String ESC "[D");
      ("up", "k"); ("down", "j");
      ("zoom_in", "="); ("zoom_out", "-"); ("zoom_out_alt", "_");
      ("zoom_reset", "0");
      ("pan_up", "K"); ("pan_down", "J"); ("pan_left", "H"); ("pan_right", "L");
      ("toggle_spread", "s"); ("double_page", "d") ]%string.

Definition default_config : Config :=
  mk_config default_keymap false false KITTY [].

Definition set_double_page (v : bool) (c : Config) : Config :=
  mk_config (keymap c) v (show_help c) (render_mode c) (library_paths c).
Definition set_show_help (v : bool) (c : Config) : Config :=
  mk_config (keymap c) (double_page c) v (render_mode c) (library_paths c).
Definition set_render_mode (v : RenderMode) (c : Config) : Config :=
  mk_config (keymap c) (double_page c) (show_help c) v (library_paths c).

(** [config.keymap[nm][0]]: the first character of the binding, and the
    terminating zero of the empty string when there is none. That
    [operator[]] adds a missing name with an empty binding is not kept:
    the lookup gives the same character before and after. *)
Definition key (c : Config) (nm : string) : ascii :=
  match keymap c !! nm with
  | Some (String ch _) => ch
  | _ => zero
  end.

Record TermSize := mk_term {
  rows : Z;
  cols : Z;
  pixel_width : Z;
  pixel_height : Z
}.

Record FileEntry := mk_file {
  fe_name : string;
  full_path : string;
  is_directory : bool
}.

(** ** What the program writes to the terminal

    One [KittyFrame] stands for the three writes of one iteration of the
    transmission loop: the header, the payload and the terminator. The
    other screens are named, not spelled out. *)

Inductive Header :=
| FirstChunk (s v c r m : Z)
| NextChunk (m : Z).

Inductive Output :=
| Text (s : string)
| ClearScreen
| CursorTo (row col : Z)
| KittyFrame (h : Header) (payload : list ascii)
| FileList
| StatusLine
| ExternalViewer (x_offset target_cols target_rows : Z)
| AsciiArt.

(** ** The Kitty renderer: chunked transmission (lines 617-639) *)

Module Kitty.

Definition chunk_sz : nat := 4096.

Definition this_chunk (b64 : list ascii) (offset : nat) : nat :=
  Nat.min chunk_sz (length b64 - offset).

Definition is_last (b64 : list ascii) (offset : nat) : bool :=
  (length b64 <=? offset + this_chunk b64 offset)%nat.

Definition more_flag (last : bool) : Z := if last then 0 else 1.

Definition header (crop_w crop_h cols_needed rows_needed : Z)
    (offset : nat) (last : bool) : Header :=
  if (offset =? 0)%nat
  then FirstChunk crop_w crop_h cols_needed rows_needed (more_flag last)
  else NextChunk (more_flag last).

(** The loop [while (offset < b64.size())]. *)
Equations? send_chunks (crop_w crop_h cols_needed rows_needed : Z)
    (b64 : list ascii) (offset : nat) : list Output
  by wf (length b64 - offset)%nat lt :=
send_chunks crop_w crop_h cols_needed rows_needed b64 offset
  with decide (offset < length b64)%nat := {
  | left _ :=
      KittyFrame
        (header crop_w crop_h cols_needed rows_needed offset
           (is_last b64 offset))
        (take (this_chunk b64 offset) (drop offset b64))
      :: send_chunks crop_w crop_h cols_needed rows_needed b64
           (offset + this_chunk b64 offset);
  | right _ := [] }.
Proof. unfold this_chunk, chunk_sz. lia. Qed.

(** The payloads and the continuation flags of a transmission. *)
Definition payload_of (o : Output) : list ascii :=
  match o with
  | KittyFrame _ p => p
  | _ => []
  end.

Definition flag_of (o : Output) : option Z :=
  match o with
  | KittyFrame (FirstChunk _ _ _ _ m) _ => Some m
  | KittyFrame (NextChunk m) _ => Some m
  | _ => None
  end.

(** A frame that continues a transmission. *)
Definition continues (o : Output) : Prop :=
  exists m p, o = KittyFrame (NextChunk m) p.

(** The flag that the frame at position [i] of [n] frames should carry. *)
Definition expected_flag (n i : nat) : Z :=
  if bool_decide (S i = n) then 0 else 1.

(** [(crop + cell - 1) / cell], the number of cells a crop occupies. *)
Definition cells_needed (crop cell : Z) : Z :=
  int_div (int_sub (int_add crop cell) 1) cell.

(** *** Cropping (lines 579-594) *)

Definition src_idx (new_w crop_x crop_y x y : Z) : Z :=
  int_mul (int_add (int_mul (int_add crop_y y) new_w) (int_add crop_x x)) 3.

Definition dst_idx (crop_w x y : Z) : Z :=
  int_mul (int_add (int_mul y crop_w) x) 3.

(** Buffer accesses. An access outside the buffer is not modelled: a read
    gives zero and a write is dropped. *)
Definition get (buf : list byte) (i : Z) : byte :=
  if i <? 0 then "000"%byte else nth (Z.to_nat i) buf "000"%byte.

Definition put (buf : list byte) (i : Z) (v : byte) : list byte :=
  if i <? 0 then buf else <[Z.to_nat i := v]> buf.

(** A [std::vector<unsigned char>] of [n] zeros, filled from its start. *)
Definition vector_of (n : Z) (content : list byte) : list byte :=
  take (Z.to_nat n) content
    ++ replicate (Z.to_nat n - length content) "000"%byte.

Definition copy_pixel (resized : list byte) (new_w crop_x crop_y crop_w : Z)
    (y x : Z) (cropped : list byte) : list byte :=
  let s := src_idx new_w crop_x crop_y x y in
  let d := dst_idx crop_w x y in
  let cropped := put cropped (int_add d 0) (get resized (int_add s 0)) in
  let cropped := put cropped (int_add d 1) (get resized (int_add s 1)) in
  put cropped (int_add d 2) (get resized (int_add s 2)).

Definition crop_pixels (resized : list byte)
    (new_w crop_x crop_y crop_w crop_h : Z) : list byte :=
  foldl
    (fun buf y =>
       foldl (fun buf x => copy_pixel resized new_w crop_x crop_y crop_w y x buf)
             buf (seqZ 0 crop_w))
    (vector_of (int_mul (int_mul crop_w crop_h) 3) [])
    (seqZ 0 crop_h).

(** *** Pan clamping and the crop rectangle, on one axis (lines 568-583) *)

Definition max_pan (scaled target : Z) : Z := Z.max 0 (int_sub scaled target).

Definition clamp_pan (pan scaled target : Z) : Z :=
  clamp pan (int_neg (max_pan scaled target)) 0.

Definition crop_origin (pan : Z) : Z := int_abs pan.

Definition crop_extent (scaled target origin : Z) : Z :=
  Z.min (int_sub scaled origin) target.

End Kitty.

(** ** The main class (lines 366-1016) *)

Module ComicReader.
Section WithWorld.

(** *** What the class takes from its surroundings *)

Variable char_is_signed : bool.
Variable disk : string -> option (list ArchiveEntry).

(** The list that [scan_directory] builds for a directory: the parent
    entry, then the directories and the archives, each group sorted. *)
Variable listing : string -> list FileEntry.

(** [get_term_size()], taken to be the same during one key press. *)
Variable term : TermSize.

(** Single-precision numbers and the operations the class uses on them.
    [F] is [float]; [f_one] is [1.0f]; [is_unzoomed z] is
    [std::abs(z - 1.0f) < 0.001f]; [zoom_in z] is [std::min(z + 0.1f, 3.0f)];
    [zoom_out z] is [std::max(z - 0.1f, 0.5f)]; [scaled_size w h tw th z]
    is the pair [new_w], [new_h] of lines 561-565. *)
Variable F : Type.
Variable f_one : F.
Variable is_unzoomed : F -> bool.
Variable zoom_in : F -> F.
Variable zoom_out : F -> F.
Variable scaled_size : Z -> Z -> Z -> Z -> F -> Z * Z.

(** stb_image: the width, the height and the RGB pixels of an encoded
    image, [None] when it does not decode; and what [stbir_resize] writes
    for given source and target sizes. *)
Variable stbi_load_from_memory : list byte -> option (Z * Z * list byte).
Variable stbir_resize : list byte -> Z -> Z -> Z -> Z -> list byte.

(** *** The members of the class

    [stdin] and [stdout] are not members: they are the characters waiting
    on standard input and what has been written to the terminal. *)

Record t := mk {
  entries : list FileEntry;
  current_dir : string;
  selected_idx : Z;
  archive : ArchiveReader.t;
  page_cache : gmap Z (list byte);
  current_page : Z;
  viewing_comic : bool;
  current_comic_filename : string;
  zoom_level : F;
  pan_x : Z;
  pan_y : Z;
  config : Config;
  progress : gmap string Z;
  stdin : list ascii;
  stdout : list Output
}.

Definition set_entries (v : list FileEntry) (r : t) : t :=
  mk v (current_dir r) (selected_idx r) (archive r) (page_cache r)
     (current_page r) (viewing_comic r) (current_comic_filename r)
     (zoom_level r) (pan_x r) (pan_y r) (config r) (progress r) (stdin r)
     (stdout r).
Definition set_current_dir (v : string) (r : t) : t :=
  mk (entries r) v (selected_idx r) (archive r) (page_cache r)
     (current_page r) (viewing_comic r) (current_comic_filename r)
     (zoom_level r) (pan_x r) (pan_y r) (config r) (progress r) (stdin r)
     (stdout r).
Definition set_selected_idx (v : Z) (r : t) : t :=
  mk (entries r) (current_dir r) v (archive r) (page_cache r)
     (current_page r) (viewing_comic r) (current_comic_filename r)
     (zoom_level r) (pan_x r) (pan_y r) (config r) (progress r) (stdin r)
     (stdout r).
Definition set_archive (v : ArchiveReader.t) (r : t) : t :=
  mk (entries r) (current_dir r) (selected_idx r) v (page_cache r)
     (current_page r) (viewing_comic r) (current_comic_filename r)
     (zoom_level r) (pan_x r) (pan_y r) (config r) (progress r) (stdin r)
     (stdout r).
Definition set_page_cache (v : gmap Z (list byte)) (r : t) : t :=
  mk (entries r) (current_dir r) (selected_idx r) (archive r) v
     (current_page r) (viewing_comic r) (current_comic_filename r)
     (zoom_level r) (pan_x r) (pan_y r) (config r) (progress r) (stdin r)
     (stdout r).
Definition set_current_page (v : Z) (r : t) : t :=
  mk (entries r) (current_dir r) (selected_idx r) (archive r) (page_cache r)
     v (viewing_comic r) (current_comic_filename r) (zoom_level r) (pan_x r)
     (pan_y r) (config r) (progress r) (stdin r) (stdout r).
Definition set_viewing_comic (v : bool) (r : t) : t :=
  mk (entries r) (current_dir r) (selected_idx r) (archive r) (page_cache r)
     (current_page r) v (current_comic_filename r) (zoom_level r) (pan_x r)
     (pan_y r) (config r) (progress r) (stdin r) (stdout r).
Definition set_current_comic_filename (v : string) (r : t) : t :=
  mk (entries r) (current_dir r) (selected_idx r) (archive r) (page_cache r)
     (current_page r) (viewing_comic r) v (zoom_level r) (pan_x r) (pan_y r)
     (config r) (progress r) (stdin r) (stdout r).
Definition set_zoom_level (v : F) (r : t) : t :=
  mk (entries r) (current_dir r) (selected_idx r) (archive r) (page_cache r)
     (current_page r) (viewing_comic r) (current_comic_filename r) v
     (pan_x r) (pan_y r) (config r) (progress r) (stdin r) (stdout r).
Definition set_pan_x (v : Z) (r : t) : t :=
  mk (entries r) (current_dir r) (selected_idx r) (archive r) (page_cache r)
     (current_page r) (viewing_comic r) (current_comic_filename r)
     (zoom_level r) v (pan_y r) (config r) (progress r) (stdin r) (stdout r).
Definition set_pan_y (v : Z) (r : t) : t :=
  mk (entries r) (current_dir r) (selected_idx r) (archive r) (page_cache r)
     (current_page r) (viewing_comic r) (current_comic_filename r)
     (zoom_level r) (pan_x r) v (config r) (progress r) (stdin r) (stdout r).
Definition set_config (v : Config) (r : t) : t :=
  mk (entries r) (current_dir r) (selected_idx r) (archive r) (page_cache r)
     (current_page r) (viewing_comic r) (current_comic_filename r)
     (zoom_level r) (pan_x r) (pan_y r) v (progress r) (stdin r) (stdout r).
Definition set_progress (v : gmap string Z) (r : t) : t :=
  mk (entries r) (current_dir r) (selected_idx r) (archive r) (page_cache r)
     (current_page r) (viewing_comic r) (current_comic_filename r)
     (zoom_level r) (pan_x r) (pan_y r) (config r) v (stdin r) (stdout r).
Definition set_stdin (v : list ascii) (r : t) : t :=
  mk (entries r) (current_dir r) (selected_idx r) (archive r) (page_cache r)
     (current_page r) (viewing_comic r) (current_comic_filename r)
     (zoom_level r) (pan_x r) (pan_y r) (config r) (progress r) v (stdout r).
Definition set_stdout (v : list Output) (r : t) : t :=
  mk (entries r) (current_dir r) (selected_idx r) (archive r) (page_cache r)
     (current_page r) (viewing_comic r) (current_comic_filename r)
     (zoom_level r) (pan_x r) (pan_y r) (config r) (progress r) (stdin r) v.

Definition emit (o : Output) (r : t) : t := set_stdout (stdout r ++ [o]) r.

(** [static_cast<int>(archive.page_count())]. *)
Definition page_count (r : t) : Z :=
  to_int (ArchiveReader.page_count (archive r)).

Definition scan_directory (r : t) : t :=
  let r := set_entries (listing (current_dir r)) r in
  if selected_idx r >=? to_int (Z.of_nat (length (entries r)))
  then set_selected_idx 0 r else r.

(** *** Page loading and pre-loading (lines 466-490) *)

(** [std::abs(idx - page_idx) > 2]. *)
Definition far_from (page_idx idx : Z) : bool :=
  int_abs (int_sub idx page_idx) >? 2.

(** [load_page]: a cached page is returned as it is; otherwise the page is
    read from the archive and, when bytes came back, the distant keys are
    collected and erased and the page is stored. *)
Definition load_page (page_idx : Z) (r : t) : list byte * t :=
  match page_cache r !! page_idx with
  | Some cached => (cached, r)
  | None =>
      let '(data, a) :=
        ArchiveReader.read_page disk (to_size_t page_idx) (archive r) in
      let r := set_archive a r in
      match data with
      | [] => (data, r)
      | _ :: _ =>
          let to_remove :=
            filter (fun idx => far_from page_idx idx = true)
                   (map fst (map_to_list (page_cache r))) in
          let cache := foldr delete (page_cache r) to_remove in
          (data, set_page_cache (<[page_idx := data]> cache) r)
      end
  end.

(** Requesting pages one after the other: each ordinal with the bytes
    returned for it and the reader after the request. *)
Fixpoint request_all (ks : list Z) (r : t) : list (Z * list byte * t) :=
  match ks with
  | [] => []
  | k :: ks' =>
      let '(data, r') := load_page k r in
      (k, data, r') :: request_all ks' r'
  end.

(** No two cached ordinals are more than the radius apart. *)
Definition narrow (cache : gmap Z (list byte)) : Prop :=
  forall j k, j ∈ dom cache -> k ∈ dom cache -> Z.abs (j - k) <= 2.

(** The cached ordinals are far from the limits of [int]. *)
Definition small_keys (cache : gmap Z (list byte)) : Prop :=
  forall j, j ∈ dom cache -> Z.abs j < 2 ^ 30.

Definition preload_adjacent (r : t) : t :=
  let r :=
    if int_add (current_page r) 1 <? page_count r
    then snd (load_page (int_add (current_page r) 1) r) else r in
  if current_page r >? 0
  then snd (load_page (int_sub (current_page r) 1) r) else r.

(** *** Rendering (lines 495-669)

    [render_kitty] is followed statement by statement. The two other
    renderers write to the terminal through an external program and as
    characters; they leave one named output each.

    A renderer gives [None] when the call does not return: a
    [std::vector] that is asked for with a negative size throws
    [std::length_error] (lines 524, 574 and 585), which nothing catches,
    and a division by zero (lines 601-609 and 655) ends the program. *)

Definition render_kitty (img_data : list byte) (col_offset width_px : Z)
    (r : t) : option t :=
  match stbi_load_from_memory img_data with
  | None => Some (emit (Text "[Failed to decode]") r)
  | Some (w, h, pixels) =>
      let target_w := if width_px >? 0 then width_px else pixel_width term in
      let target_h := int_sub (pixel_height term) 100 in
      let '(new_w, new_h) := scaled_size w h target_w target_h (zoom_level r) in
      let r := set_pan_x (Kitty.clamp_pan (pan_x r) new_w target_w) r in
      let r := set_pan_y (Kitty.clamp_pan (pan_y r) new_h target_h) r in
      if int_mul (int_mul new_w new_h) 3 <? 0 then None
      else
      let resized :=
        Kitty.vector_of (int_mul (int_mul new_w new_h) 3)
          (stbir_resize pixels w h new_w new_h) in
      let crop_x := Kitty.crop_origin (pan_x r) in
      let crop_y := Kitty.crop_origin (pan_y r) in
      let crop_w := Kitty.crop_extent new_w target_w crop_x in
      let crop_h := Kitty.crop_extent new_h target_h crop_y in
      if int_mul (int_mul crop_w crop_h) 3 <? 0 then None
      else
      let cropped := Kitty.crop_pixels resized new_w crop_x crop_y crop_w crop_h in
      let b64 := Base64.base64_encode cropped in
      if (cols term =? 0) || (rows term =? 0) then None
      else
      let char_w := int_div (pixel_width term) (cols term) in
      let char_h := int_div (pixel_height term) (rows term) in
      if (char_w =? 0) || (char_h =? 0) then None
      else
      let cols_needed := Kitty.cells_needed crop_w char_w in
      let rows_needed := Kitty.cells_needed crop_h char_h in
      let col_center :=
        int_add col_offset
          (int_div (int_sub (int_div target_w char_w) cols_needed) 2) in
      let row_center :=
        int_add (int_div (int_sub (int_div target_h char_h) rows_needed) 2) 1 in
      let col_center := Z.max 0 col_center in
      let row_center := Z.max 1 row_center in
      let r := emit (CursorTo row_center (int_add col_center 1)) r in
      Some
        (set_stdout
           (stdout r
              ++ Kitty.send_chunks crop_w crop_h cols_needed rows_needed b64 0)
           r)
  end.

(** [render_ascii] up to its output (lines 511-527): an image that does
    not decode leaves a message; otherwise the buffer of
    [target_w * target_h] bytes is allocated before anything is
    written. *)
Definition render_ascii (img_data : list byte) (r : t) : option t :=
  match stbi_load_from_memory img_data with
  | None => Some (emit (Text "[Failed to decode image]") r)
  | Some _ =>
      let target_w := Z.min (int_sub (cols term) 4) 80 in
      let target_h := Z.min (int_sub (rows term) 4) 40 in
      if int_mul target_w target_h <? 0 then None
      else Some (emit AsciiArt r)
  end.

Definition display_image (img_data : list byte) (x_offset width : Z)
    (r : t) : option t :=
  match img_data with
  | [] => Some (emit (Text "[Empty image data]") r)
  | _ :: _ =>
      if (width >? 0)
         && ((cols term =? 0)
             || (int_div (pixel_width term) (cols term) =? 0))
      then None
      else
      let target_cols :=
        if width >? 0
        then int_div width (int_div (pixel_width term) (cols term))
        else cols term in
      let target_rows := int_sub (rows term) 3 in
      match render_mode (config r) with
      | KITTY => render_kitty img_data x_offset width r
      | TIMG => Some (emit (ExternalViewer x_offset target_cols target_rows) r)
      | ASCII => render_ascii img_data r
      end
  end.

(** *** The two screens (lines 674-769) *)

Definition draw_file_list (r : t) : t := emit FileList (emit ClearScreen r).

Definition side_by_side (m : RenderMode) : bool :=
  match m with
  | KITTY | TIMG => true
  | ASCII => false
  end.

Definition effective_double (r : t) : bool :=
  double_page (config r) && is_unzoomed (zoom_level r)
  && side_by_side (render_mode (config r)).

Definition display_if_loaded (img : list byte) (x_offset width : Z) (r : t)
  : option t :=
  match img with
  | [] => Some r
  | _ :: _ => display_image img x_offset width r
  end.

(** The pages of [draw_comic_view] (lines 724-742): a spread or a single
    page. *)
Definition show_pages (r : t) : option t :=
  if effective_double r && (int_add (current_page r) 1 <? page_count r) then
    let '(p1, r) := load_page (current_page r) r in
    let '(p2, r) := load_page (int_add (current_page r) 1) r in
    let half_cols := int_div (cols term) 2 in
    let half_px := int_div (pixel_width term) 2 in
    r ← display_if_loaded p1 0 half_px r;
    display_if_loaded p2 half_cols half_px r
  else
    let '(page, r) := load_page (current_page r) r in
    display_if_loaded page 0 0 r.

(** [draw_comic_view]; the file that [progress.save] writes is not
    modelled, the map [progress.data] is. The page is recorded after the
    pages have been shown, so not when showing them fails. *)
Definition draw_comic_view (r : t) : option t :=
  let r := emit ClearScreen r in
  r ← show_pages r;
  let r := emit StatusLine r in
  let r :=
    set_progress (<[current_comic_filename r := current_page r]> (progress r)) r in
  Some (preload_adjacent r).

(** *** The event loop (lines 785-1015)

    [run_body c r] is one iteration of [while (read(STDIN_FILENO, &c, 1) == 1)]
    after the character [c] has been read. [None] stands for an iteration
    that does not end: an exception leaves [run] (thrown inside
    [std::sort] or by a renderer), a renderer divides by zero, or
    [entries] is read before its start. *)

Inductive Control := Continue | Break.

Definition read_char (r : t) : option (ascii * t) :=
  match stdin r with
  | [] => None
  | c :: rest => Some (c, set_stdin rest r)
  end.

Definition is_key (r : t) (c : ascii) (nm : string) : bool :=
  Ascii.eqb c (key (config r) nm).

Definition last_index (r : t) : Z :=
  int_sub (to_int (Z.of_nat (length (entries r)))) 1.

Definition leave_comic (r : t) : t :=
  let r := set_viewing_comic false r in
  let r := set_archive (ArchiveReader.close (archive r)) r in
  let r := set_page_cache ∅ r in
  draw_file_list r.

(** The branch of the Enter key that opens an archive (lines 858-880). *)
Definition open_comic (fe : FileEntry) (r : t) : option t :=
  '(ok, a) ← ArchiveReader.open char_is_signed disk (full_path fe) (archive r);
  let r := set_archive a r in
  if ok : bool then
    let r := set_viewing_comic true r in
    let r := set_current_comic_filename (fe_name fe) r in
    let r := set_zoom_level f_one r in
    let r := set_pan_y 0 r in
    let r := set_pan_x 0 r in
    let r :=
      match progress r !! current_comic_filename r with
      | Some saved =>
          let r := set_current_page saved r in
          if current_page r >=? page_count r then set_current_page 0 r else r
      | None => set_current_page 0 r
      end in
    draw_comic_view r
  else
    Some (draw_file_list (emit (Text "[Failed to open archive]") r)).

Definition press_enter (r : t) : option t :=
  if bool_decide (entries r = [])
     || (selected_idx r >=? to_int (Z.of_nat (length (entries r))))
  then Some r
  else if selected_idx r <? 0 then None
  else
    fe ← entries r !! Z.to_nat (selected_idx r);
    if is_directory fe then
      let r := set_current_dir (full_path fe) r in
      let r := set_selected_idx 0 r in
      Some (draw_file_list (scan_directory r))
    else open_comic fe r.

Definition browse_arrows (r : t) : t :=
  match read_char r with
  | None => r
  | Some (seq0, r) =>
      match read_char r with
      | None => r
      | Some (seq1, r) =>
          if Ascii.eqb seq0 "["%char then
            if Ascii.eqb seq1 "A"%char && (selected_idx r >? 0)
            then draw_file_list (set_selected_idx (int_sub (selected_idx r) 1) r)
            else if Ascii.eqb seq1 "B"%char && (selected_idx r <? last_index r)
            then draw_file_list (set_selected_idx (int_add (selected_idx r) 1) r)
            else r
          else r
      end
  end.

Definition browse (c : ascii) (r : t) : option (Control * t) :=
  if is_key r c "quit" then Some (Break, r)
  else if is_key r c "refresh" then
    Some (Continue, draw_file_list (scan_directory r))
  else if is_key r c "toggle_help" then
    Some (Continue,
          draw_file_list
            (set_config (set_show_help (negb (show_help (config r))) (config r)) r))
  else if is_key r c "first_page" then
    Some (Continue, draw_file_list (set_selected_idx 0 r))
  else if is_key r c "last_page" then
    Some (Continue, draw_file_list (set_selected_idx (last_index r) r))
  else if is_key r c "up" && (selected_idx r >? 0) then
    Some (Continue,
          draw_file_list (set_selected_idx (int_sub (selected_idx r) 1) r))
  else if is_key r c "down" && (selected_idx r <? last_index r) then
    Some (Continue,
          draw_file_list (set_selected_idx (int_add (selected_idx r) 1) r))
  else if Ascii.eqb c ESC then Some (Continue, browse_arrows r)
  else if Ascii.eqb c "010"%char || Ascii.eqb c "013"%char then
    r ← press_enter r; Some (Continue, r)
  else Some (Continue, r).

(** [step] of line 888. *)
Definition page_step (r : t) : Z := if double_page (config r) then 2 else 1.

Definition can_advance (r : t) : bool :=
  int_add (current_page r) (page_step r) <? page_count r.

Definition next_page (r : t) : t :=
  set_current_page (int_add (current_page r) (page_step r)) r.

Definition prev_page (r : t) : t :=
  set_current_page (Z.max 0 (int_sub (current_page r) (page_step r))) r.

(** The helper [do_pan]: the reader and the new value of [navigate]. *)
Definition do_pan (dir : ascii) (navigate : bool) (r : t) : bool * t :=
  if is_unzoomed (zoom_level r) then (navigate, r)
  else
    let r :=
      if Ascii.eqb dir "K"%char then set_pan_y (int_add (pan_y r) 50) r
      else if Ascii.eqb dir "J"%char then set_pan_y (int_sub (pan_y r) 50) r
      else if Ascii.eqb dir "H"%char then set_pan_x (int_add (pan_x r) 50) r
      else if Ascii.eqb dir "L"%char then set_pan_x (int_sub (pan_x r) 50) r
      else r in
    (true, r).

(** Shift and an arrow, [ESC [ 1 ; 2 A/B/C/D]; the iteration ends with
    [continue], before the redraw. *)
Definition shift_arrow (r : t) : t :=
  match read_char r with
  | None => r
  | Some (semi, r) =>
      match read_char r with
      | None => r
      | Some (two, r) =>
          match read_char r with
          | None => r
          | Some (dir, r) =>
              if negb (Ascii.eqb semi ";"%char) || negb (Ascii.eqb two "2"%char)
              then r
              else if negb (is_unzoomed (zoom_level r)) then
                if Ascii.eqb dir "A"%char then snd (do_pan "K"%char false r)
                else if Ascii.eqb dir "B"%char then snd (do_pan "J"%char false r)
                else if Ascii.eqb dir "C"%char then snd (do_pan "L"%char false r)
                else if Ascii.eqb dir "D"%char then snd (do_pan "H"%char false r)
                else r
              else r
          end
      end
  end.

Definition redraw_if (navigate : bool) (r : t) : option t :=
  if navigate then draw_comic_view r else Some r.

Definition view_escape (r : t) : option t :=
  match read_char r with
  | None => Some (leave_comic r)
  | Some (seq0, r) =>
      match read_char r with
      | None => Some r
      | Some (seq1, r) =>
          if Ascii.eqb seq0 "["%char then
            if Ascii.eqb seq1 "1"%char then Some (shift_arrow r)
            else if Ascii.eqb seq1 "C"%char && can_advance r
            then redraw_if true (next_page r)
            else if Ascii.eqb seq1 "D"%char && (current_page r >? 0)
            then redraw_if true (prev_page r)
            else Some r
          else Some r
      end
  end.

Definition view (c : ascii) (r : t) : option t :=
  if Ascii.eqb c ESC then view_escape r
  else if is_key r c "next" && can_advance r then redraw_if true (next_page r)
  else if is_key r c "prev" && (current_page r >? 0)
  then redraw_if true (prev_page r)
  else if is_key r c "first_page" then redraw_if true (set_current_page 0 r)
  else if is_key r c "last_page"
  then redraw_if true (set_current_page (int_sub (page_count r) 1) r)
  else if is_key r c "toggle_spread" || is_key r c "double_page" then
    redraw_if true
      (set_config (set_double_page (negb (double_page (config r))) (config r)) r)
  else if is_key r c "toggle_help" then
    redraw_if true
      (set_config (set_show_help (negb (show_help (config r))) (config r)) r)
  else if is_key r c "quit" then Some (leave_comic r)
  else if is_key r c "zoom_in"
  then redraw_if true (set_zoom_level (zoom_in (zoom_level r)) r)
  else if is_key r c "zoom_out" || is_key r c "zoom_out_alt"
  then redraw_if true (set_zoom_level (zoom_out (zoom_level r)) r)
  else if is_key r c "zoom_reset"
  then redraw_if true (set_pan_y 0 (set_pan_x 0 (set_zoom_level f_one r)))
  else if is_key r c "pan_up"
  then let '(n, r) := do_pan "K"%char false r in redraw_if n r
  else if is_key r c "pan_down"
  then let '(n, r) := do_pan "J"%char false r in redraw_if n r
  else if is_key r c "pan_left"
  then let '(n, r) := do_pan "H"%char false r in redraw_if n r
  else if is_key r c "pan_right"
  then let '(n, r) := do_pan "L"%char false r in redraw_if n r
  else Some r.

Definition run_body (c : ascii) (r : t) : option (Control * t) :=
  if viewing_comic r then r' ← view c r; Some (Continue, r') else browse c r.

(** *** Notions used to state the navigation properties *)

(** A spread is drawn: the test of lines 720-724. *)
Definition spread_eligible (r : t) : bool :=
  effective_double r && (int_add (current_page r) 1 <? page_count r).

(** The names that the viewing branch compares a key with, in order. *)
Definition view_keys : list string :=
  [ "next"; "prev"; "first_page"; "last_page"; "toggle_spread"; "double_page";
    "toggle_help"; "quit"; "zoom_in"; "zoom_out"; "zoom_out_alt"; "zoom_reset";
    "pan_up"; "pan_down"; "pan_left"; "pan_right" ]%string.

(** The character [c] is the key of [nm], is not the escape character,
    and is the key of no other name of the viewing branch. *)
Definition bound_only (r : t) (c : ascii) (nm : string) : bool :=
  is_key r c nm && negb (Ascii.eqb c ESC)
  && forallb (fun o => String.eqb o nm || negb (is_key r c o)) view_keys.

(** The names that the file-list branch compares a key with before it
    looks for Enter, and the condition that Enter is none of these keys. *)
Definition browse_keys : list string :=
  [ "quit"; "refresh"; "toggle_help"; "first_page"; "last_page"; "up";
    "down" ]%string.

Definition enter_is_free (r : t) : bool :=
  forallb (fun o => negb (is_key r "010"%char o)) browse_keys.

(** The page that [open_comic] starts on, given the saved ordinal. *)
Definition restored_page (saved : option Z) (count : Z) : Z :=
  match saved with
  | Some p => if p >=? count then 0 else p
  | None => 0
  end.

(** What drawing and loading leave alone: the page, the configuration,
    the zoom, the mode, the archive's name and page count, the pending
    input; and a pan that is zero stays zero. *)
Definition steady (r r' : t) : Prop :=
  current_page r' = current_page r
  /\ config r' = config r
  /\ zoom_level r' = zoom_level r
  /\ viewing_comic r' = viewing_comic r
  /\ current_comic_filename r' = current_comic_filename r
  /\ page_count r' = page_count r
  /\ stdin r' = stdin r
  /\ (pan_x r = 0 -> pan_x r' = 0)
  /\ (pan_y r = 0 -> pan_y r' = 0).

(** What showing a page can change: the pan offsets and the terminal. *)
Definition shown (r r' : t) : Prop :=
  entries r' = entries r
  /\ current_dir r' = current_dir r
  /\ selected_idx r' = selected_idx r
  /\ archive r' = archive r
  /\ page_cache r' = page_cache r
  /\ current_page r' = current_page r
  /\ viewing_comic r' = viewing_comic r
  /\ current_comic_filename r' = current_comic_filename r
  /\ zoom_level r' = zoom_level r
  /\ config r' = config r
  /\ progress r' = progress r
  /\ stdin r' = stdin r
  /\ (pan_x r = 0 -> pan_x r' = 0)
  /\ (pan_y r = 0 -> pan_y r' = 0).

(** What a key of the comic view changes before the page is drawn again:
    not the file list, the archive, the cache, the name of the comic or
    the saved pages; and the page becomes one of five ordinals. *)
Definition keyed (r r0 : t) : Prop :=
  entries r0 = entries r
  /\ current_dir r0 = current_dir r
  /\ selected_idx r0 = selected_idx r
  /\ archive r0 = archive r
  /\ page_cache r0 = page_cache r
  /\ viewing_comic r0 = viewing_comic r
  /\ current_comic_filename r0 = current_comic_filename r
  /\ progress r0 = progress r
  /\ (current_page r0 = current_page r
      \/ current_page r0 = int_add (current_page r) (page_step r)
      \/ current_page r0 = Z.max 0 (int_sub (current_page r) (page_step r))
      \/ current_page r0 = 0
      \/ current_page r0 = int_sub (page_count r) 1).

End WithWorld.

(** The number type is read off the reader that a function works on. *)
Arguments mk {F}.
Arguments entries {F}.
Arguments set_entries {F}.
Arguments current_dir {F}.
Arguments set_current_dir {F}.
Arguments selected_idx {F}.
Arguments set_selected_idx {F}.
Arguments archive {F}.
Arguments set_archive {F}.
Arguments page_cache {F}.
Arguments set_page_cache {F}.
Arguments current_page {F}.
Arguments set_current_page {F}.
Arguments viewing_comic {F}.
Arguments set_viewing_comic {F}.
Arguments current_comic_filename {F}.
Arguments set_current_comic_filename {F}.
Arguments zoom_level {F}.
Arguments set_zoom_level {F}.
Arguments pan_x {F}.
Arguments set_pan_x {F}.
Arguments pan_y {F}.
Arguments set_pan_y {F}.
Arguments config {F}.
Arguments set_config {F}.
Arguments progress {F}.
Arguments set_progress {F}.
Arguments stdin {F}.
Arguments set_stdin {F}.
Arguments stdout {F}.
Arguments set_stdout {F}.
Arguments emit {F}.
Arguments page_count {F}.
Arguments read_char {F}.
Arguments is_key {F}.
Arguments last_index {F}.
Arguments page_step {F}.
Arguments can_advance {F}.
Arguments next_page {F}.
Arguments prev_page {F}.
Arguments scan_directory listing {F}.
Arguments draw_file_list {F}.
Arguments load_page disk {F}.
Arguments request_all disk {F}.
Arguments preload_adjacent disk {F}.
Arguments render_kitty term {F}.
Arguments display_image term {F}.
Arguments display_if_loaded term {F}.
Arguments render_ascii term {F}.
Arguments show_pages disk term {F}.
Arguments effective_double {F}.
Arguments spread_eligible {F}.
Arguments bound_only {F}.
Arguments enter_is_free {F}.
Arguments steady {F}.
Arguments shown {F}.
Arguments keyed {F}.
Arguments draw_comic_view disk term {F}.
Arguments leave_comic {F}.
Arguments open_comic char_is_signed disk term {F}.
Arguments press_enter char_is_signed disk listing term {F}.
Arguments browse_arrows {F}.
Arguments browse char_is_signed disk listing term {F}.
Arguments do_pan {F}.
Arguments shift_arrow {F}.
Arguments redraw_if disk term {F}.
Arguments view_escape disk term {F}.
Arguments view disk term {F}.
Arguments run_body char_is_signed disk listing term {F}.

End ComicReader.

(** ** The page cache as a view of the archive

    Notions used to state that the reader serves the pages of the archive
    that is open. *)

Module PageStore.
Section WithDisk.

Variable disk : string -> option (list ArchiveEntry).
Variable F : Type.

(** The bytes of the page with ordinal [k] of the archive [es], for a
    session that has indexed [es]. *)
Definition page_bytes (es : list ArchiveEntry) (a : ArchiveReader.t) (k : Z)
  : option (list byte) :=
  if k <? 0 then None
  else
    pg ← ArchiveReader.entries a !! Z.to_nat k;
    e ← es !! Z.to_nat (index_in_archive pg);
    Some (ArchiveReader.read_data e).

(** The page list names entries of [es]: every page points at an entry
    whose payload reads without error and is not empty, and no two pages
    point at the same entry. *)
Definition indexed (es : list ArchiveEntry) (pages : list PageEntry) : Prop :=
  (length pages <= length es)%nat
  /\ (forall i pg, pages !! i = Some pg ->
        0 <= index_in_archive pg
        /\ exists e bs, es !! Z.to_nat (index_in_archive pg) = Some e
                        /\ ArchiveReader.well_formed e bs /\ bs <> [])
  /\ (forall i j pi pj, pages !! i = Some pi -> pages !! j = Some pj ->
        index_in_archive pi = index_in_archive pj -> i = j).

(** The reader serves the archive [es]: the session reads [es], every
    cached page holds the bytes of that page, and the page that the
    stream stands behind is cached. *)
Definition serves (es : list ArchiveEntry) (r : ComicReader.t F) : Prop :=
  Z.of_nat (length es) < 2 ^ 31
  /\ ArchiveReader.positioned disk es (ComicReader.archive r)
  /\ indexed es (ArchiveReader.entries (ComicReader.archive r))
  /\ (forall k d, ComicReader.page_cache r !! k = Some d ->
        page_bytes es (ComicReader.archive r) k = Some d)
  /\ (forall i pg,
        ArchiveReader.entries (ComicReader.archive r) !! i = Some pg ->
        ArchiveReader.current_entry (ComicReader.archive r)
        = index_in_archive pg ->
        is_Some (ComicReader.page_cache r !! Z.of_nat i)).

(** Every archive on the disk has fewer than 2^31 entries, and its
    images read without error and are not empty. *)
Definition sound_disk : Prop :=
  forall path es, disk path = Some es ->
  Z.of_nat (length es) < 2 ^ 31
  /\ forall e, e ∈ es -> ArchiveReader.is_image (entry_pathname e) = true ->
       exists bs, ArchiveReader.well_formed e bs /\ bs <> [].

(** The state between two key presses: in the comic view the reader
    serves an archive of the disk, in the file list nothing is cached;
    the page ordinal and the saved ordinals are [int]s. *)
Definition consistent (r : ComicReader.t F) : Prop :=
  (if ComicReader.viewing_comic r then exists es, serves es r
   else ComicReader.page_cache r = ∅)
  /\ in_int (ComicReader.current_page r)
  /\ map_Forall (fun (_ : string) p => in_int p) (ComicReader.progress r).

End WithDisk.

Arguments serves disk {F}.
Arguments consistent disk {F}.

End PageStore.

(** ** Text files and the [std::string] calls of the two loaders *)

Module Str.

(** The double quote, and the line feed that [std::getline] stops at. *)
Definition quote : ascii := "034"%char.
Definition newline : ascii := "010"%char.

(** The lines that successive calls of [std::getline] return for the text
    of a file, until a call fails: a text that does not end with a line
    feed still gives its last line. *)
Fixpoint getlines (text : list ascii) : list (list ascii) :=
  match text with
  | [] => []
  | c :: rest =>
      if Ascii.eqb c newline then [] :: getlines rest
      else
        match getlines rest with
        | [] => [[c]]
        | l :: ls => (c :: l) :: ls
        end
  end.

Definition among (set : list ascii) (c : ascii) : bool :=
  existsb (Ascii.eqb c) set.

(** [s.find(c)], [s.find_first_not_of(set)] and [s.find_last_not_of(set)];
    [None] is [std::string::npos]. *)
Fixpoint find (c : ascii) (s : list ascii) : option nat :=
  match s with
  | [] => None
  | x :: s' => if Ascii.eqb x c then Some 0%nat else S <$> find c s'
  end.

Fixpoint find_first_not_of (set : list ascii) (s : list ascii) : option nat :=
  match s with
  | [] => None
  | x :: s' =>
      if among set x then S <$> find_first_not_of set s' else Some 0%nat
  end.

Definition find_last_not_of (set : list ascii) (s : list ascii) : option nat :=
  (fun i => (length s - 1 - i)%nat) <$> find_first_not_of set (rev s).

(** [pos + 1] for a position that may be [npos]: the sum wraps to zero. *)
Definition succ_pos (pos : option nat) : nat :=
  match pos with
  | Some i => S i
  | None => 0%nat
  end.

(** [s.erase(0, n)], [s.erase(pos)], [s.substr(pos)] and [s.substr(0, n)],
    for positions within the string; a count of [npos] reaches the end. *)
Definition erase_front (n : option nat) (s : list ascii) : list ascii :=
  match n with
  | Some i => drop i s
  | None => []
  end.

Definition erase_from (pos : nat) (s : list ascii) : list ascii := take pos s.

Definition substr_from (pos : nat) (s : list ascii) : list ascii := drop pos s.

Definition substr_front (n : option nat) (s : list ascii) : list ascii :=
  match n with
  | Some i => take i s
  | None => s
  end.

End Str.

(** ** [Config::load] (lines 187-222) and the directory [main] starts in
    (lines 1021-1036) *)

Module ConfigFile.

Definition blank : list ascii := [" "; "009"]%char.

(** The two pairs of [erase] calls of lines 201-204. *)
Definition trim (s : list ascii) : list ascii :=
  let s := Str.erase_front (Str.find_first_not_of blank s) s in
  Str.erase_from (Str.succ_pos (Str.find_last_not_of blank s)) s.

Definition is_true (val : string) : bool :=
  String.eqb val "true" || String.eqb val "1".

Definition mode_of (val : string) : RenderMode :=
  if String.eqb val "timg" then TIMG
  else if String.eqb val "ascii" then ASCII
  else KITTY.

Definition add_library (val : string) (c : Config) : Config :=
  mk_config (keymap c) (double_page c) (show_help c) (render_mode c)
            (library_paths c ++ [val]).

Definition bind_key (key val : string) (c : Config) : Config :=
  mk_config (<[key := val]> (keymap c)) (double_page c) (show_help c)
            (render_mode c) (library_paths c).

(** The chain of comparisons of lines 206-218. *)
Definition apply_setting (key val : string) (c : Config) : Config :=
  if String.eqb key "double_page" then set_double_page (is_true val) c
  else if String.eqb key "show_help" then set_show_help (is_true val) c
  else if String.eqb key "render_mode" then set_render_mode (mode_of val) c
  else if String.eqb key "library" then add_library val c
  else bind_key key val c.

(** The body of the loop, for one line. *)
Definition load_line (line : list ascii) (c : Config) : Config :=
  match line with
  | [] => c
  | first :: _ =>
      if Ascii.eqb first "#" then c
      else
        match Str.find "=" line with
        | None => c
        | Some eq =>
            let key := Str.substr_front (Some eq) line in
            let val := Str.substr_from (S eq) line in
            apply_setting (string_of_list_ascii (trim key))
                          (string_of_list_ascii (trim val)) c
        end
  end.

(** [load]; [None] is a file that does not open. *)
Definition load (file : option (list ascii)) (c : Config) : Config :=
  match file with
  | None => c
  | Some text => foldl (fun c line => load_line line c) c (Str.getlines text)
  end.

(** The directory that [main] chooses (lines 1022-1036): [argv] holds
    the program name and the arguments, [home] is the value of [HOME]
    (empty when it is not set), [fs] gives the text of a file that
    opens. *)
Definition main_directory (argv : list string) (home : string)
    (fs : string -> option (list ascii)) : string :=
  let temp_cfg :=
    if String.eqb home "" then default_config
    else load (fs (home ++ "/.tcreader.conf")%string) default_config in
  match argv with
  | _ :: dir :: _ => dir
  | _ =>
      match library_paths temp_cfg with
      | dir :: _ => dir
      | [] => "."%string
      end
  end.

(** How [main] goes on (lines 1038-1047): the reader runs in the
    directory, or the usage message names the directory and [main]
    returns 1. *)
Inductive Startup :=
  | Run (dir : string)
  | InvalidDirectory (dir : string).

(** [main] up to the construction of the reader. [fs_exists] and
    [fs_is_directory] are [fs::exists] and [fs::is_directory]; they give
    [None] when they throw, and the second is asked only of a path that
    exists. *)
Definition start_directory (argv : list string) (home : string)
    (fs : string -> option (list ascii))
    (fs_exists fs_is_directory : string -> option bool) : option Startup :=
  let dir := main_directory argv home fs in
  e ← fs_exists dir;
  if negb e then Some (InvalidDirectory dir)
  else
    d ← fs_is_directory dir;
    if negb d then Some (InvalidDirectory dir) else Some (Run dir).

(** A text that neither starts nor ends with a blank. *)
Definition trimmed (s : list ascii) : Prop :=
  match s with
  | [] => True
  | x :: _ => Str.among blank x = false
  end
  /\ match rev s with
     | [] => True
     | y :: _ => Str.among blank y = false
     end.

Definition blanks (s : list ascii) : Prop :=
  Forall (fun c => Str.among blank c = true) s.

End ConfigFile.

(** ** [SimpleJSON]: the progress file (lines 39-76) *)

Module SimpleJSON.

(** [operator<<] for an [int]: the decimal digits, most significant
    first, after a minus sign for a negative number. An [int] has at most
    ten digits. *)
Definition digit_char (d : Z) : ascii := ascii_of_N (Z.to_N (48 + d)).

Fixpoint digits (fuel : nat) (n : Z) : list ascii :=
  match fuel with
  | O => []
  | S fuel' =>
      (if n <? 10 then [] else digits fuel' (n / 10))
        ++ [digit_char (n mod 10)]
  end.

Definition print_int (v : Z) : list ascii :=
  if v <? 0 then "-"%char :: digits 10 (- v) else digits 10 v.

(** [std::stoi]: white space is skipped, a sign is read, then the digits;
    [None] is [std::invalid_argument], when no digit follows, or
    [std::out_of_range]. What follows the digits is ignored. *)
Definition isspace (c : ascii) : bool :=
  Str.among [" "; "009"; "010"; "011"; "012"; "013"]%char c.

Fixpoint skip_space (s : list ascii) : list ascii :=
  match s with
  | c :: s' => if isspace c then skip_space s' else s
  | [] => []
  end.

Definition stoi (s : list ascii) : option Z :=
  let s := skip_space s in
  let '(negative, s) :=
    match s with
    | c :: s' =>
        if Ascii.eqb c "-" then (true, s')
        else if Ascii.eqb c "+" then (false, s')
        else (false, s)
    | [] => (false, s)
    end in
  match NaturalSort.digit_run s with
  | [] => None
  | ds =>
      let v := NaturalSort.decimal ds in
      let v := if negative : bool then - v else v in
      if (- 2 ^ 31 <=? v) && (v <? 2 ^ 31) then Some v else None
  end.

(** The body of the loop of [load], for one line; [None] is an exception
    that [std::stoi] throws, which [load] does not catch. *)
Definition load_line (line : list ascii) (data : gmap string Z)
  : option (gmap string Z) :=
  match Str.find ":" line with
  | None => Some data
  | Some colon =>
      let key := Str.substr_from (Str.succ_pos (Str.find Str.quote line)) line in
      let key := Str.substr_front (Str.find Str.quote key) key in
      let val := Str.substr_from (S colon) line in
      let val :=
        Str.erase_front (Str.find_first_not_of [" "; "009"]%char val) val in
      let val :=
        Str.erase_from
          (Str.succ_pos
             (Str.find_last_not_of [" "; ","; "009"; "010"]%char val)) val in
      v ← stoi val;
      Some (<[string_of_list_ascii key := v]> data)
  end.

Definition load (file : option (list ascii)) (data : gmap string Z)
  : option (gmap string Z) :=
  match file with
  | None => Some data
  | Some text =>
      foldl (fun acc line => data ← acc; load_line line data) (Some data)
            (Str.getlines text)
  end.

(** [save]: the text written to a file that opens. The entries of a
    [std::map] come in the order of their keys. *)
Definition entry_line (kv : string * Z) : list ascii :=
  [" "; " "; Str.quote]%char ++ list_ascii_of_string kv.1
    ++ [Str.quote; ":"; " "]%char ++ print_int kv.2.

Fixpoint entry_lines (first : bool) (items : list (string * Z)) : list ascii :=
  match items with
  | [] => []
  | kv :: rest =>
      (if first then [] else [","; Str.newline]%char)
        ++ entry_line kv ++ entry_lines false rest
  end.

Definition render (items : list (string * Z)) : list ascii :=
  ["{"; Str.newline]%char ++ entry_lines true items
    ++ [Str.newline; "}"; Str.newline]%char.

Fixpoint insert_by_key (kv : string * Z) (l : list (string * Z))
  : list (string * Z) :=
  match l with
  | [] => [kv]
  | x :: l' =>
      if String.leb kv.1 x.1 then kv :: l else x :: insert_by_key kv l'
  end.

Definition in_key_order (data : gmap string Z) : list (string * Z) :=
  foldr insert_by_key [] (map_to_list data).

Definition save (data : gmap string Z) : list ascii :=
  render (in_key_order data).

(** A name that the file format can hold: no double quote, no colon and
    no line feed. *)
Definition plain_key (k : string) : bool :=
  forallb (fun c => negb (Str.among [Str.quote; ":"; Str.newline]%char c))
          (list_ascii_of_string k).

(** A character with which a number can start for [std::stoi]. *)
Definition number_start (c : ascii) : bool :=
  isspace c || NaturalSort.isdigit c || Ascii.eqb c "-" || Ascii.eqb c "+".

End SimpleJSON.

(** ** The character renderer (lines 511-543) *)

Module AsciiArt.

(** The brightness ramp, from dark to bright. *)
Definition charset : list ascii :=
  list_ascii_of_string " .'`^"
    ++ [Str.quote]
    ++ list_ascii_of_string
         ",:;Il!i><~+_-?][}{1)(|/tfjrxnuvczXYUJCLQ0OZmwqpdbkhao*#MW&8%B@$".

(** [static_cast<int>(strlen(charset))]. *)
Definition charset_len : Z := to_int (Z.of_nat (length charset)).

(** [(brightness * (charset_len - 1)) / 255]. *)
Definition ramp_index (brightness : Z) : Z :=
  int_div (int_mul brightness (int_sub charset_len 1)) 255.

(** [charset[idx]]; the string ends with a zero character. *)
Definition ramp_char (b : byte) : ascii :=
  nth (Z.to_nat (ramp_index (byte_val b))) charset "000"%char.

(** The size of the picture in characters (lines 521-522). *)
Definition target_size (term : TermSize) : Z * Z :=
  (Z.min (int_sub (cols term) 4) 80, Z.min (int_sub (rows term) 4) 40).

(** The two loops of lines 533-539: the lines written, without their
    line feeds. *)
Definition render_rows (resized : list byte) (target_w target_h : Z)
  : list (list ascii) :=
  map (fun y =>
         map (fun x =>
                ramp_char (Kitty.get resized (int_add (int_mul y target_w) x)))
             (seqZ 0 target_w))
      (seqZ 0 target_h).

End AsciiArt.

(** ** Concrete archives used in examples *)

Module Sample.

Definition payload (n : nat) : list byte := [x42; x4d] ++ replicate n x2a.

Definition page (nm : string) (n : nat) : ArchiveEntry :=
  mk_entry nm (2 + n) (Some (payload n)).

(** The three names of the natural-ordering example, in stream order. *)
Definition pages_cbz : list ArchiveEntry :=
  [ page "page2.jpg" 2; page "page10.jpg" 10; page "page1.jpg" 1 ].

(** Six pages stored out of order, with a text file between them. *)
Definition six_cbz : list ArchiveEntry :=
  [ page "p3.png" 3; mk_entry "readme.txt" 5 (Some (payload 3));
    page "p6.png" 6; page "p1.png" 1; page "p5.png" 5;
    page "p2.png" 2; page "p4.png" 4 ].

Definition disk (path : string) : option (list ArchiveEntry) :=
  if String.eqb path "/lib/pages.cbz" then Some pages_cbz
  else if String.eqb path "/lib/six.cbz" then Some six_cbz
  else None.

(** The session right after [open] on an archive of [disk]. *)
Definition session (path : string) : ArchiveReader.t :=
  match ArchiveReader.open true disk path ArchiveReader.initial with
  | Some (_, s) => s
  | None => ArchiveReader.initial
  end.

(** The natural order of [pages_cbz], with the stream position of each
    page. *)
Definition pages_in_order : list PageEntry :=
  [ mk_page "page1.jpg" 2; mk_page "page2.jpg" 0; mk_page "page10.jpg" 1 ].

(** *** A world for the reader

    A small terminal, a directory with the two archives and a file that is
    no archive, and exact decimal numbers (in thousandths) standing in for
    [float]. Every payload that starts with the two bytes of [payload]
    decodes to an image of two by two pixels. *)

Definition listing (dir : string) : list FileEntry :=
  if String.eqb dir "/lib" then
    [ mk_file ".." "/" true;
      mk_file "broken.cbz" "/lib/broken.cbz" false;
      mk_file "pages.cbz" "/lib/pages.cbz" false;
      mk_file "six.cbz" "/lib/six.cbz" false ]
  else [].

Definition term : TermSize := mk_term 13 4 40 130.

Definition f_one : Z := 1000.
Definition is_unzoomed (z : Z) : bool := Z.abs (z - 1000) <? 1.
Definition zoom_in (z : Z) : Z := Z.min (z + 100) 3000.
Definition zoom_out (z : Z) : Z := Z.max (z - 100) 500.

Definition scaled_size (w h target_w target_h z : Z) : Z * Z :=
  if target_w * h <=? target_h * w
  then (Z.quot (target_w * z) 1000, Z.quot (h * target_w * z) (w * 1000))
  else (Z.quot (w * target_h * z) (h * 1000), Z.quot (target_h * z) 1000).

Definition stbi_load_from_memory (img : list byte)
  : option (Z * Z * list byte) :=
  match img with
  | x42 :: x4d :: _ => Some (2, 2, replicate 12 xff)
  | _ => None
  end.

Definition stbir_resize (pixels : list byte) (w h new_w new_h : Z) : list byte :=
  replicate (Z.to_nat (new_w * new_h * 3)) x80.

(** The reader in the file list of [/lib], as the constructor leaves it,
    with a given progress record and configuration and with the cursor on
    the entry [selected]. *)
Definition browsing (cfg : Config) (saved : gmap string Z) (selected : Z)
  : ComicReader.t Z :=
  ComicReader.mk (listing "/lib") "/lib" selected ArchiveReader.initial ∅ 0
    false "" f_one 0 0 cfg saved [] [].

Definition run_body (c : ascii) (r : ComicReader.t Z)
  : option (ComicReader.Control * ComicReader.t Z) :=
  ComicReader.run_body true disk listing term f_one is_unzoomed zoom_in
    zoom_out scaled_size stbi_load_from_memory stbir_resize c r.

(** The reader after Enter was pressed on the entry [selected]. *)
Definition opened (cfg : Config) (saved : gmap string Z) (selected : Z)
  : ComicReader.t Z :=
  match run_body "010"%char (browsing cfg saved selected) with
  | Some (_, r) => r
  | None => browsing cfg saved selected
  end.

(** The reader viewing six.cbz with nothing cached yet. *)
Definition viewing_six : ComicReader.t Z :=
  ComicReader.set_page_cache ∅ (opened default_config ∅ 3).

(** A reader whose cache holds the ordinals 0 and 10. *)
Definition with_far_entry : ComicReader.t Z :=
  ComicReader.set_page_cache {[ 0 := [x01]; 10 := [x02] ]}
    (opened default_config ∅ 3).

End Sample.

(** * Machine integers within their range *)

Lemma to_int_id (z : Z) : in_int z -> to_int z = z.
Proof.
  unfold in_int, to_int. intros H.
  rewrite Z.mod_small by lia. lia.
Qed.

Lemma to_size_t_id (z : Z) : 0 <= z < 2 ^ 64 -> to_size_t z = z.
Proof. unfold to_size_t. intros H. by rewrite Z.mod_small. Qed.

Lemma to_size_t_negative (z : Z) :
  - 2 ^ 31 <= z < 0 -> 2 ^ 31 <= to_size_t z.
Proof.
  unfold to_size_t. intros H.
  replace z with (z + 2 ^ 64 + (-1) * 2 ^ 64) by lia.
  rewrite Z.mod_add by lia. rewrite Z.mod_small by lia. lia.
Qed.

Lemma int_add_id (a b : Z) : in_int (a + b) -> int_add a b = a + b.
Proof. apply to_int_id. Qed.

Lemma int_sub_id (a b : Z) : in_int (a - b) -> int_sub a b = a - b.
Proof. apply to_int_id. Qed.

Lemma int_mul_id (a b : Z) : in_int (a * b) -> int_mul a b = a * b.
Proof. apply to_int_id. Qed.

Lemma int_neg_id (a : Z) : in_int (- a) -> int_neg a = - a.
Proof. apply to_int_id. Qed.

Lemma int_abs_id (a : Z) : in_int (Z.abs a) -> int_abs a = Z.abs a.
Proof. apply to_int_id. Qed.

Lemma int_div_pos (a b : Z) :
  0 <= a < 2 ^ 31 -> 0 < b -> int_div a b = a / b.
Proof.
  intros Ha Hb. unfold int_div. rewrite Z.quot_div_nonneg by lia.
  apply to_int_id. unfold in_int.
  pose proof (Z.div_pos a b ltac:(lia) Hb).
  pose proof (Z.mul_div_le a b Hb). nia.
Qed.

Lemma to_int_range (z : Z) : in_int (to_int z).
Proof.
  unfold in_int, to_int.
  pose proof (Z.mod_pos_bound (z + 2 ^ 31) (2 ^ 32) ltac:(lia)). lia.
Qed.

(** Solving range side conditions of the lemmas above. *)
Ltac int_range := unfold in_int in *; lia.

Ltac int_simpl :=
  repeat first
    [ rewrite int_add_id by int_range
    | rewrite int_sub_id by int_range
    | rewrite int_mul_id by int_range
    | rewrite int_neg_id by int_range
    | rewrite int_abs_id by int_range
    | rewrite to_int_id by int_range ].
(** * Properties of the base64 encoder *)

Module Base64Facts.
Import Base64.

Example encode_Man :
  base64_encode ["M"; "a"; "n"]%byte = list_ascii_of_string "TWFu".
Proof. reflexivity. Qed.

Example encode_Ma :
  base64_encode ["M"; "a"]%byte = list_ascii_of_string "TWE=".
Proof. reflexivity. Qed.

Example encode_M :
  base64_encode ["M"]%byte = list_ascii_of_string "TQ==".
Proof. reflexivity. Qed.

Example decode_Ma :
  rfc4648_decode (list_ascii_of_string "TWE=") = Some ["M"; "a"]%byte.
Proof. reflexivity. Qed.

Lemma byte_val_range (b : byte) : 0 <= byte_val b < 256.
Proof.
  unfold byte_val. pose proof (Byte.to_N_bounded b). lia.
Qed.

(** The masks and shifts of lines 92-95, byte by byte, as quotients and
    remainders. Each is checked on the 256 values of a byte. *)
Lemma mask_fc (b : byte) : Z.shiftr (Z.land (byte_val b) 252) 2 = byte_val b / 4.
Proof. destruct b; reflexivity. Qed.

Lemma mask_03 (b : byte) :
  Z.shiftl (Z.land (byte_val b) 3) 4 = (byte_val b mod 4) * 16.
Proof. destruct b; reflexivity. Qed.

Lemma mask_f0 (b : byte) : Z.shiftr (Z.land (byte_val b) 240) 4 = byte_val b / 16.
Proof. destruct b; reflexivity. Qed.

Lemma mask_0f (b : byte) :
  Z.shiftl (Z.land (byte_val b) 15) 2 = (byte_val b mod 16) * 4.
Proof. destruct b; reflexivity. Qed.

Lemma mask_c0 (b : byte) : Z.shiftr (Z.land (byte_val b) 192) 6 = byte_val b / 64.
Proof. destruct b; reflexivity. Qed.

Lemma mask_3f (b : byte) : Z.land (byte_val b) 63 = byte_val b mod 64.
Proof. destruct b; reflexivity. Qed.

Lemma sextets_split (x y z : Z) :
  0 <= x < 256 -> 0 <= y < 256 -> 0 <= z < 256 ->
  sextets x y z
  = [ x / 4; (x mod 4) * 16 + y / 16; (y mod 16) * 4 + z / 64; z mod 64 ].
Proof.
  intros Hx Hy Hz. unfold sextets. cbv zeta.
  f_equal; [| f_equal; [| f_equal; [| f_equal]]];
    Z.div_mod_to_equations; lia.
Qed.

Lemma sextets_range (x y z : Z) :
  0 <= x < 256 -> 0 <= y < 256 -> 0 <= z < 256 ->
  Forall (fun k => 0 <= k < 64) (sextets x y z).
Proof.
  intros Hx Hy Hz. rewrite sextets_split by assumption.
  repeat constructor; Z.div_mod_to_equations; lia.
Qed.

Lemma arr4_of_bytes (b0 b1 b2 : byte) :
  arr4_of [byte_val b0; byte_val b1; byte_val b2]
  = sextets (byte_val b0) (byte_val b1) (byte_val b2).
Proof.
  pose proof (byte_val_range b0). pose proof (byte_val_range b1).
  pose proof (byte_val_range b2).
  rewrite sextets_split by assumption.
  unfold arr4_of, arr_get, to_uchar. cbn [nth].
  rewrite mask_fc, mask_03, mask_f0, mask_0f, mask_c0, mask_3f.
  f_equal; [| f_equal; [| f_equal; [| f_equal]]];
    Z.div_mod_to_equations; lia.
Qed.


Lemma list_ind3 {A : Type} (P : list A -> Prop) :
  P [] -> (forall a, P [a]) -> (forall a b, P [a; b]) ->
  (forall a b c l, P l -> P (a :: b :: c :: l)) ->
  forall l, P l.
Proof.
  intros H0 H1 H2 H3. fix IH 1.
  intros [|a [|b [|c l]]];
    [exact H0 | exact (H1 a) | exact (H2 a b) | exact (H3 a b c l (IH l))].
Qed.

(** The three iterations that consume one group, starting with [i = 0]. *)
Lemma step_at_0 (b : byte) (x y z : Z) (r : list ascii) :
  step (mk_state 0 [x; y; z] r) b = mk_state 1 [byte_val b; y; z] r.
Proof. reflexivity. Qed.

Lemma step_at_1 (b : byte) (x y z : Z) (r : list ascii) :
  step (mk_state 1 [x; y; z] r) b = mk_state 2 [x; byte_val b; z] r.
Proof. reflexivity. Qed.

Lemma step_at_2 (b : byte) (x y z : Z) (r : list ascii) :
  step (mk_state 2 [x; y; z] r) b
  = mk_state 0 [x; y; byte_val b]
      (r ++ map char_at (arr4_of [x; y; byte_val b])).
Proof. reflexivity. Qed.

Lemma zero_is_byte : 0 = byte_val "000"%byte.
Proof. reflexivity. Qed.

Lemma finish_at_1 (x y z : Z) (r : list ascii) :
  finish (mk_state 1 [x; y; z] r)
  = r ++ map char_at (take 2 (arr4_of [x; 0; 0])) ++ ["="; "="]%char.
Proof. reflexivity. Qed.

Lemma finish_at_2 (x y z : Z) (r : list ascii) :
  finish (mk_state 2 [x; y; z] r)
  = r ++ map char_at (take 3 (arr4_of [x; y; 0])) ++ ["="%char].
Proof. reflexivity. Qed.

(** The loop and the block after it, from any state with [i = 0]. *)
Lemma finish_fold (data : list byte) :
  forall a r, length a = 3%nat ->
  finish (fold_left step data (mk_state 0 a r)) = r ++ rfc4648_encode data.
Proof.
  induction data as [|b0|b0 b1|b0 b1 b2 rest IH] using list_ind3;
    intros a r Ha;
    destruct a as [|x [|y [|z [|]]]]; try discriminate; cbn [fold_left].
  - cbn. by rewrite app_nil_r.
  - rewrite step_at_0, finish_at_1.
    rewrite zero_is_byte, arr4_of_bytes. reflexivity.
  - rewrite step_at_0, step_at_1, finish_at_2.
    rewrite zero_is_byte, arr4_of_bytes. reflexivity.
  - rewrite step_at_0, step_at_1, step_at_2, arr4_of_bytes.
    rewrite IH by reflexivity. cbn [rfc4648_encode].
    by rewrite <- app_assoc.
Qed.

Lemma encode_is_rfc4648 (data : list byte) :
  base64_encode data = rfc4648_encode data.
Proof. unfold base64_encode, init. by rewrite finish_fold. Qed.

(** Checking a boolean property on every index below a bound. *)
Lemma check_below (P : Z -> bool) (n : nat) :
  forallb P (map Z.of_nat (seq 0 n)) = true ->
  forall k, 0 <= k < Z.of_nat n -> P k = true.
Proof.
  intros H k Hk. rewrite forallb_forall in H. apply H.
  apply in_map_iff. exists (Z.to_nat k). split; [lia|].
  apply in_seq. lia.
Qed.

Lemma sextet_of_char_at (k : Z) :
  0 <= k < 64 -> sextet_of (char_at k) = Some k.
Proof.
  intros Hk.
  pose proof (check_below (fun k => option_Z_eqb (sextet_of (char_at k)) k)
                64 eq_refl k Hk) as H.
  cbv beta in H. destruct (sextet_of (char_at k)) as [j|]; [|discriminate].
  cbn in H. f_equal. lia.
Qed.

Lemma char_at_not_pad (k : Z) : 0 <= k < 64 -> is_pad (char_at k) = false.
Proof.
  intros Hk.
  pose proof (check_below (fun k => negb (is_pad (char_at k))) 64 eq_refl k Hk)
    as H.
  cbv beta in H. by destruct (is_pad (char_at k)).
Qed.

Lemma char_at_alphabet (k : Z) : 0 <= k < 64 -> In (char_at k) base64_chars.
Proof.
  intros Hk. unfold char_at. apply nth_In.
  change (length base64_chars) with 64%nat. lia.
Qed.

Lemma byte_of_val (b : byte) : byte_of (byte_val b) = Some b.
Proof.
  unfold byte_of, byte_val. rewrite N2Z.id. apply Byte.of_to_N.
Qed.


Lemma rfc4648_length (data : list byte) :
  length (rfc4648_encode data) = (4 * ((length data + 2) / 3))%nat.
Proof.
  induction data as [|b0|b0 b1|b0 b1 b2 rest IH] using list_ind3;
    try reflexivity.
  cbn [rfc4648_encode]. rewrite length_app, IH. cbn [length sextets map].
  replace (S (S (S (length rest))) + 2)%nat with (1 * 3 + (length rest + 2))%nat
    by lia.
  rewrite Nat.div_add_l by discriminate. lia.
Qed.

Lemma symbols_of_sextets (l : list Z) :
  Forall (fun k => 0 <= k < 64) l -> Forall base64_symbol (map char_at l).
Proof.
  intros H. apply Forall_map. eapply Forall_impl; [exact H|].
  intros k Hk. left. by apply char_at_alphabet.
Qed.

Lemma rfc4648_symbols (data : list byte) :
  Forall base64_symbol (rfc4648_encode data).
Proof.
  assert (Hpad : base64_symbol "="%char) by (by right).
  induction data as [|b0|b0 b1|b0 b1 b2 rest IH] using list_ind3;
    cbn [rfc4648_encode].
  - constructor.
  - apply Forall_app. split; [|by repeat constructor].
    apply symbols_of_sextets, Forall_take, sextets_range;
      (apply byte_val_range || lia).
  - apply Forall_app. split; [|by repeat constructor].
    apply symbols_of_sextets, Forall_take, sextets_range;
      (apply byte_val_range || lia).
  - apply Forall_app. split; [|exact IH].
    apply symbols_of_sextets, sextets_range; apply byte_val_range.
Qed.

(** Decoding one character of the alphabet. *)
Ltac decode_char :=
  rewrite ?sextet_of_char_at, ?char_at_not_pad
    by (Z.div_mod_to_equations; lia);
  cbn [mbind option_bind].

Lemma decode_full_group (b0 b1 b2 : byte) (tl : list ascii) :
  rfc4648_decode
    (map char_at (sextets (byte_val b0) (byte_val b1) (byte_val b2)) ++ tl)
  = (t ← rfc4648_decode tl; Some (b0 :: b1 :: b2 :: t)).
Proof.
  pose proof (byte_val_range b0). pose proof (byte_val_range b1).
  pose proof (byte_val_range b2).
  rewrite sextets_split by assumption. cbn [map app rfc4648_decode].
  decode_char.
  replace (_ * 4 + _ / 16) with (byte_val b0)
    by (Z.div_mod_to_equations; lia).
  replace (_ mod 16 * 16 + _ / 4) with (byte_val b1)
    by (Z.div_mod_to_equations; lia).
  replace (_ mod 4 * 64 + _) with (byte_val b2)
    by (Z.div_mod_to_equations; lia).
  rewrite !byte_of_val. reflexivity.
Qed.

Lemma decode_encode (data : list byte) :
  rfc4648_decode (rfc4648_encode data) = Some data.
Proof.
  induction data as [|b0|b0 b1|b0 b1 b2 rest IH] using list_ind3.
  - reflexivity.
  - pose proof (byte_val_range b0).
    cbn [rfc4648_encode]. rewrite sextets_split by lia.
    cbn [take map app rfc4648_decode]. decode_char.
    replace (_ * 4 + _ / 16) with (byte_val b0)
      by (Z.div_mod_to_equations; lia).
    rewrite byte_of_val. reflexivity.
  - pose proof (byte_val_range b0). pose proof (byte_val_range b1).
    cbn [rfc4648_encode]. rewrite sextets_split by lia.
    cbn [take map app rfc4648_decode]. decode_char.
    replace (_ * 4 + _ / 16) with (byte_val b0)
      by (Z.div_mod_to_equations; lia).
    replace (_ mod 16 * 16 + _ / 4) with (byte_val b1)
      by (Z.div_mod_to_equations; lia).
    rewrite !byte_of_val. reflexivity.
  - cbn [rfc4648_encode]. rewrite decode_full_group, IH. reflexivity.
Qed.

(** C10. For every byte sequence [data], [base64_encode] returns a string
    of exactly [4 * ceil (length data / 3)] characters, all of them from the
    standard alphabet or the pad character; the string is the RFC 4648
    encoding of [data], and decoding it gives [data] back. *)
Theorem base64_encode_standard (data : list byte) :
  length (base64_encode data) = (4 * ((length data + 2) / 3))%nat
  /\ Forall base64_symbol (base64_encode data)
  /\ base64_encode data = rfc4648_encode data
  /\ rfc4648_decode (base64_encode data) = Some data.
Proof.
  rewrite encode_is_rfc4648.
  split; [apply rfc4648_length|].
  split; [apply rfc4648_symbols|].
  split; [reflexivity | apply decode_encode].
Qed.

End Base64Facts.

(** * Properties of the natural-sort comparator *)

Module NaturalSortFacts.
Import NaturalSort.

Example compare_page2_page10 (sg : bool) :
  natural_sort_compare sg "page2.jpg" "page10.jpg" = Some true.
Proof. reflexivity. Qed.

Example compare_page10_page2 (sg : bool) :
  natural_sort_compare sg "page10.jpg" "page2.jpg" = Some false.
Proof. reflexivity. Qed.

Example lexicographic_page10_page2 :
  lexicographic_lt (list_ascii_of_string "page10.jpg")
                   (list_ascii_of_string "page2.jpg") = true.
Proof. reflexivity. Qed.


Lemma digit_run_app (ds rest : list ascii) :
  Forall (fun c => isdigit c = true) ds -> starts_without_digit rest ->
  digit_run (ds ++ rest) = ds.
Proof.
  intros Hds Hrest. induction Hds as [|c ds Hc _ IH]; cbn.
  - destruct rest as [|c r]; [done|]. cbn in *. by rewrite Hrest.
  - by rewrite Hc, IH.
Qed.

(** Two names that agree on a digit-free prefix and continue with runs of
    digits of different value are ordered by these values. *)
Lemma compare_digit_runs (sg : bool) (la lb : nat)
    (p da db ra rb : list ascii) (na nb : Z) :
  Forall (fun c => isdigit c = false) p ->
  da <> [] -> db <> [] ->
  Forall (fun c => isdigit c = true) da ->
  Forall (fun c => isdigit c = true) db ->
  starts_without_digit ra -> starts_without_digit rb ->
  stoll da = Some na -> stoll db = Some nb -> na <> nb ->
  compare_from sg la lb (p ++ da ++ ra) (p ++ db ++ rb) = Some (na <? nb).
Proof.
  intros Hp Hda0 Hdb0 Hda Hdb Hra Hrb Hna Hnb Hne.
  induction Hp as [|c p Hc _ IH].
  - destruct da as [|x da]; [done|]. destruct db as [|y db]; [done|].
    apply Forall_cons in Hda as [Hx Hda]. apply Forall_cons in Hdb as [Hy Hdb].
    cbn [app]. simp compare_from. rewrite Hx, Hy. cbn.
    rewrite (digit_run_app da ra) by assumption. rewrite Hna. cbn.
    rewrite (digit_run_app db rb) by assumption. rewrite Hnb. cbn.
    by rewrite (proj2 (Z.eqb_neq _ _) Hne).
  - cbn [app]. simp compare_from. rewrite Hc. cbn.
    rewrite Ascii.eqb_refl. exact IH.
Qed.

Lemma natural_sort_compare_digit_runs (sg : bool)
    (p da db ra rb : list ascii) (na nb : Z) :
  Forall (fun c => isdigit c = false) p ->
  da <> [] -> db <> [] ->
  Forall (fun c => isdigit c = true) da ->
  Forall (fun c => isdigit c = true) db ->
  starts_without_digit ra -> starts_without_digit rb ->
  stoll da = Some na -> stoll db = Some nb -> na <> nb ->
  natural_sort_compare sg (string_of_list_ascii (p ++ da ++ ra))
                          (string_of_list_ascii (p ++ db ++ rb))
  = Some (na <? nb).
Proof.
  intros. unfold natural_sort_compare. cbv zeta.
  rewrite !list_ascii_of_string_of_list_ascii.
  by apply compare_digit_runs.
Qed.

Example compare_img_007_010 (sg : bool) :
  natural_sort_compare sg "img007b.png" "img10a.png" = Some true.
Proof. reflexivity. Qed.

End NaturalSortFacts.

(** * Properties of the archive reader *)

Module ArchiveFacts.
Import ArchiveReader.

Example extension_plain :
  Path.extension (list_ascii_of_string "dir.d/Page01.JPG")
  = list_ascii_of_string ".JPG".
Proof. reflexivity. Qed.

Example extension_hidden :
  Path.extension (list_ascii_of_string "dir/.jpg") = [].
Proof. reflexivity. Qed.

Example is_image_upper : is_image "a/b/Cover.JPeG" = true.
Proof. reflexivity. Qed.

Example is_image_text : is_image "notes.txt" = false.
Proof. reflexivity. Qed.


(** *** The sort returns a rearrangement of its input *)

Lemma insert_perm {A} (comp : A -> A -> option bool) (x : A) (l r : list A) :
  StdSort.insert comp x l = Some r -> Permutation (x :: l) r.
Proof.
  revert r. induction l as [|y l IH]; intros r H; cbn in H.
  - by inversion H.
  - destruct (comp y x) as [[|]|]; cbn in H; try discriminate.
    + destruct (StdSort.insert comp x l) as [r'|]; cbn in H; [|discriminate].
      inversion H; subst. rewrite perm_swap. constructor. by apply IH.
    + by inversion H.
Qed.

Lemma sort_perm {A} (comp : A -> A -> option bool) (l r : list A) :
  StdSort.sort comp l = Some r -> Permutation l r.
Proof.
  revert r. induction l as [|x l IH]; intros r H; cbn in H.
  - by inversion H.
  - destruct (StdSort.sort comp l) as [s|]; cbn in H; [|discriminate].
    rewrite (IH s eq_refl). by apply (insert_perm comp).
Qed.

(** *** The index built by [open] *)

Lemma index_entries_lookup (es : list ArchiveEntry) :
  forall k pg, 0 <= k -> k + Z.of_nat (length es) < 2 ^ 64 ->
  In pg (index_entries es k) ->
  k <= index_in_archive pg < k + Z.of_nat (length es)
  /\ exists e, es !! Z.to_nat (index_in_archive pg - k) = Some e
               /\ entry_pathname e = name pg.
Proof.
  induction es as [|e es IH]; intros k pg Hk Hlen Hin; [destruct Hin|].
  cbn [index_entries length] in *.
  assert (Htl : In pg (index_entries es (k + 1)) ->
                k <= index_in_archive pg < k + Z.of_nat (S (length es))
                /\ exists e0, (e :: es) !! Z.to_nat (index_in_archive pg - k) = Some e0
                              /\ entry_pathname e0 = name pg).
  { intros Hin'. destruct (IH (k + 1) pg) as [Hr [e0 [He0 Hn]]]; [lia|lia|done|].
    split; [lia|]. exists e0. split; [|done].
    replace (Z.to_nat (index_in_archive pg - k))
      with (S (Z.to_nat (index_in_archive pg - (k + 1)))) by lia.
    exact He0. }
  rewrite to_size_t_id in Hin by lia.
  destruct (is_image (entry_pathname e)); [|by apply Htl].
  destruct Hin as [<-|Hin]; [|by apply Htl].
  cbn. split; [lia|]. exists e. by rewrite Z.sub_diag.
Qed.

Lemma index_entries_NoDup (es : list ArchiveEntry) :
  forall k, 0 <= k -> k + Z.of_nat (length es) < 2 ^ 64 ->
  NoDup (map index_in_archive (index_entries es k)).
Proof.
  induction es as [|e es IH]; intros k Hk Hlen; cbn [index_entries length] in *.
  - constructor.
  - rewrite to_size_t_id by lia.
    destruct (is_image (entry_pathname e)); [|apply IH; lia].
    cbn [map]. constructor; [|apply IH; lia].
    rewrite list_elem_of_In, in_map_iff. intros [pg [Heq Hin]].
    apply index_entries_lookup in Hin; [|lia|lia]. cbn in Heq. lia.
Qed.


(** *** Walking forward to an entry *)

Lemma walk_reaches (stream : list ArchiveEntry) :
  forall cur target e,
  -1 <= cur < target -> target < 2 ^ 31 ->
  stream !! Z.to_nat (target - cur - 1) = Some e ->
  walk target stream cur
  = (read_data e, (drop (Z.to_nat (target - cur)) stream, target)).
Proof.
  induction stream as [|e0 rest IH]; intros cur target e Hcur Ht Hlk;
    [done|].
  cbn [walk]. rewrite to_int_id by (unfold in_int; lia).
  rewrite to_size_t_id by lia.
  destruct (Z.eqb_spec (cur + 1) target) as [Heq|Hne].
  - replace (Z.to_nat (target - cur - 1)) with 0%nat in Hlk by lia.
    replace (Z.to_nat (target - cur)) with 1%nat by lia.
    cbn in Hlk. inversion Hlk; subst. reflexivity.
  - replace (Z.to_nat (target - cur - 1))
      with (S (Z.to_nat (target - (cur + 1) - 1))) in Hlk by lia.
    cbn in Hlk. rewrite (IH (cur + 1) target e) by (lia || done).
    replace (Z.to_nat (target - cur))
      with (S (Z.to_nat (target - (cur + 1)))) by lia.
    reflexivity.
Qed.

Section Reading.

Variable disk : string -> option (list ArchiveEntry).
Variable es : list ArchiveEntry.
Hypothesis es_small : Z.of_nat (length es) < 2 ^ 31.

(** Reading a page whose entry lies anywhere but exactly at the cursor
    returns the bytes of that entry, with or without a rewind. *)
Lemma read_page_reaches (s : t) (i : nat) (pg : PageEntry) (e : ArchiveEntry) :
  positioned disk es s ->
  entries s !! i = Some pg ->
  0 <= index_in_archive pg ->
  es !! Z.to_nat (index_in_archive pg) = Some e ->
  current_entry s <> index_in_archive pg ->
  exists s',
    read_page disk (Z.of_nat i) s = (read_data e, s')
    /\ positioned disk es s'
    /\ current_entry s' = index_in_archive pg
    /\ entries s' = entries s.
Proof.
  intros (Hdisk & Hcur & Hh) Hpg Hidx He Hne.
  pose proof (lookup_lt_Some _ _ _ Hpg) as Hi.
  pose proof (lookup_lt_Some _ _ _ He) as Hlt.
  unfold read_page.
  rewrite (proj2 (Z.leb_gt _ _)) by lia.
  rewrite bool_decide_eq_true_2 by (rewrite Hh; eauto).
  cbn [orb negb]. rewrite Nat2Z.id, Hpg. cbv zeta.
  assert (Hin : to_int (index_in_archive pg) = index_in_archive pg)
    by (apply to_int_id; unfold in_int; lia).
  destruct (must_rewind s (index_in_archive pg)) eqn:Hrw.
  - cbn [rewind archive_handle current_entry archive_path entries rewinds].
    unfold open_stream. rewrite Hdisk.
    rewrite (walk_reaches es (-1) (index_in_archive pg) e);
      [|lia|lia|by replace (index_in_archive pg - -1 - 1) with (index_in_archive pg) by lia].
    eexists. split; [reflexivity|].
    unfold positioned.
    cbn [archive_handle current_entry archive_path entries].
    repeat split; try done; try lia; try (do 2 f_equal; lia).
  - unfold must_rewind in Hrw. rewrite Hin in Hrw.
    apply orb_false_iff in Hrw as [Hgt Hs].
    rewrite Z.gtb_ltb, Z.ltb_ge in Hgt. apply Z.eqb_neq in Hs.
    rewrite Hh.
    rewrite (walk_reaches _ (current_entry s) (index_in_archive pg) e);
      [|lia|lia|].
    + eexists. split; [reflexivity|].
      unfold positioned.
      cbn [archive_handle current_entry archive_path entries].
      repeat split; try done; try lia;
        try (rewrite drop_drop; do 2 f_equal; lia).
    + rewrite lookup_drop. rewrite <- He. f_equal. lia.
Qed.

End Reading.


(** *** What [open] establishes *)

Lemma open_positioned (sg : bool) (disk : string -> option (list ArchiveEntry))
    (path : string) (es : list ArchiveEntry) (s0 s : t) (ok : bool) :
  disk path = Some es ->
  open sg disk path s0 = Some (ok, s) ->
  positioned disk es s
  /\ current_entry s = -1
  /\ rewinds s = rewinds s0
  /\ Permutation (index_entries es 0) (entries s)
  /\ (ok = true <-> entries s <> []).
Proof.
  intros Hdisk Hopen. unfold open in Hopen. rewrite Hdisk in Hopen.
  destruct (StdSort.sort _ _) as [sorted|] eqn:Hsort; [|discriminate].
  cbn in Hopen. inversion Hopen; subst; clear Hopen.
  unfold positioned, open_stream.
  cbn [archive_handle archive_path current_entry entries rewinds close].
  rewrite Hdisk. repeat split; try done; try lia.
  - by apply sort_perm in Hsort.
  - by destruct sorted.
  - by destruct sorted.
Qed.

Lemma read_data_well_formed (e : ArchiveEntry) (bs : list byte) :
  well_formed e bs -> read_data e = bs.
Proof.
  intros [Hd Hl]. unfold read_data. rewrite Hd, <- Hl.
  rewrite firstn_all, Nat.sub_diag. apply app_nil_r.
Qed.

(** Every page of the index names an entry of the archive, and no two
    pages name the same one. *)
Lemma indexed_pages (sg : bool) (disk : string -> option (list ArchiveEntry))
    (path : string) (es : list ArchiveEntry) (s0 s : t) (ok : bool) :
  disk path = Some es ->
  Z.of_nat (length es) < 2 ^ 31 ->
  open sg disk path s0 = Some (ok, s) ->
  (forall i pg, entries s !! i = Some pg ->
     0 <= index_in_archive pg
     /\ exists e, es !! Z.to_nat (index_in_archive pg) = Some e
                  /\ entry_pathname e = name pg)
  /\ (forall i j pi pj, entries s !! i = Some pi -> entries s !! j = Some pj ->
        index_in_archive pi = index_in_archive pj -> i = j).
Proof.
  intros Hdisk Hsmall Hopen.
  destruct (open_positioned _ _ _ _ _ _ _ Hdisk Hopen)
    as (_ & _ & _ & Hperm & _).
  split.
  - intros i pg Hpg.
    assert (Hin : In pg (index_entries es 0)).
    { apply (Permutation_in _ (Permutation_sym Hperm)).
      apply list_elem_of_In, list_elem_of_lookup. eauto. }
    apply index_entries_lookup in Hin as [Hr [e [He Hn]]]; [|lia|lia].
    split; [lia|]. exists e. by rewrite Z.sub_0_r in He.
  - intros i j pi pj Hi Hj Heq.
    assert (Hnd : NoDup (map index_in_archive (entries s))).
    { rewrite <- Hperm. apply index_entries_NoDup; lia. }
    apply (NoDup_lookup _ i j (index_in_archive pi) Hnd).
    + change map with (@fmap list _) . by rewrite list_lookup_fmap, Hi.
    + change map with (@fmap list _). by rewrite list_lookup_fmap, Hj, Heq.
Qed.

(** Two sessions opened on the same archive have the same index. *)
Lemma open_same_entries (sg : bool)
    (disk : string -> option (list ArchiveEntry)) (path : string)
    (s0 s0' s s' : t) (ok ok' : bool) :
  open sg disk path s0 = Some (ok, s) ->
  open sg disk path s0' = Some (ok', s') ->
  entries s = entries s'.
Proof.
  unfold open. intros H H'.
  destruct (disk path) as [es|].
  - destruct (StdSort.sort _ _) as [sorted|]; [|discriminate].
    cbn in H, H'. by inversion H; inversion H'.
  - by inversion H; inversion H'.
Qed.

(** C1. Let an archive of fewer than [2^31] entries, all with well-formed
    payloads, be opened and have at least six pages. Reading page 5 and
    then page 1 in one session returns for page 1 exactly the bytes that
    reading page 1 returns in a freshly opened session of the same
    archive: the payload of the entry that ordinal 1 stands for. *)
Theorem read_page_rewind_idempotent (sg : bool)
    (disk : string -> option (list ArchiveEntry)) (path : string)
    (es : list ArchiveEntry) (s0 s0' s fresh : t) :
  disk path = Some es ->
  Z.of_nat (length es) < 2 ^ 31 ->
  well_formed_archive es ->
  open sg disk path s0 = Some (true, s) ->
  open sg disk path s0' = Some (true, fresh) ->
  6 <= page_count s ->
  fst (read_page disk 1 (snd (read_page disk 5 s)))
  = fst (read_page disk 1 fresh)
  /\ exists pg e bs,
       entries s !! 1%nat = Some pg
       /\ es !! Z.to_nat (index_in_archive pg) = Some e
       /\ entry_pathname e = name pg
       /\ well_formed e bs
       /\ fst (read_page disk 1 fresh) = bs.
Proof.
  intros Hdisk Hsmall Hwf Hopen Hfresh Hcount.
  destruct (open_positioned _ _ _ _ _ _ _ Hdisk Hopen)
    as (Hpos & Hcur & _ & _ & _).
  destruct (open_positioned _ _ _ _ _ _ _ Hdisk Hfresh)
    as (Hposf & Hcurf & _ & _ & _).
  pose proof (open_same_entries _ _ _ _ _ _ _ _ _ Hopen Hfresh) as Hsame.
  destruct (indexed_pages _ _ _ _ _ _ _ Hdisk Hsmall Hopen) as [Hidx Hinj].
  unfold page_count in Hcount.
  destruct (lookup_lt_is_Some_2 (entries s) 1) as [p1 Hp1]; [lia|].
  destruct (lookup_lt_is_Some_2 (entries s) 5) as [p5 Hp5]; [lia|].
  destruct (Hidx _ _ Hp1) as (H1 & e1 & He1 & Hn1).
  destruct (Hidx _ _ Hp5) as (H5 & e5 & He5 & Hn5).
  destruct (Forall_lookup_1 _ _ _ _ Hwf He1) as [bs Hbs].
  destruct (read_page_reaches disk es Hsmall s 5 p5 e5)
    as (s5 & Hr5 & Hpos5 & Hcur5 & Hent5); try done; [lia|].
  destruct (read_page_reaches disk es Hsmall fresh 1 p1 e1)
    as (s1 & Hr1 & _); try done; [by rewrite <- Hsame|lia|].
  destruct (read_page_reaches disk es Hsmall s5 1 p1 e1)
    as (s51 & Hr51 & _); try done.
  { by rewrite Hent5. }
  { rewrite Hcur5. intros Heq.
    by pose proof (Hinj _ _ _ _ Hp5 Hp1 Heq). }
  change (Z.of_nat 5) with 5 in Hr5. change (Z.of_nat 1) with 1 in Hr1, Hr51.
  rewrite Hr5. cbn [snd]. rewrite Hr51, Hr1. cbn [fst].
  split; [done|]. exists p1, e1, bs. repeat split; try done; try apply Hbs.
  by apply read_data_well_formed.
Qed.

Lemma read_page_rewind_idempotent_witness :
  let s := Sample.session "/lib/six.cbz" in
  6 <= page_count s
  /\ fst (read_page Sample.disk 1 (snd (read_page Sample.disk 5 s)))
     = fst (read_page Sample.disk 1 s).
Proof.
  split; [by vm_compute|].
  apply (read_page_rewind_idempotent true Sample.disk "/lib/six.cbz"
           Sample.six_cbz initial initial (Sample.session "/lib/six.cbz")
           (Sample.session "/lib/six.cbz")).
  - reflexivity.
  - reflexivity.
  - unfold well_formed_archive, Sample.six_cbz, well_formed.
    repeat constructor; by eexists.
  - reflexivity.
  - reflexivity.
  - by vm_compute.
Defined.

(** *** When [read_page] rewinds *)

(** C5 (amended). For an ordinal within the index of an open session,
    [read_page] runs its rewind block exactly when the cursor is beyond the
    target stream position or holds the sentinel [-1]; in every other case
    the stream is left as it stands. At the sentinel the rewind always
    runs. *)
Theorem read_page_rewinds (disk : string -> option (list ArchiveEntry))
    (s : t) (page_idx : Z) (pg : PageEntry) :
  is_Some (archive_handle s) ->
  0 <= page_idx ->
  entries s !! Z.to_nat page_idx = Some pg ->
  let s' := snd (read_page disk page_idx s) in
  let target := to_int (index_in_archive pg) in
  (rewinds s' = S (rewinds s) <-> current_entry s > target \/ current_entry s = -1)
  /\ (rewinds s' = rewinds s <-> ~ (current_entry s > target \/ current_entry s = -1))
  /\ (current_entry s = -1 -> rewinds s' = S (rewinds s)).
Proof.
  intros Hh Hi Hpg s' target.
  pose proof (lookup_lt_Some _ _ _ Hpg) as Hlt.
  assert (Hcases :
    (current_entry s > target \/ current_entry s = -1) /\ rewinds s' = S (rewinds s)
    \/ ~ (current_entry s > target \/ current_entry s = -1) /\ rewinds s' = rewinds s).
  { subst s'. unfold read_page.
    rewrite (proj2 (Z.leb_gt _ _)) by lia.
    rewrite bool_decide_eq_true_2 by done.
    cbn [orb negb]. rewrite Hpg. cbv zeta.
    destruct (must_rewind s (index_in_archive pg)) eqn:Hrw;
      unfold must_rewind in Hrw; fold target in Hrw.
    - left. split.
      + apply orb_true_iff in Hrw as [H|H]; [left|right]; lia.
      + cbn [rewind archive_handle current_entry rewinds].
        by destruct (walk _ _ _) as [? [? ?]].
    - right. split.
      + apply orb_false_iff in Hrw as [H1 H2]. lia.
      + by destruct (walk _ _ _) as [? [? ?]]. }
  destruct Hcases as [[Hc Hr]|[Hc Hr]]; rewrite Hr.
  - split; [tauto|]. split; [|done]. split; [lia|tauto].
  - split; [|split; [tauto|]].
    + split; [lia|tauto].
    + intros Hs. tauto.
Qed.

Lemma read_page_rewinds_witness :
  let s := Sample.session "/lib/six.cbz" in
  rewinds (snd (read_page Sample.disk 0 s)) = S (rewinds s)
  <-> current_entry s > to_int 3 \/ current_entry s = -1.
Proof.
  apply (read_page_rewinds Sample.disk (Sample.session "/lib/six.cbz") 0
           (mk_page "p1.png" 3)).
  - by eexists.
  - lia.
  - reflexivity.
Defined.

(** A session that has consumed nothing rewinds although its cursor does
    not lie beyond the target: the rule "rewind exactly when cursor >
    target" fails at the sentinel. *)
Lemma read_page_rewinds_at_sentinel :
  let s := Sample.session "/lib/six.cbz" in
  current_entry s = -1
  /\ entries s !! 0%nat = Some (mk_page "p1.png" 3)
  /\ ~ (rewinds (snd (read_page Sample.disk 0 s)) = S (rewinds s)
        <-> current_entry s > to_int 3).
Proof.
  split; [reflexivity|]. split; [reflexivity|].
  intros [H _]. specialize (H eq_refl). vm_compute in H. discriminate.
Qed.


(** *** The natural order of the index *)

(** C8. An archive whose entries are named page2.jpg, page10.jpg and
    page1.jpg, in this stream order, is indexed as page1.jpg, page2.jpg,
    page10.jpg. This is what [open] computes, and it is the only
    arrangement of the three pages that the comparator accepts as sorted.
    The comparator puts page2.jpg before page10.jpg, where a comparison
    character by character puts it after; in general, two names that
    agree up to a run of digits are ordered by the values of the two
    runs. *)
Theorem natural_order_of_pages (sg : bool)
    (disk : string -> option (list ArchiveEntry)) (path : string)
    (e0 e1 e2 : ArchiveEntry) (s0 : t) :
  disk path = Some [e0; e1; e2] ->
  entry_pathname e0 = "page2.jpg"%string ->
  entry_pathname e1 = "page10.jpg"%string ->
  entry_pathname e2 = "page1.jpg"%string ->
  (exists s, open sg disk path s0 = Some (true, s)
             /\ entries s = Sample.pages_in_order
             /\ map name (entries s)
                = ["page1.jpg"; "page2.jpg"; "page10.jpg"]%string)
  /\ (forall l, Permutation (index_entries [e0; e1; e2] 0) l ->
                StdSort.ordered (page_less sg) l ->
                l = Sample.pages_in_order)
  /\ NaturalSort.natural_sort_compare sg "page2.jpg" "page10.jpg" = Some true
  /\ NaturalSort.natural_sort_compare sg "page10.jpg" "page2.jpg" = Some false
  /\ NaturalSort.lexicographic_lt (list_ascii_of_string "page2.jpg")
                                  (list_ascii_of_string "page10.jpg") = false
  /\ (forall (p da db ra rb : list ascii) (na nb : Z),
        Forall (fun c => NaturalSort.isdigit c = false) p ->
        da <> [] -> db <> [] ->
        Forall (fun c => NaturalSort.isdigit c = true) da ->
        Forall (fun c => NaturalSort.isdigit c = true) db ->
        NaturalSort.starts_without_digit ra ->
        NaturalSort.starts_without_digit rb ->
        NaturalSort.stoll da = Some na -> NaturalSort.stoll db = Some nb ->
        na <> nb ->
        NaturalSort.natural_sort_compare sg
          (string_of_list_ascii (p ++ da ++ ra))
          (string_of_list_ascii (p ++ db ++ rb))
        = Some (na <? nb)).
Proof.
  intros Hdisk H0 H1 H2.
  destruct e0 as [n0 z0 d0], e1 as [n1 z1 d1], e2 as [n2 z2 d2].
  cbn in H0, H1, H2. subst n0 n1 n2.
  split; [|split; [|repeat split; try done;
                    apply NaturalSortFacts.natural_sort_compare_digit_runs]].
  - eexists. unfold open. rewrite Hdisk.
    split; [by vm_compute|]. by split.
  - intros l Hperm Hord.
    assert (Hidx : index_entries
                     [mk_entry "page2.jpg" z0 d0; mk_entry "page10.jpg" z1 d1;
                      mk_entry "page1.jpg" z2 d2] 0
                   = [mk_page "page2.jpg" 0; mk_page "page10.jpg" 1;
                      mk_page "page1.jpg" 2]) by reflexivity.
    rewrite Hidx in Hperm. clear Hidx.
    assert (Hnd : NoDup l).
    { rewrite <- Hperm.
      apply (NoDup_fmap_1 index_in_archive).
      apply (bool_decide_unpack _). by vm_compute. }
    apply Permutation_sym in Hperm.
    pose proof (Permutation_length Hperm) as Hlen.
    destruct l as [|x [|y [|z [|]]]]; try discriminate.
    assert (Hx := Permutation_in x Hperm (or_introl eq_refl)).
    assert (Hy := Permutation_in y Hperm (or_intror (or_introl eq_refl))).
    assert (Hz := Permutation_in z Hperm
                    (or_intror (or_intror (or_introl eq_refl)))).
    pose proof (Hord 0%nat 1%nat x y ltac:(lia) eq_refl eq_refl) as Hxy.
    pose proof (Hord 1%nat 2%nat y z ltac:(lia) eq_refl eq_refl) as Hyz.
    apply NoDup_cons in Hnd as [Hxn Hnd]. apply NoDup_cons in Hnd as [Hyn _].
    assert (Hxy' : x <> y) by (intros ->; apply Hxn; constructor).
    assert (Hxz' : x <> z) by (intros ->; apply Hxn; do 2 constructor).
    assert (Hyz' : y <> z) by (intros ->; apply Hyn; constructor).
    clear Hperm Hord Hlen Hxn Hyn.
    destruct Hx as [<-|[<-|[<-|[]]]], Hy as [<-|[<-|[<-|[]]]],
             Hz as [<-|[<-|[<-|[]]]];
      try reflexivity; try done;
      vm_compute in Hxy, Hyz; discriminate.
Qed.

Lemma natural_order_of_pages_witness :
  exists s, open true Sample.disk "/lib/pages.cbz" initial = Some (true, s)
            /\ entries s = Sample.pages_in_order
            /\ map name (entries s)
               = ["page1.jpg"; "page2.jpg"; "page10.jpg"]%string.
Proof.
  apply (natural_order_of_pages true Sample.disk "/lib/pages.cbz"
           (Sample.page "page2.jpg" 2) (Sample.page "page10.jpg" 10)
           (Sample.page "page1.jpg" 1) initial); reflexivity.
Defined.

End ArchiveFacts.

(** * Properties of the Kitty renderer *)

Module KittyFacts.
Import Kitty.

(** *** Pan clamping and cropping *)

(** One axis: the clamped pan lies in [[-max_pan, 0]], and the crop starts
    at its magnitude and ends within the scaled image. *)
Lemma axis_clamped (scaled target pan : Z) :
  0 <= scaled < 2 ^ 31 -> 0 <= target < 2 ^ 31 -> in_int pan ->
  let p := clamp_pan pan scaled target in
  let origin := crop_origin p in
  let extent := crop_extent scaled target origin in
  max_pan scaled target = Z.max 0 (scaled - target)
  /\ - max_pan scaled target <= p <= 0
  /\ origin = Z.abs p
  /\ extent = Z.min (scaled - Z.abs p) target
  /\ 0 <= origin /\ 0 <= extent /\ origin + extent <= scaled.
Proof.
  intros Hs Ht Hp. cbv zeta.
  unfold clamp_pan, crop_origin, crop_extent, max_pan, clamp.
  rewrite (int_sub_id scaled target) by int_range.
  rewrite int_neg_id by int_range.
  destruct (Z.ltb_spec pan (- Z.max 0 (scaled - target)));
    [|destruct (Z.ltb_spec 0 pan)];
    int_simpl; lia.
Qed.

(** C2. Let the scaled image be [new_w] by [new_h] pixels, with a buffer
    of [new_w * new_h * 3] bytes whose size fits an [int], and let the
    target area be [target_w] by [target_h]. For every requested pan, each
    axis is clamped into [[-max_pan, 0]] with
    [max_pan = max 0 (scaled - target)], the crop rectangle starts at
    [(|pan_x|, |pan_y|)], has size [min (new_w - |pan_x|) target_w] by
    [min (new_h - |pan_y|) target_h], lies within the scaled image, and
    every byte the cropping loops read or write is inside its buffer. The
    scaled size is arbitrary, so this holds for every source image and
    every zoom factor. *)
Theorem crop_within_scaled_image
    (new_w new_h target_w target_h pan_x pan_y : Z) :
  0 <= new_w < 2 ^ 31 -> 0 <= new_h < 2 ^ 31 ->
  new_w * new_h * 3 < 2 ^ 31 ->
  0 <= target_w < 2 ^ 31 -> 0 <= target_h < 2 ^ 31 ->
  in_int pan_x -> in_int pan_y ->
  let px := clamp_pan pan_x new_w target_w in
  let py := clamp_pan pan_y new_h target_h in
  let crop_x := crop_origin px in
  let crop_y := crop_origin py in
  let crop_w := crop_extent new_w target_w crop_x in
  let crop_h := crop_extent new_h target_h crop_y in
  (- Z.max 0 (new_w - target_w) <= px <= 0
   /\ - Z.max 0 (new_h - target_h) <= py <= 0)
  /\ (crop_x = Z.abs px /\ crop_y = Z.abs py
      /\ crop_w = Z.min (new_w - Z.abs px) target_w
      /\ crop_h = Z.min (new_h - Z.abs py) target_h)
  /\ (0 <= crop_x /\ 0 <= crop_w /\ crop_x + crop_w <= new_w
      /\ 0 <= crop_y /\ 0 <= crop_h /\ crop_y + crop_h <= new_h)
  /\ forall x y, 0 <= x < crop_w -> 0 <= y < crop_h ->
       src_idx new_w crop_x crop_y x y
         = ((crop_y + y) * new_w + (crop_x + x)) * 3
       /\ 0 <= src_idx new_w crop_x crop_y x y
       /\ src_idx new_w crop_x crop_y x y + 2 < new_w * new_h * 3
       /\ dst_idx crop_w x y = (y * crop_w + x) * 3
       /\ 0 <= dst_idx crop_w x y
       /\ dst_idx crop_w x y + 2 < crop_w * crop_h * 3.
Proof.
  intros Hw Hh Hsz Htw Hth Hpx Hpy. cbv zeta.
  destruct (axis_clamped new_w target_w pan_x Hw Htw Hpx)
    as (Hmx & Hrx & Hox & Hex & Hx0 & Hxe & Hxs).
  destruct (axis_clamped new_h target_h pan_y Hh Hth Hpy)
    as (Hmy & Hry & Hoy & Hey & Hy0 & Hye & Hys).
  cbv zeta in *. rewrite Hmx in Hrx. rewrite Hmy in Hry.
  set (cx := crop_origin (clamp_pan pan_x new_w target_w)) in *.
  set (cy := crop_origin (clamp_pan pan_y new_h target_h)) in *.
  set (cw := crop_extent new_w target_w cx) in *.
  set (ch := crop_extent new_h target_h cy) in *.
  split; [done|]. split; [done|]. split; [done|].
  intros x y Hx Hy.
  assert (Hrow1 : (cy + y) * new_w <= (new_h - 1) * new_w)
    by (apply Z.mul_le_mono_nonneg_r; lia).
  assert (Hrow0 : 0 <= (cy + y) * new_w) by (apply Z.mul_nonneg_nonneg; lia).
  assert (Hdst1 : y * cw <= (ch - 1) * cw)
    by (apply Z.mul_le_mono_nonneg_r; lia).
  assert (Hdst0 : 0 <= y * cw) by (apply Z.mul_nonneg_nonneg; lia).
  assert (Hcwch : cw * ch <= new_w * new_h)
    by (apply Z.mul_le_mono_nonneg; lia).
  unfold src_idx, dst_idx.
  rewrite (int_add_id cy y) by int_range.
  rewrite (int_add_id cx x) by int_range.
  rewrite (int_mul_id (cy + y) new_w) by int_range.
  rewrite (int_add_id ((cy + y) * new_w)) by int_range.
  rewrite (int_mul_id _ 3) by int_range.
  rewrite (int_mul_id y cw) by int_range.
  rewrite (int_add_id (y * cw)) by int_range.
  rewrite (int_mul_id _ 3) by int_range.
  repeat split; lia.
Qed.


Lemma crop_within_scaled_image_witness :
  - Z.max 0 (60 - 40) <= clamp_pan (-100) 60 40 <= 0
  /\ - Z.max 0 (45 - 30) <= clamp_pan 7 45 30 <= 0.
Proof.
  apply (crop_within_scaled_image 60 45 40 30 (-100) 7);
    unfold in_int; lia.
Defined.

(** The cropped buffer has the size it was allocated with. *)
Lemma put_length (buf : list byte) (i : Z) (v : byte) :
  length (put buf i v) = length buf.
Proof. unfold put. destruct (i <? 0); [done|apply length_insert]. Qed.

Lemma crop_pixels_length (resized : list byte)
    (new_w crop_x crop_y crop_w crop_h : Z) :
  length (crop_pixels resized new_w crop_x crop_y crop_w crop_h)
  = Z.to_nat (int_mul (int_mul crop_w crop_h) 3).
Proof.
  unfold crop_pixels.
  assert (Hinit : length (vector_of (int_mul (int_mul crop_w crop_h) 3) [])
                  = Z.to_nat (int_mul (int_mul crop_w crop_h) 3)).
  { unfold vector_of. rewrite length_app, length_take, length_replicate.
    cbn [length]. lia. }
  revert Hinit. generalize (vector_of (int_mul (int_mul crop_w crop_h) 3) []).
  generalize (Z.to_nat (int_mul (int_mul crop_w crop_h) 3)).
  intros n buf. revert buf.
  induction (seqZ 0 crop_h) as [|y ys IHy]; intros buf Hbuf; [done|].
  cbn [foldl]. apply IHy.
  clear IHy. revert buf Hbuf.
  induction (seqZ 0 crop_w) as [|x xs IHx]; intros buf Hbuf; [done|].
  cbn [foldl]. apply IHx. unfold copy_pixel. by rewrite !put_length.
Qed.

(** *** Chunked transmission *)

Section Transmission.

Variables crop_w crop_h cols_needed rows_needed : Z.
Variable b64 : list ascii.

Local Abbreviation send := (send_chunks crop_w crop_h cols_needed rows_needed b64).

Lemma send_chunks_done (offset : nat) :
  (length b64 <= offset)%nat -> send offset = [].
Proof.
  intros H. rewrite send_chunks_equation_1.
  destruct (decide _); [lia|]. reflexivity.
Qed.

Lemma send_chunks_more (offset : nat) :
  (offset < length b64)%nat ->
  send offset
  = KittyFrame
      (header crop_w crop_h cols_needed rows_needed offset (is_last b64 offset))
      (take (this_chunk b64 offset) (drop offset b64))
    :: send (offset + this_chunk b64 offset).
Proof.
  intros H. rewrite send_chunks_equation_1.
  destruct (decide _); [|lia]. apply send_chunks_clause_1_equation_1.
Qed.

(** Everything about the frames sent from [offset] on. *)
Lemma send_chunks_from (k : nat) :
  forall offset, (length b64 - offset = k)%nat -> (offset <= length b64)%nat ->
  let frames := send offset in
  Z.of_nat (length frames) = (Z.of_nat k + 4095) / 4096
  /\ concat (map payload_of frames) = drop offset b64
  /\ Forall (fun f => (0 < length (payload_of f) <= chunk_sz)%nat) frames
  /\ (forall i f, frames !! i = Some f ->
        flag_of f = Some (expected_flag (length frames) i))
  /\ ((0 < offset)%nat -> Forall continues frames).
Proof.
  induction k as [k IH] using lt_wf_ind. intros offset Hk Hle. cbv zeta.
  destruct (decide (offset < length b64)%nat) as [Hlt|Hge].
  2:{ rewrite send_chunks_done by lia.
      assert (k = 0%nat) as -> by lia. cbn.
      rewrite drop_ge by lia. repeat split; try done. }
  rewrite send_chunks_more by done.
  set (c := this_chunk b64 offset).
  assert (Hc : c = Nat.min chunk_sz k) by (subst c; unfold this_chunk; by rewrite Hk).
  assert (Hc0 : (0 < c <= chunk_sz)%nat) by (unfold chunk_sz in *; lia).
  destruct (IH (k - c)%nat ltac:(lia) (offset + c)%nat ltac:(lia) ltac:(lia))
    as (Hlen & Hcat & Hsz & Hflag & Hcont).
  cbv zeta in *. set (rest := send (offset + c)) in *.
  assert (Hchunk : length (take c (drop offset b64)) = c).
  { rewrite length_take, length_drop. lia. }
  assert (Hlast : is_last b64 offset = bool_decide (rest = [])).
  { unfold is_last. fold c.
    destruct (Nat.leb_spec (length b64) (offset + c)) as [H|H].
    - subst rest. rewrite send_chunks_done by lia. done.
    - subst rest. rewrite send_chunks_more by lia. done. }
  split; [|split; [|split; [|split]]].
  - cbn [length]. rewrite Nat2Z.inj_succ, Hlen. unfold chunk_sz in *.
    destruct (decide (k <= 4096)%nat).
    + replace (k - c)%nat with 0%nat by lia. cbn.
      Z.div_mod_to_equations. lia.
    + replace (Z.of_nat (k - c)) with (Z.of_nat k - 4096) by lia.
      Z.div_mod_to_equations. lia.
  - cbn [map concat payload_of]. rewrite Hcat.
    rewrite <- drop_drop. apply take_drop.
  - constructor; [|done]. cbn [payload_of]. rewrite Hchunk. done.
  - intros [|i] f Hf; cbn in Hf.
    + inversion Hf; subst f. unfold header, expected_flag. cbn [length].
      rewrite Hlast.
      destruct rest; destruct (offset =? 0)%nat; cbn; done.
    + rewrite (Hflag i f Hf). unfold expected_flag. cbn [length].
      f_equal. repeat case_bool_decide; (done || lia).
  - intros Hpos. constructor; [|apply Hcont; lia].
    unfold header. destruct (Nat.eqb_spec offset 0); [lia|].
    by eexists _, _.
Qed.

End Transmission.


(** The number of cells is the quotient rounded up. *)
Lemma cells_needed_ceil (crop cell : Z) :
  0 <= crop -> 0 < cell -> crop + cell < 2 ^ 31 ->
  cells_needed crop cell = (crop + cell - 1) / cell
  /\ (cells_needed crop cell - 1) * cell < crop <= cells_needed crop cell * cell.
Proof.
  intros Hc Hcell Hsum. unfold cells_needed.
  rewrite int_add_id by int_range. rewrite int_sub_id by int_range.
  rewrite int_div_pos by lia.
  split; [reflexivity|].
  pose proof (Z.div_mod (crop + cell - 1) cell ltac:(lia)) as Hdm.
  pose proof (Z.mod_pos_bound (crop + cell - 1) cell Hcell) as Hmod.
  set (q := (crop + cell - 1) / cell) in *.
  set (m := (crop + cell - 1) mod cell) in *.
  split; nia.
Qed.

(** For every non-empty base64 payload of [L] characters the
    transmission loop sends exactly [ceil (L / 4096)] frames; their
    payloads are the consecutive pieces of the payload, none empty and
    none longer than 4096 characters; the continuation flag is 1 on every
    frame but the last, where it is 0. The first frame, and only the
    first, has the long header with the pixel size of the crop and the
    numbers of cells it was given, and these numbers, as [render_kitty]
    computes them, are the crop size divided by the cell size and rounded
    up. *)
Lemma send_chunks_sound (crop_w crop_h char_w char_h : Z)
    (b64 : list ascii) :
  b64 <> [] ->
  0 <= crop_w -> 0 <= crop_h -> 0 < char_w -> 0 < char_h ->
  crop_w + char_w < 2 ^ 31 -> crop_h + char_h < 2 ^ 31 ->
  let cols_needed := cells_needed crop_w char_w in
  let rows_needed := cells_needed crop_h char_h in
  let frames := send_chunks crop_w crop_h cols_needed rows_needed b64 0 in
  Z.of_nat (length frames) = (Z.of_nat (length b64) + 4095) / 4096
  /\ concat (map payload_of frames) = b64
  /\ Forall (fun f => (0 < length (payload_of f) <= 4096)%nat) frames
  /\ (forall i f, frames !! i = Some f ->
        flag_of f = Some (if bool_decide (S i = length frames) then 0 else 1))
  /\ (exists m p rest,
        frames
        = KittyFrame (FirstChunk crop_w crop_h cols_needed rows_needed m) p
          :: rest
        /\ Forall continues rest)
  /\ ((cols_needed - 1) * char_w < crop_w <= cols_needed * char_w)
  /\ ((rows_needed - 1) * char_h < crop_h <= rows_needed * char_h).
Proof.
  intros Hne Hcw Hch Hw Hh Hsw Hsh. cbv zeta.
  set (cn := cells_needed crop_w char_w).
  set (rn := cells_needed crop_h char_h).
  destruct (send_chunks_from crop_w crop_h cn rn b64 (length b64) 0%nat
              ltac:(lia) ltac:(lia)) as (Hlen & Hcat & Hsz & Hflag & _).
  cbv zeta in *.
  assert (Hpos : (0 < length b64)%nat) by (destruct b64; [done|cbn; lia]).
  split; [done|]. split; [done|]. split; [done|]. split; [done|].
  split; [|split; [apply cells_needed_ceil | apply cells_needed_ceil]; lia].
  rewrite send_chunks_more by done. cbn [header Nat.eqb].
  eexists _, _, _. split; [reflexivity|].
  destruct (send_chunks_from crop_w crop_h cn rn b64
              (length b64 - this_chunk b64 0)%nat (0 + this_chunk b64 0)%nat)
    as (_ & _ & _ & _ & Hcont).
  - unfold this_chunk, chunk_sz. lia.
  - unfold this_chunk, chunk_sz. lia.
  - apply Hcont. unfold this_chunk, chunk_sz. lia.
Qed.


End KittyFacts.

(** * Properties of the reader *)

Module ComicFacts.
Import ComicReader.

Example open_six_viewing :
  viewing_comic (Sample.opened default_config ∅ 3) = true.
Proof. by vm_compute. Qed.

Example open_six_first_page :
  current_page (Sample.opened default_config ∅ 3) = 0.
Proof. by vm_compute. Qed.

Example open_six_cache :
  dom (page_cache (Sample.opened default_config ∅ 3)) = {[0; 1]}.
Proof. by vm_compute. Qed.

Example open_broken_stays :
  viewing_comic (Sample.opened default_config ∅ 1) = false.
Proof. by vm_compute. Qed.


(** *** The page cache *)

Lemma far_from_spec (page_idx idx : Z) :
  Z.abs page_idx < 2 ^ 30 -> Z.abs idx < 2 ^ 30 ->
  far_from page_idx idx = (Z.abs (idx - page_idx) >? 2).
Proof.
  intros Hp Hi. unfold far_from.
  rewrite int_sub_id by int_range. rewrite int_abs_id by int_range.
  reflexivity.
Qed.

(** Erasing the collected keys keeps exactly the entries that are near. *)
Lemma evict_filter (cache : gmap Z (list byte)) (page_idx : Z) :
  foldr delete cache
    (filter (fun idx => far_from page_idx idx = true)
            (map fst (map_to_list cache)))
  = filter (fun kv => far_from page_idx kv.1 = false) cache.
Proof.
  apply map_eq. intros j. apply option_eq. intros v.
  rewrite lookup_foldr_delete_Some, map_lookup_filter_Some.
  rewrite list_elem_of_filter. cbn [fst].
  split.
  - intros [Hnot Hj]. split; [done|].
    destruct (far_from page_idx j) eqn:Hfar; [|done].
    exfalso. apply Hnot. split; [done|].
    apply list_elem_of_fmap. exists (j, v). split; [done|].
    by apply elem_of_map_to_list.
  - intros [Hj Hnear]. split; [|done]. intros [Hfar _]. congruence.
Qed.

Section Cache.

Variable disk : string -> option (list ArchiveEntry).
Variable F : Type.
Implicit Types r : ComicReader.t F.

Lemma load_page_hit r (page_idx : Z) (cached : list byte) :
  page_cache r !! page_idx = Some cached ->
  load_page disk page_idx r = (cached, r).
Proof. intros H. unfold load_page. by rewrite H. Qed.

Lemma load_page_miss r r' (page_idx : Z) (data : list byte) :
  page_cache r !! page_idx = None ->
  load_page disk page_idx r = (data, r') ->
  data <> [] ->
  page_cache r'
  = <[page_idx := data]>
      (filter (fun kv => far_from page_idx kv.1 = false) (page_cache r)).
Proof.
  intros Hmiss Hload Hdata. unfold load_page in Hload. rewrite Hmiss in Hload.
  destruct (ArchiveReader.read_page _ _ _) as [d a].
  destruct d as [|b d]; inversion Hload; subst; [done|].
  cbn [page_cache set_page_cache set_archive]. by rewrite evict_filter.
Qed.

Lemma load_page_miss_dom r r' (page_idx : Z) (data : list byte) :
  page_cache r !! page_idx = None ->
  load_page disk page_idx r = (data, r') ->
  data <> [] ->
  dom (page_cache r')
  = {[page_idx]} ∪ filter (fun j => far_from page_idx j = false)
                           (dom (page_cache r)).
Proof.
  intros Hmiss Hload Hdata.
  rewrite (load_page_miss r r' page_idx data) by done.
  rewrite dom_insert_L. f_equal.
  apply dom_filter_L. intros j. rewrite elem_of_filter, elem_of_dom.
  unfold is_Some. cbn [fst]. split.
  - intros [Hnear [v Hv]]. by exists v.
  - intros [v [Hv Hnear]]. split; [done|by exists v].
Qed.

(** What a request that misses and loads bytes leaves in the cache. *)
Lemma load_page_miss_lookup r r' (page_idx : Z) (data : list byte) :
  page_cache r !! page_idx = None ->
  load_page disk page_idx r = (data, r') ->
  data <> [] ->
  Z.abs page_idx < 2 ^ 30 ->
  page_cache r' !! page_idx = Some data
  /\ forall j, Z.abs j < 2 ^ 30 -> j <> page_idx ->
       page_cache r' !! j
       = if decide (Z.abs (j - page_idx) <= 2) then page_cache r !! j else None.
Proof.
  intros Hmiss Hload Hdata Hsmall.
  rewrite (load_page_miss r r' page_idx data) by done.
  split; [apply lookup_insert_eq|].
  intros j Hj Hne. rewrite lookup_insert_ne by done.
  rewrite map_lookup_filter. cbn [fst].
  rewrite far_from_spec by done.
  destruct (page_cache r !! j) as [v|]; cbn; [|by case_decide].
  case_decide; case_guard; try done; lia.
Qed.

(** C3. From an empty cache, let the ordinals 0, 1, 2, 3, 4 be requested
    in this order and each request return bytes. After every request the
    cache holds at most five entries, none further than 2 from the ordinal
    just requested, and it holds the bytes just returned; the cached
    ordinals are {0}, {0,1}, {0,1,2}, {1,2,3}, {2,3,4} in turn. In general
    a request that misses and loads bytes inserts them and drops every
    cached ordinal further than 2 away, keeping the others. *)
Theorem cache_window (r0 : ComicReader.t F) :
  page_cache r0 = ∅ ->
  let trace := request_all disk [0; 1; 2; 3; 4] r0 in
  Forall (fun '(k, data, r) => data <> []) trace ->
  Forall (fun '(k, data, r) =>
            (size (page_cache r) <= 5)%nat
            /\ (forall j, j ∈ dom (page_cache r) -> Z.abs (j - k) <= 2)
            /\ page_cache r !! k = Some data) trace
  /\ map (fun '(k, data, r) => dom (page_cache r)) trace
     = [ {[0]}; {[0; 1]}; {[0; 1; 2]}; {[1; 2; 3]}; {[2; 3; 4]} ]
  /\ (forall r r' page_idx data,
        page_cache r !! page_idx = None ->
        load_page disk page_idx r = (data, r') ->
        data <> [] ->
        Z.abs page_idx < 2 ^ 30 ->
        page_cache r' !! page_idx = Some data
        /\ forall j, Z.abs j < 2 ^ 30 -> j <> page_idx ->
             page_cache r' !! j
             = if decide (Z.abs (j - page_idx) <= 2)
               then page_cache r !! j else None).
Proof.
  intros Hempty. cbv zeta. cbn [request_all].
  destruct (load_page disk 0 r0) as [d0 r1] eqn:H0.
  destruct (load_page disk 1 r1) as [d1 r2] eqn:H1.
  destruct (load_page disk 2 r2) as [d2 r3] eqn:H2.
  destruct (load_page disk 3 r3) as [d3 r4] eqn:H3.
  destruct (load_page disk 4 r4) as [d4 r5] eqn:H4.
  intros Hdata.
  apply Forall_cons in Hdata as [Hd0 Hdata].
  apply Forall_cons in Hdata as [Hd1 Hdata].
  apply Forall_cons in Hdata as [Hd2 Hdata].
  apply Forall_cons in Hdata as [Hd3 Hdata].
  apply Forall_cons in Hdata as [Hd4 _].
  assert (M0 : page_cache r0 !! 0 = None) by (by rewrite Hempty).
  assert (D1 : dom (page_cache r1) = {[0]}).
  { rewrite (load_page_miss_dom r0 r1 0 d0) by done.
    rewrite Hempty. by vm_compute. }
  assert (M1 : page_cache r1 !! 1 = None)
    by (apply not_elem_of_dom; rewrite D1; by vm_compute).
  assert (D2 : dom (page_cache r2) = {[0; 1]}).
  { rewrite (load_page_miss_dom r1 r2 1 d1) by done.
    rewrite D1. by vm_compute. }
  assert (M2 : page_cache r2 !! 2 = None)
    by (apply not_elem_of_dom; rewrite D2; by vm_compute).
  assert (D3 : dom (page_cache r3) = {[0; 1; 2]}).
  { rewrite (load_page_miss_dom r2 r3 2 d2) by done.
    rewrite D2. by vm_compute. }
  assert (M3 : page_cache r3 !! 3 = None)
    by (apply not_elem_of_dom; rewrite D3; by vm_compute).
  assert (D4 : dom (page_cache r4) = {[1; 2; 3]}).
  { rewrite (load_page_miss_dom r3 r4 3 d3) by done.
    rewrite D3. by vm_compute. }
  assert (M4 : page_cache r4 !! 4 = None)
    by (apply not_elem_of_dom; rewrite D4; by vm_compute).
  assert (D5 : dom (page_cache r5) = {[2; 3; 4]}).
  { rewrite (load_page_miss_dom r4 r5 4 d4) by done.
    rewrite D4. by vm_compute. }
  assert (Hstep : forall r r' k data (D : gset Z),
            page_cache r !! k = None -> load_page disk k r = (data, r') ->
            data <> [] -> dom (page_cache r') = D ->
            (size D <= 5)%nat -> (forall j, j ∈ D -> Z.abs (j - k) <= 2) ->
            (size (page_cache r') <= 5)%nat
            /\ (forall j, j ∈ dom (page_cache r') -> Z.abs (j - k) <= 2)
            /\ page_cache r' !! k = Some data).
  { intros r r' k data D Hm Hl Hd HD Hsz Hnear.
    rewrite <- size_dom, HD. split; [done|]. split; [done|].
    rewrite (load_page_miss r r' k data) by done. apply lookup_insert_eq. }
  split; [|split; [cbn [map]; by rewrite D1, D2, D3, D4, D5
                  |apply load_page_miss_lookup]].
  repeat apply Forall_cons_2; try apply Forall_nil_2.
  - apply (Hstep r0 r1 0 d0 {[0]}); try done;
      first [vm_compute; lia | intros j Hj; set_unfold; lia].
  - apply (Hstep r1 r2 1 d1 {[0; 1]}); try done;
      first [vm_compute; lia | intros j Hj; set_unfold; lia].
  - apply (Hstep r2 r3 2 d2 {[0; 1; 2]}); try done;
      first [vm_compute; lia | intros j Hj; set_unfold; lia].
  - apply (Hstep r3 r4 3 d3 {[1; 2; 3]}); try done;
      first [vm_compute; lia | intros j Hj; set_unfold; lia].
  - apply (Hstep r4 r5 4 d4 {[2; 3; 4]}); try done;
      first [vm_compute; lia | intros j Hj; set_unfold; lia].
Qed.

(** C9. A request for an ordinal that is in the cache returns the cached
    bytes and changes nothing: neither the cache nor any other member of
    the reader. In particular every cached ordinal stays cached, however
    far it is from the requested one. *)
Theorem load_page_hit_frame (r : ComicReader.t F) (page_idx : Z)
    (cached : list byte) :
  page_cache r !! page_idx = Some cached ->
  load_page disk page_idx r = (cached, r)
  /\ page_cache (snd (load_page disk page_idx r)) = page_cache r
  /\ forall j, far_from page_idx j = true -> j ∈ dom (page_cache r) ->
       j ∈ dom (page_cache (snd (load_page disk page_idx r))).
Proof.
  intros Hhit. rewrite (load_page_hit r page_idx cached Hhit). by cbn.
Qed.

(** *** The cache stays narrow

    A hit leaves distant entries in place whatever the cache holds. In the
    caches that [load_page] itself builds from an empty one there are no
    distant entries: the cached ordinals never span more than the
    radius. *)

Lemma load_page_cases r (page_idx : Z) :
  page_cache (snd (load_page disk page_idx r)) = page_cache r
  \/ (page_cache r !! page_idx = None
      /\ exists data,
           page_cache (snd (load_page disk page_idx r))
           = <[page_idx := data]>
               (filter (fun kv => far_from page_idx kv.1 = false)
                       (page_cache r))).
Proof.
  destruct (page_cache r !! page_idx) as [d|] eqn:Hc.
  - left. by rewrite (load_page_hit r page_idx d).
  - destruct (load_page disk page_idx r) as [data r'] eqn:Hl.
    destruct data as [|b data].
    + left. unfold load_page in Hl. rewrite Hc in Hl.
      destruct (ArchiveReader.read_page _ _ _) as [d a].
      destruct d; by inversion Hl.
    + right. split; [done|]. exists (b :: data).
      by apply (load_page_miss r r' page_idx (b :: data)).
Qed.

Lemma load_page_keeps_narrow r (page_idx : Z) :
  narrow (page_cache r) -> small_keys (page_cache r) ->
  Z.abs page_idx < 2 ^ 30 ->
  narrow (page_cache (snd (load_page disk page_idx r)))
  /\ small_keys (page_cache (snd (load_page disk page_idx r))).
Proof.
  intros Hn Hs Hp.
  destruct (load_page_cases r page_idx) as [->|[_ [data ->]]]; [done|].
  assert (Hdom : forall j,
            j ∈ dom (<[page_idx := data]>
                       (filter (fun kv => far_from page_idx kv.1 = false)
                               (page_cache r))) ->
            j = page_idx
            \/ (j ∈ dom (page_cache r) /\ Z.abs (j - page_idx) <= 2)).
  { intros j Hj. rewrite dom_insert_L in Hj.
    apply elem_of_union in Hj as [Hj|Hj]; [left; set_solver|right].
    apply elem_of_dom in Hj as [v Hv].
    apply map_lookup_filter_Some in Hv as [Hv Hnear]. cbn [fst] in Hnear.
    assert (Hjd : j ∈ dom (page_cache r)) by (apply elem_of_dom; eauto).
    split; [done|].
    rewrite far_from_spec in Hnear by (done || by apply Hs). lia. }
  split.
  - intros j k Hj Hk.
    destruct (Hdom j Hj) as [->|[Hjd Hjn]], (Hdom k Hk) as [->|[Hkd Hkn]];
      try lia.
    by apply Hn.
  - intros j Hj. destruct (Hdom j Hj) as [->|[Hjd _]]; [done|by apply Hs].
Qed.

Lemma request_all_narrow (ks : list Z) :
  forall r, Forall (fun k => Z.abs k < 2 ^ 30) ks ->
  narrow (page_cache r) -> small_keys (page_cache r) ->
  Forall (fun '(k, data, r') => narrow (page_cache r'))
         (request_all disk ks r).
Proof.
  induction ks as [|k ks IH]; intros r Hks Hn Hs; cbn [request_all].
  - constructor.
  - apply Forall_cons in Hks as [Hk Hks].
    destruct (load_page_keeps_narrow r k Hn Hs Hk) as [Hn' Hs'].
    destruct (load_page disk k r) as [data r']. cbn [snd] in *.
    constructor; [done|]. by apply IH.
Qed.

End Cache.


Lemma cache_window_witness :
  map (fun '(k, data, r) => dom (page_cache r))
      (request_all Sample.disk [0; 1; 2; 3; 4] Sample.viewing_six)
  = [ {[0]}; {[0; 1]}; {[0; 1; 2]}; {[1; 2; 3]}; {[2; 3; 4]} ].
Proof.
  destruct (cache_window Sample.disk Z Sample.viewing_six) as (_ & H & _).
  - reflexivity.
  - vm_compute. repeat constructor; discriminate.
  - exact H.
Defined.

Lemma load_page_hit_frame_witness :
  load_page Sample.disk 0 Sample.with_far_entry = ([x01], Sample.with_far_entry)
  /\ 10 ∈ dom (page_cache (snd (load_page Sample.disk 0 Sample.with_far_entry))).
Proof.
  destruct (load_page_hit_frame Sample.disk Z Sample.with_far_entry 0 [x01])
    as (H1 & _ & H3).
  - reflexivity.
  - split; [exact H1|]. apply H3; [reflexivity|].
    apply elem_of_dom. by eexists.
Defined.

(** *** What drawing leaves alone *)

Lemma read_page_entries (disk : string -> option (list ArchiveEntry))
    (page_idx : Z) (a : ArchiveReader.t) :
  ArchiveReader.entries (snd (ArchiveReader.read_page disk page_idx a))
  = ArchiveReader.entries a.
Proof.
  unfold ArchiveReader.read_page.
  destruct (_ || _); [done|].
  destruct (_ !! _) as [pg|]; [|done].
  cbv zeta. destruct (ArchiveReader.must_rewind _ _);
    by destruct (ArchiveReader.walk _ _ _) as [? [? ?]].
Qed.

Lemma clamp_pan_zero (scaled target : Z) : Kitty.clamp_pan 0 scaled target = 0.
Proof.
  unfold Kitty.clamp_pan, Kitty.max_pan, clamp.
  pose proof (to_int_range (scaled - target)) as Hr. unfold in_int in Hr.
  fold (int_sub scaled target) in Hr.
  rewrite int_neg_id by int_range.
  destruct (Z.ltb_spec 0 (- Z.max 0 (int_sub scaled target))); [lia|].
  reflexivity.
Qed.

Section Frames.

Variable disk : string -> option (list ArchiveEntry).
Variable term : TermSize.
Variable F : Type.
Variable is_unzoomed : F -> bool.
Variable scaled_size : Z -> Z -> Z -> Z -> F -> Z * Z.
Variable stbi_load_from_memory : list byte -> option (Z * Z * list byte).
Variable stbir_resize : list byte -> Z -> Z -> Z -> Z -> list byte.
Implicit Types r : ComicReader.t F.

Local Abbreviation draw :=
  (draw_comic_view disk term is_unzoomed scaled_size stbi_load_from_memory
     stbir_resize).

Lemma steady_refl r : steady r r.
Proof. by repeat split. Qed.

Lemma steady_trans r1 r2 r3 : steady r1 r2 -> steady r2 r3 -> steady r1 r3.
Proof.
  unfold steady. intros (?&?&?&?&?&?&?&?&?) (?&?&?&?&?&?&?&?&?).
  repeat split; try congruence; auto.
Qed.

Lemma steady_emit (o : Output) r : steady r (emit o r).
Proof. by repeat split. Qed.

Lemma steady_load_page (page_idx : Z) r :
  steady r (snd (load_page disk page_idx r)).
Proof.
  unfold load_page. destruct (page_cache r !! page_idx); [apply steady_refl|].
  pose proof (read_page_entries disk (to_size_t page_idx) (archive r)) as He.
  destruct (ArchiveReader.read_page _ _ _) as [data a]. cbn [snd] in He.
  assert (Hc : page_count (set_archive a r) = page_count r).
  { unfold page_count, ArchiveReader.page_count. cbn. by rewrite He. }
  destruct data; cbn [snd]; repeat split; try done.
Qed.

Lemma shown_refl r : shown r r.
Proof. by repeat split. Qed.

Lemma shown_trans r1 r2 r3 : shown r1 r2 -> shown r2 r3 -> shown r1 r3.
Proof.
  unfold shown.
  intros (?&?&?&?&?&?&?&?&?&?&?&?&?&?) (?&?&?&?&?&?&?&?&?&?&?&?&?&?).
  repeat split; try congruence; auto.
Qed.

Lemma shown_emit (o : Output) r : shown r (emit o r).
Proof. by repeat split. Qed.

Lemma shown_steady r r' : shown r r' -> steady r r'.
Proof.
  unfold shown, steady, page_count.
  intros (?&?&?&Ha&?&?&?&?&?&?&?&?&?&?). rewrite Ha. by repeat split.
Qed.

(** A renderer that returns has changed the pan and the terminal only. *)
Lemma render_kitty_shown (img : list byte) (col_offset width_px : Z) r r' :
  render_kitty term scaled_size stbi_load_from_memory stbir_resize
    img col_offset width_px r = Some r' ->
  shown r r'.
Proof.
  unfold render_kitty.
  destruct (stbi_load_from_memory img) as [[[w h] pixels]|];
    [|intros [= <-]; apply shown_emit].
  destruct (scaled_size _ _ _ _ _) as [new_w new_h].
  repeat (destruct (_ : bool); [done|]).
  intros [= <-].
  repeat split; try done; cbn; intros ->; apply clamp_pan_zero.
Qed.

Lemma render_ascii_shown (img : list byte) r r' :
  render_ascii term stbi_load_from_memory img r = Some r' -> shown r r'.
Proof.
  unfold render_ascii.
  destruct (stbi_load_from_memory img); [|intros [= <-]; apply shown_emit].
  destruct (_ <? 0); [done|]. intros [= <-]. apply shown_emit.
Qed.

Lemma display_shown (img : list byte) (x_offset width : Z) r r' :
  display_if_loaded term scaled_size stbi_load_from_memory stbir_resize
    img x_offset width r = Some r' ->
  shown r r'.
Proof.
  unfold display_if_loaded, display_image.
  destruct img; [intros [= <-]; apply shown_refl|].
  destruct (_ && _); [done|].
  destruct (render_mode (config r)).
  - apply render_kitty_shown.
  - intros [= <-]. apply shown_emit.
  - apply render_ascii_shown.
Qed.

Lemma steady_display (img : list byte) (x_offset width : Z) r r' :
  display_if_loaded term scaled_size stbi_load_from_memory stbir_resize
    img x_offset width r = Some r' ->
  steady r r'.
Proof. intros H. by apply shown_steady, (display_shown img x_offset width). Qed.

(** What [render_kitty] does with an image that decodes, when it
    returns: the pan is clamped on both axes, the two buffers have sizes
    that are not negative, no cell size is zero, the cursor is placed,
    and the base64 text of the cropped pixels is sent in chunks whose
    first header carries the crop size and the cells it needs. *)
Lemma render_kitty_decoded (img : list byte) (col_offset width_px : Z) r r'
    (w h new_w new_h : Z) (pixels : list byte) :
  let target_w := if width_px >? 0 then width_px else pixel_width term in
  let target_h := int_sub (pixel_height term) 100 in
  stbi_load_from_memory img = Some (w, h, pixels) ->
  scaled_size w h target_w target_h (zoom_level r) = (new_w, new_h) ->
  render_kitty term scaled_size stbi_load_from_memory stbir_resize
    img col_offset width_px r = Some r' ->
  let crop_x := Kitty.crop_origin (pan_x r') in
  let crop_y := Kitty.crop_origin (pan_y r') in
  let crop_w := Kitty.crop_extent new_w target_w crop_x in
  let crop_h := Kitty.crop_extent new_h target_h crop_y in
  let resized :=
    Kitty.vector_of (int_mul (int_mul new_w new_h) 3)
      (stbir_resize pixels w h new_w new_h) in
  let char_w := int_div (pixel_width term) (cols term) in
  let char_h := int_div (pixel_height term) (rows term) in
  pan_x r' = Kitty.clamp_pan (pan_x r) new_w target_w
  /\ pan_y r' = Kitty.clamp_pan (pan_y r) new_h target_h
  /\ 0 <= int_mul (int_mul new_w new_h) 3
  /\ 0 <= int_mul (int_mul crop_w crop_h) 3
  /\ cols term <> 0 /\ rows term <> 0 /\ char_w <> 0 /\ char_h <> 0
  /\ exists row col,
       stdout r'
       = stdout r
         ++ CursorTo row col
            :: Kitty.send_chunks crop_w crop_h
                 (Kitty.cells_needed crop_w char_w)
                 (Kitty.cells_needed crop_h char_h)
                 (Base64.base64_encode
                    (Kitty.crop_pixels resized new_w crop_x crop_y crop_w crop_h))
                 0.
Proof.
  intros target_w target_h Hload Hscale. cbv zeta.
  unfold render_kitty. rewrite Hload. fold target_w target_h. rewrite Hscale.
  cbn [pan_x pan_y set_pan_x set_pan_y].
  destruct (Z.ltb_spec (int_mul (int_mul new_w new_h) 3) 0) as [|Hsz]; [done|].
  destruct (Z.ltb_spec (int_mul (int_mul
              (Kitty.crop_extent new_w target_w
                 (Kitty.crop_origin (Kitty.clamp_pan (pan_x r) new_w target_w)))
              (Kitty.crop_extent new_h target_h
                 (Kitty.crop_origin (Kitty.clamp_pan (pan_y r) new_h target_h))))
              3) 0) as [|Hcrop]; [done|].
  destruct (Z.eqb_spec (cols term) 0) as [|Hcols]; [done|].
  destruct (Z.eqb_spec (rows term) 0) as [|Hrows]; [done|]. cbn [orb].
  destruct (Z.eqb_spec (int_div (pixel_width term) (cols term)) 0)
    as [|Hcw]; [done|].
  destruct (Z.eqb_spec (int_div (pixel_height term) (rows term)) 0)
    as [|Hch]; [done|]. cbn [orb].
  intros [= <-].
  cbn [pan_x pan_y set_pan_x set_pan_y set_stdout emit stdout].
  repeat (split; [done|]).
  eexists _, _. by rewrite <- app_assoc.
Qed.


(** An invariant of the pages shown: it is enough that loading the
    current page or the next one and showing a page keep it. *)
Lemma show_pages_invariant (P : ComicReader.t F -> Prop) :
  (forall r i, P r ->
     i = current_page r \/ i = int_add (current_page r) 1 ->
     P (snd (load_page disk i r))) ->
  (forall img x w r r', P r ->
     display_if_loaded term scaled_size stbi_load_from_memory stbir_resize
       img x w r = Some r' -> P r') ->
  forall r r', P r ->
  show_pages disk term is_unzoomed scaled_size stbi_load_from_memory
    stbir_resize r = Some r' ->
  P r'.
Proof.
  intros Hload Hshow r r' HP. unfold show_pages.
  destruct (_ && _).
  - pose proof (Hload r (current_page r) HP (or_introl eq_refl)) as Ha.
    pose proof (steady_load_page (current_page r) r) as (Hca & _).
    destruct (load_page disk (current_page r) r) as [p1 ra].
    cbn [snd] in Ha, Hca.
    pose proof (Hload ra (int_add (current_page ra) 1) Ha
                  (or_intror eq_refl)) as Hb.
    destruct (load_page disk (int_add (current_page ra) 1) ra) as [p2 rb].
    cbn [snd] in Hb.
    destruct (display_if_loaded _ _ _ _ p1 _ _ rb) as [rc|] eqn:Hc; [|done].
    cbn [mbind option_bind]. intros Hd.
    exact (Hshow _ _ _ _ _ (Hshow _ _ _ _ _ Hb Hc) Hd).
  - pose proof (Hload r (current_page r) HP (or_introl eq_refl)) as Ha.
    destruct (load_page disk (current_page r) r) as [p1 ra].
    cbn [snd] in Ha. intros Hd. exact (Hshow _ _ _ _ _ Ha Hd).
Qed.

(** The stages of a redraw that returns. *)
Lemma draw_stages r r' :
  draw r = Some r' ->
  exists r1,
    show_pages disk term is_unzoomed scaled_size stbi_load_from_memory
      stbir_resize (emit ClearScreen r) = Some r1
    /\ r' = preload_adjacent disk
              (set_progress
                 (<[current_comic_filename r1 := current_page r1]>
                    (progress r1))
                 (emit StatusLine r1)).
Proof.
  unfold draw_comic_view. cbv zeta.
  destruct (show_pages _ _ _ _ _ _ _) as [r1|]; [|done].
  cbn [mbind option_bind]. intros [= <-]. by exists r1.
Qed.

Lemma steady_show_pages r r' :
  show_pages disk term is_unzoomed scaled_size stbi_load_from_memory
    stbir_resize r = Some r' ->
  steady r r'.
Proof.
  apply (show_pages_invariant (fun x => steady r x)).
  - intros x i Hx _. eapply steady_trans; [exact Hx|apply steady_load_page].
  - intros img x w x0 x1 Hx Hd.
    eapply steady_trans; [exact Hx|by apply (steady_display img x w)].
  - apply steady_refl.
Qed.

Lemma steady_preload r : steady r (preload_adjacent disk r).
Proof.
  unfold preload_adjacent. cbv zeta.
  set (r1 := if _ <? _ then _ else r).
  assert (H1 : steady r r1).
  { subst r1. destruct (_ <? _); [apply steady_load_page|apply steady_refl]. }
  apply (steady_trans _ _ _ H1).
  destruct (_ >? _); [apply steady_load_page|apply steady_refl].
Qed.

Lemma steady_draw r r' : draw r = Some r' -> steady r r'.
Proof.
  intros (r1 & H1 & ->)%draw_stages.
  apply (steady_trans _ (emit ClearScreen r)); [apply steady_emit|].
  apply (steady_trans _ r1); [by apply steady_show_pages|].
  apply (steady_trans _ (emit StatusLine r1)); [apply steady_emit|].
  eapply steady_trans; [|apply steady_preload].
  by repeat split.
Qed.

End Frames.



(** *** Paging in the viewing state *)

Section Navigation.

Variable char_is_signed : bool.
Variable disk : string -> option (list ArchiveEntry).
Variable listing : string -> list FileEntry.
Variable term : TermSize.
Variable F : Type.
Variable f_one : F.
Variables (is_unzoomed : F -> bool) (zoom_in zoom_out : F -> F).
Variable scaled_size : Z -> Z -> Z -> Z -> F -> Z * Z.
Variable stbi_load_from_memory : list byte -> option (Z * Z * list byte).
Variable stbir_resize : list byte -> Z -> Z -> Z -> Z -> list byte.
Implicit Types r : ComicReader.t F.

Local Abbreviation body :=
  (run_body char_is_signed disk listing term f_one is_unzoomed zoom_in zoom_out
     scaled_size stbi_load_from_memory stbir_resize).
Local Abbreviation viewing :=
  (view disk term f_one is_unzoomed zoom_in zoom_out scaled_size
     stbi_load_from_memory stbir_resize).
Local Abbreviation draw :=
  (draw_comic_view disk term is_unzoomed scaled_size stbi_load_from_memory
     stbir_resize).

Lemma bound_only_key r (c : ascii) (nm : string) :
  bound_only r c nm = true ->
  is_key r c nm = true /\ Ascii.eqb c ESC = false.
Proof.
  unfold bound_only. intros H.
  apply andb_true_iff in H as [H _]. apply andb_true_iff in H as [H1 H2].
  split; [done|]. by destruct (Ascii.eqb c ESC).
Qed.

Lemma bound_only_other r (c : ascii) (nm o : string) :
  bound_only r c nm = true ->
  existsb (String.eqb o) view_keys = true -> String.eqb o nm = false ->
  is_key r c o = false.
Proof.
  unfold bound_only. intros H Hin Hne.
  apply andb_true_iff in H as [_ H]. rewrite forallb_forall in H.
  apply existsb_exists in Hin as [o' [Hin Ho]].
  apply String.eqb_eq in Ho. subst o'.
  specialize (H o Hin). rewrite Hne in H. cbn in H.
  by destruct (is_key r c o).
Qed.

Ltac other_keys Hb :=
  repeat match goal with
  | |- context [is_key ?r ?c ?o] =>
      rewrite (bound_only_other r c _ o Hb eq_refl eq_refl)
  end;
  cbn [andb orb].

(** Every key of the viewing branch that is handled to the end leads to
    [Continue]. *)
Lemma body_viewing r (c : ascii) (ctl : Control) r' :
  viewing_comic r = true -> body c r = Some (ctl, r') ->
  ctl = Continue /\ viewing c r = Some r'.
Proof.
  intros H. unfold run_body. rewrite H.
  destruct (view _ _ _ _ _ _ _ _ _ _ _) as [r1|]; [|done].
  cbn [mbind option_bind]. by intros [= <- <-].
Qed.

Lemma next_key_pages r (c : ascii) r' :
  bound_only r c "next" = true ->
  - 2 ^ 31 <= current_page r < 2 ^ 31 - 2 ->
  viewing c r = Some r' ->
  current_page r'
  = (if current_page r + page_step r <? page_count r
     then current_page r + page_step r else current_page r)
  /\ page_count r' = page_count r.
Proof.
  intros Hb Hcur.
  destruct (bound_only_key r c _ Hb) as [Hk Hesc].
  assert (Hstep : 1 <= page_step r <= 2)
    by (unfold page_step; destruct (double_page _); lia).
  unfold view. rewrite Hesc, Hk. cbn [andb]. unfold can_advance.
  rewrite int_add_id by int_range.
  destruct (_ <? _) eqn:Hadv.
  - cbn [redraw_if]. intros Hd.
    destruct (steady_draw disk term F is_unzoomed scaled_size
                stbi_load_from_memory stbir_resize (next_page r) r' Hd)
      as (Hp & _ & _ & _ & _ & Hc & _).
    rewrite Hp, Hc. cbn. unfold next_page. cbn.
    by rewrite int_add_id by int_range.
  - other_keys Hb. by intros [= <-].
Qed.

Lemma prev_key_pages r (c : ascii) r' :
  bound_only r c "prev" = true ->
  - 2 ^ 31 <= current_page r < 2 ^ 31 - 2 ->
  viewing c r = Some r' ->
  current_page r'
  = (if current_page r >? 0
     then Z.max 0 (current_page r - page_step r) else current_page r)
  /\ page_count r' = page_count r.
Proof.
  intros Hb Hcur.
  destruct (bound_only_key r c _ Hb) as [Hk Hesc].
  assert (Hstep : 1 <= page_step r <= 2)
    by (unfold page_step; destruct (double_page _); lia).
  unfold view. rewrite Hesc.
  rewrite (bound_only_other r c _ "next" Hb eq_refl eq_refl). cbn [andb].
  rewrite Hk. cbn [andb].
  destruct (Z.gtb_spec (current_page r) 0) as [Hpos|Hzero].
  - cbn [redraw_if]. intros Hd.
    destruct (steady_draw disk term F is_unzoomed scaled_size
                stbi_load_from_memory stbir_resize (prev_page r) r' Hd)
      as (Hp & _ & _ & _ & _ & Hc & _).
    rewrite Hp, Hc. cbn. unfold prev_page. cbn.
    by rewrite int_sub_id by int_range.
  - other_keys Hb. by intros [= <-].
Qed.

Lemma arrow_right_pages r (rest : list ascii) r' :
  stdin r = "["%char :: "C"%char :: rest ->
  - 2 ^ 31 <= current_page r < 2 ^ 31 - 2 ->
  viewing ESC r = Some r' ->
  current_page r'
  = (if current_page r + page_step r <? page_count r
     then current_page r + page_step r else current_page r)
  /\ page_count r' = page_count r.
Proof.
  intros Hin Hcur.
  assert (Hstep : 1 <= page_step r <= 2)
    by (unfold page_step; destruct (double_page _); lia).
  unfold view. rewrite Ascii.eqb_refl.
  unfold view_escape, read_char. rewrite Hin. cbn [stdin set_stdin].
  change (Ascii.eqb "[" "[") with true. change (Ascii.eqb "C" "1") with false.
  change (Ascii.eqb "C" "C") with true. cbv iota. cbn [andb].
  set (r2 := set_stdin rest _).
  assert (H2 : current_page r2 = current_page r /\ page_count r2 = page_count r
               /\ page_step r2 = page_step r) by done.
  destruct H2 as (Hp2 & Hc2 & Hs2).
  unfold can_advance. rewrite Hp2, Hc2, Hs2.
  rewrite int_add_id by int_range.
  destruct (_ <? _) eqn:Hadv; [|by intros [= <-]].
  cbn [redraw_if]. intros Hd.
  destruct (steady_draw disk term F is_unzoomed scaled_size
              stbi_load_from_memory stbir_resize (next_page r2) r' Hd)
    as (Hp & _ & _ & _ & _ & Hc & _).
  rewrite Hp, Hc. unfold next_page. cbn [current_page set_current_page].
  rewrite Hp2, Hs2. by rewrite int_add_id by int_range.
Qed.

Lemma arrow_left_pages r (rest : list ascii) r' :
  stdin r = "["%char :: "D"%char :: rest ->
  - 2 ^ 31 <= current_page r < 2 ^ 31 - 2 ->
  viewing ESC r = Some r' ->
  current_page r'
  = (if current_page r >? 0
     then Z.max 0 (current_page r - page_step r) else current_page r)
  /\ page_count r' = page_count r.
Proof.
  intros Hin Hcur.
  assert (Hstep : 1 <= page_step r <= 2)
    by (unfold page_step; destruct (double_page _); lia).
  unfold view. rewrite Ascii.eqb_refl.
  unfold view_escape, read_char. rewrite Hin. cbn [stdin set_stdin].
  change (Ascii.eqb "[" "[") with true. change (Ascii.eqb "D" "1") with false.
  change (Ascii.eqb "D" "C") with false. change (Ascii.eqb "D" "D") with true.
  cbv iota. cbn [andb].
  set (r2 := set_stdin rest _).
  assert (H2 : current_page r2 = current_page r /\ page_count r2 = page_count r
               /\ page_step r2 = page_step r) by done.
  destruct H2 as (Hp2 & Hc2 & Hs2). rewrite Hp2.
  destruct (Z.gtb_spec (current_page r) 0) as [Hpos|Hzero].
  - cbn [redraw_if]. intros Hd.
    destruct (steady_draw disk term F is_unzoomed scaled_size
                stbi_load_from_memory stbir_resize (prev_page r2) r' Hd)
      as (Hp & _ & _ & _ & _ & Hc & _).
    rewrite Hp, Hc. unfold prev_page. cbn [current_page set_current_page].
    rewrite Hp2, Hs2. by rewrite int_sub_id by int_range.
  - by intros [= <-].
Qed.

(** A redraw returns when the renderer is not the graphics protocol and
    the terminal has four rows and four columns or more, each column a
    pixel wide or more. *)
Lemma draw_completes r :
  render_mode (config r) <> KITTY ->
  4 <= cols term <= pixel_width term -> pixel_width term < 2 ^ 31 ->
  4 <= rows term < 2 ^ 31 ->
  exists r', draw r = Some r'.
Proof.
  intros Hmode Hcols Hpw Hrows.
  assert (Hcell : int_div (pixel_width term) (cols term) <> 0).
  { rewrite int_div_pos by lia.
    pose proof (Z.div_le_lower_bound (pixel_width term) (cols term) 1
                  ltac:(lia) ltac:(lia)). lia. }
  assert (Hshow : forall img x w x0,
            render_mode (config x0) <> KITTY ->
            exists x1,
              display_if_loaded term scaled_size stbi_load_from_memory
                stbir_resize img x w x0 = Some x1).
  { intros img x w x0 Hm. unfold display_if_loaded, display_image.
    destruct img; [by eexists|].
    destruct (Z.eqb_spec (cols term) 0); [lia|].
    destruct (Z.eqb_spec (int_div (pixel_width term) (cols term)) 0); [done|].
    rewrite andb_false_r.
    destruct (render_mode (config x0)); [done|by eexists|].
    unfold render_ascii. destruct (stbi_load_from_memory _); [|by eexists].
    rewrite !int_sub_id by int_range.
    rewrite int_mul_id by (unfold in_int; nia).
    destruct (Z.ltb_spec (Z.min (cols term - 4) 80 * Z.min (rows term - 4) 40) 0);
      [nia|by eexists]. }
  unfold draw_comic_view. cbv zeta.
  assert (Hsp : exists r1,
            show_pages disk term is_unzoomed scaled_size stbi_load_from_memory
              stbir_resize (emit ClearScreen r) = Some r1).
  { unfold show_pages.
    assert (Hm0 : render_mode (config (emit ClearScreen r)) <> KITTY) by done.
    revert Hm0. generalize (emit ClearScreen r). intros x0 Hm0.
    destruct (_ && _).
    - pose proof (steady_load_page disk F (current_page x0) x0) as (Hp & Hcf & _).
      destruct (load_page disk (current_page x0) x0) as [p1 ra].
      cbn [snd] in Hp, Hcf.
      pose proof (steady_load_page disk F (int_add (current_page ra) 1) ra)
        as (_ & Hcf2 & _).
      destruct (load_page disk (int_add (current_page ra) 1) ra) as [p2 rb].
      cbn [snd] in Hcf2.
      destruct (Hshow p1 0 (int_div (pixel_width term) 2) rb) as [rc Hc];
        [congruence|].
      rewrite Hc. cbn [mbind option_bind].
      apply Hshow.
      apply (display_shown term F scaled_size stbi_load_from_memory
               stbir_resize) in Hc.
      destruct Hc as (_ & _ & _ & _ & _ & _ & _ & _ & _ & Hcf3 & _).
      congruence.
    - pose proof (steady_load_page disk F (current_page x0) x0) as (_ & Hcf & _).
      destruct (load_page disk (current_page x0) x0) as [p1 ra].
      cbn [snd] in Hcf. apply Hshow. congruence. }
  destruct Hsp as [r1 ->]. cbn [mbind option_bind]. by eexists.
Qed.


End Navigation.



(** *** Opening an archive from the file list *)

Section Opening.

Variable char_is_signed : bool.
Variable disk : string -> option (list ArchiveEntry).
Variable listing : string -> list FileEntry.
Variable term : TermSize.
Variable F : Type.
Variable f_one : F.
Variables (is_unzoomed : F -> bool) (zoom_in zoom_out : F -> F).
Variable scaled_size : Z -> Z -> Z -> Z -> F -> Z * Z.
Variable stbi_load_from_memory : list byte -> option (Z * Z * list byte).
Variable stbir_resize : list byte -> Z -> Z -> Z -> Z -> list byte.
Implicit Types r : ComicReader.t F.

Local Abbreviation body :=
  (run_body char_is_signed disk listing term f_one is_unzoomed zoom_in zoom_out
     scaled_size stbi_load_from_memory stbir_resize).

Lemma enter_free_key r (o : string) :
  enter_is_free r = true -> existsb (String.eqb o) browse_keys = true ->
  is_key r "010"%char o = false.
Proof.
  unfold enter_is_free. intros H Hin. rewrite forallb_forall in H.
  apply existsb_exists in Hin as [o' [Hin Ho]].
  apply String.eqb_eq in Ho. subst o'.
  specialize (H o Hin). by destruct (is_key r "010" o).
Qed.

(** What Enter does on an archive of the file list: when the archive
    does not open, the reader stays in the file list; when it opens and
    the first redraw returns, the reader views it with zoom 1.0 and no
    pan, on the saved page unless that is [page_count] or more, and on
    page 0 when nothing is saved. *)
Lemma enter_on_archive r (fe : FileEntry) (ok : bool) (a : ArchiveReader.t) :
  viewing_comic r = false ->
  enter_is_free r = true ->
  0 <= selected_idx r < Z.of_nat (length (entries r)) ->
  Z.of_nat (length (entries r)) < 2 ^ 31 ->
  entries r !! Z.to_nat (selected_idx r) = Some fe ->
  is_directory fe = false ->
  ArchiveReader.open char_is_signed disk (full_path fe) (archive r)
    = Some (ok, a) ->
  (ok = false ->
   exists r', body "010"%char r = Some (Continue, r')
              /\ viewing_comic r' = false)
  /\ forall ctl r', body "010"%char r = Some (ctl, r') ->
       ctl = Continue
       /\ viewing_comic r' = ok
       /\ (ok = true ->
           zoom_level r' = f_one /\ pan_x r' = 0 /\ pan_y r' = 0
           /\ current_comic_filename r' = fe_name fe
           /\ page_count r' = to_int (ArchiveReader.page_count a)
           /\ current_page r'
              = restored_page (progress r !! fe_name fe)
                  (to_int (ArchiveReader.page_count a))).
Proof.
  intros Hview Hfree Hsel Hlen Hfe Hdir Hopen.
  unfold run_body, browse. rewrite Hview.
  repeat match goal with
  | |- context [is_key r "010"%char ?o] =>
      rewrite (enter_free_key r o Hfree eq_refl)
  end.
  cbn [andb].
  change (Ascii.eqb "010" ESC) with false.
  change (Ascii.eqb "010" "010") with true. cbv iota. cbn [orb].
  unfold press_enter.
  rewrite bool_decide_eq_false_2
    by (intros Hnil; rewrite Hnil in Hsel; cbn in Hsel; lia).
  rewrite to_int_id by int_range.
  rewrite Z.geb_leb, (proj2 (Z.leb_gt _ _)) by lia.
  cbn [orb]. rewrite (proj2 (Z.ltb_ge _ _)) by lia.
  rewrite Hfe. cbn [mbind option_bind]. rewrite Hdir.
  unfold open_comic. rewrite Hopen. cbn [mbind option_bind].
  destruct ok.
  - split; [done|]. intros ctl r'.
    cbv zeta. cbn [progress current_comic_filename set_pan_x set_pan_y
                   set_zoom_level set_current_comic_filename set_viewing_comic
                   set_archive].
    match goal with
    | |- context [draw_comic_view _ _ _ _ _ _ ?r0] => set (r1 := r0)
    end.
    destruct (draw_comic_view _ _ _ _ _ _ r1) as [r2|] eqn:Hd; [|done].
    cbn [mbind option_bind]. intros [= <- <-].
    destruct (steady_draw disk term F is_unzoomed scaled_size
                stbi_load_from_memory stbir_resize r1 r2 Hd)
      as (Hp & _ & Hz & Hv & Hn & Hc & _ & Hpx & Hpy).
    assert (Hr1 : viewing_comic r1 = true /\ zoom_level r1 = f_one
                  /\ pan_x r1 = 0 /\ pan_y r1 = 0
                  /\ current_comic_filename r1 = fe_name fe
                  /\ page_count r1 = to_int (ArchiveReader.page_count a)
                  /\ current_page r1
                     = restored_page (progress r !! fe_name fe)
                         (to_int (ArchiveReader.page_count a))).
    { subst r1. unfold restored_page.
      destruct (progress r !! fe_name fe) as [p|]; [|done].
      cbn [current_page set_current_page].
      change (page_count (set_current_page p _))
        with (to_int (ArchiveReader.page_count a)).
      by destruct (p >=? _). }
    destruct Hr1 as (H1 & H2 & H3 & H4 & H5 & H6 & H7).
    split; [done|]. split; [congruence|]. intros _.
    repeat split; try congruence; auto.
  - split; [intros _; by eexists|].
    intros ctl r'. intros [= <- <-]. split; [done|]. split; [done|]. discriminate.
Qed.

End Opening.

(** C7 (failing input). The progress record holds [-1] for six.cbz, an
    archive of six pages. Enter on that entry opens the archive and enters
    the viewing state, and the current page is [-1]: only the upper bound
    of the saved ordinal is checked. *)
Theorem enter_keeps_negative_saved_page :
  let r := Sample.browsing default_config {["six.cbz"%string := -1]} 3 in
  exists r', Sample.run_body "010"%char r = Some (Continue, r')
             /\ viewing_comic r' = true
             /\ page_count r' = 6
             /\ current_page r' = -1.
Proof.
  cbv zeta. eexists. split; [by vm_compute|]. by vm_compute.
Qed.

End ComicFacts.

(** * More about the archive reader *)

Module ArchiveMore.
Import ArchiveReader.

(** *** What the index holds *)

Lemma index_entries_length (es : list ArchiveEntry) :
  forall k,
  length (index_entries es k)
  = length (filter (fun e => is_image (entry_pathname e) = true) es).
Proof.
  induction es as [|e es IH]; intros k; [done|].
  cbn [index_entries]. rewrite filter_cons.
  destruct (is_image (entry_pathname e)) eqn:He.
  - rewrite decide_True by done. cbn [length]. by rewrite IH.
  - rewrite decide_False by done. apply IH.
Qed.

Lemma index_entries_image (es : list ArchiveEntry) :
  forall k pg, In pg (index_entries es k) -> is_image (name pg) = true.
Proof.
  induction es as [|e es IH]; intros k pg Hin; [destruct Hin|].
  cbn [index_entries] in Hin.
  destruct (is_image (entry_pathname e)) eqn:He; [|by eapply IH].
  destruct Hin as [<-|Hin]; [done|by eapply IH].
Qed.

Lemma index_entries_complete (es : list ArchiveEntry) :
  forall k i e, 0 <= k -> k + Z.of_nat (length es) < 2 ^ 64 ->
  es !! i = Some e -> is_image (entry_pathname e) = true ->
  In (mk_page (entry_pathname e) (k + Z.of_nat i)) (index_entries es k).
Proof.
  induction es as [|e0 es IH]; intros k i e Hk Hlen Hi He; [done|].
  cbn [index_entries length] in *. rewrite to_size_t_id by lia.
  destruct i as [|i]; cbn in Hi.
  - inversion Hi; subst e0. rewrite He. left. f_equal. lia.
  - assert (Htl : In (mk_page (entry_pathname e) (k + Z.of_nat (S i)))
                     (index_entries es (k + 1))).
    { replace (k + Z.of_nat (S i)) with (k + 1 + Z.of_nat i) by lia.
      apply IH; (lia || done). }
    destruct (is_image (entry_pathname e0)); [by right|done].
Qed.

(** X1. [open] indexes exactly the image entries of the archive: the page
    count is their number, the result is [true] exactly when there is at
    least one, every image entry appears in the index with its position in
    the stream, and every page of the index is such an entry. *)
Theorem open_indexes_images (sg : bool)
    (disk : string -> option (list ArchiveEntry)) (path : string)
    (es : list ArchiveEntry) (s0 s : t) (ok : bool) :
  disk path = Some es ->
  Z.of_nat (length es) < 2 ^ 31 ->
  open sg disk path s0 = Some (ok, s) ->
  page_count s
  = Z.of_nat (length (filter (fun e => is_image (entry_pathname e) = true) es))
  /\ (ok = true <->
      exists e, e ∈ es /\ is_image (entry_pathname e) = true)
  /\ (forall i e, es !! i = Some e -> is_image (entry_pathname e) = true ->
        mk_page (entry_pathname e) (Z.of_nat i) ∈ entries s)
  /\ (forall pg, pg ∈ entries s ->
        is_image (name pg) = true
        /\ exists e, es !! Z.to_nat (index_in_archive pg) = Some e
                     /\ 0 <= index_in_archive pg
                     /\ entry_pathname e = name pg).
Proof.
  intros Hdisk Hsmall Hopen.
  destruct (ArchiveFacts.open_positioned _ _ _ _ _ _ _ Hdisk Hopen)
    as (_ & _ & _ & Hperm & Hok).
  assert (Hcount : page_count s
            = Z.of_nat (length (filter (fun e => is_image (entry_pathname e) = true) es))).
  { unfold page_count. rewrite <- (Permutation_length Hperm).
    by rewrite (index_entries_length es 0). }
  split; [done|]. split; [|split].
  - rewrite Hok. unfold page_count in Hcount. split.
    + intros Hne.
      destruct (filter (fun e => is_image (entry_pathname e) = true) es)
        as [|e l] eqn:Hf.
      * destruct (entries s); [done|discriminate].
      * assert (Hin : e ∈ filter (fun e => is_image (entry_pathname e) = true) es)
          by (rewrite Hf; by left).
        apply list_elem_of_filter in Hin as [He Hin]. by exists e.
    + intros [e [Hin He]] Hnil. rewrite Hnil in Hcount. cbn in Hcount.
      assert (Hf : e ∈ filter (fun e => is_image (entry_pathname e) = true) es)
        by (by apply list_elem_of_filter).
      destruct (filter _ es); [by apply not_elem_of_nil in Hf|discriminate].
  - intros i e Hi He. rewrite <- Hperm. apply list_elem_of_In.
    pose proof (index_entries_complete es 0 i e ltac:(lia) ltac:(lia) Hi He) as H.
    by rewrite Z.add_0_l in H.
  - intros pg Hpg. rewrite <- Hperm in Hpg. apply list_elem_of_In in Hpg.
    split; [by eapply index_entries_image|].
    destruct (ArchiveFacts.index_entries_lookup es 0 pg) as [Hr [e [He Hn]]];
      [lia|lia|done|].
    exists e. rewrite Z.sub_0_r in He. repeat split; (done || lia).
Qed.

Lemma open_indexes_images_witness :
  page_count (Sample.session "/lib/six.cbz") = 6
  /\ mk_page "p1.png" 3 ∈ entries (Sample.session "/lib/six.cbz").
Proof.
  destruct (open_indexes_images true Sample.disk "/lib/six.cbz" Sample.six_cbz
              initial (Sample.session "/lib/six.cbz") true)
    as (Hcount & _ & Hall & _).
  - reflexivity.
  - vm_compute. reflexivity.
  - reflexivity.
  - split; [exact Hcount|].
    apply (Hall 3%nat (Sample.page "p1.png" 1)); reflexivity.
Defined.


(** *** Reading pages *)

(** X2. In a freshly opened session every ordinal of the index reads as
    the payload of the entry it stands for, when the payloads are well
    formed. *)
Theorem read_page_fresh (sg : bool)
    (disk : string -> option (list ArchiveEntry)) (path : string)
    (es : list ArchiveEntry) (s0 s : t) (ok : bool) (i : nat) :
  disk path = Some es ->
  Z.of_nat (length es) < 2 ^ 31 ->
  well_formed_archive es ->
  open sg disk path s0 = Some (ok, s) ->
  Z.of_nat i < page_count s ->
  exists pg e bs,
    entries s !! i = Some pg
    /\ es !! Z.to_nat (index_in_archive pg) = Some e
    /\ entry_pathname e = name pg
    /\ well_formed e bs
    /\ fst (read_page disk (Z.of_nat i) s) = bs.
Proof.
  intros Hdisk Hsmall Hwf Hopen Hi.
  destruct (ArchiveFacts.open_positioned _ _ _ _ _ _ _ Hdisk Hopen)
    as (Hpos & Hcur & _).
  destruct (ArchiveFacts.indexed_pages _ _ _ _ _ _ _ Hdisk Hsmall Hopen)
    as [Hidx _].
  unfold page_count in Hi.
  destruct (lookup_lt_is_Some_2 (entries s) i) as [pg Hpg]; [lia|].
  destruct (Hidx _ _ Hpg) as (H0 & e & He & Hn).
  destruct (Forall_lookup_1 _ _ _ _ Hwf He) as [bs Hbs].
  destruct (ArchiveFacts.read_page_reaches disk es Hsmall s i pg e)
    as (s' & Hr & _); try done; [lia|].
  exists pg, e, bs. rewrite Hr. cbn [fst].
  repeat split; try done; try apply Hbs.
  by apply ArchiveFacts.read_data_well_formed.
Qed.

Lemma sample_six_well_formed : well_formed_archive Sample.six_cbz.
Proof.
  repeat constructor; eexists; (split; [reflexivity|]); reflexivity.
Qed.

Lemma read_page_fresh_witness :
  exists pg e bs,
    entries (Sample.session "/lib/six.cbz") !! 0%nat = Some pg
    /\ Sample.six_cbz !! Z.to_nat (index_in_archive pg) = Some e
    /\ entry_pathname e = name pg
    /\ well_formed e bs
    /\ fst (read_page Sample.disk (Z.of_nat 0) (Sample.session "/lib/six.cbz"))
       = bs.
Proof.
  apply (read_page_fresh true Sample.disk "/lib/six.cbz" Sample.six_cbz
           initial (Sample.session "/lib/six.cbz") true 0).
  - reflexivity.
  - vm_compute. reflexivity.
  - exact sample_six_well_formed.
  - reflexivity.
  - vm_compute. reflexivity.
Defined.

(** Walking on from a cursor that is not before the target finds nothing
    and runs to the end of the stream. *)
Lemma walk_misses (stream : list ArchiveEntry) :
  forall cur target,
  0 <= target <= cur -> cur + Z.of_nat (length stream) < 2 ^ 31 ->
  walk target stream cur = ([], ([], cur + Z.of_nat (length stream))).
Proof.
  induction stream as [|e rest IH]; intros cur target Ht Hlen.
  - cbn. by rewrite Z.add_0_r.
  - cbn [walk length] in *. rewrite to_int_id by (unfold in_int; lia).
    rewrite to_size_t_id by lia.
    destruct (Z.eqb_spec (cur + 1) target); [lia|].
    replace (cur + Z.of_nat (S (length rest)))
      with (cur + 1 + Z.of_nat (length rest)) by lia.
    apply IH; lia.
Qed.

(** X3. A page whose entry is the one the cursor stands on cannot be read:
    [read_page] does not rewind, walks to the end of the stream and
    returns no bytes. So reading the same ordinal twice in a row gives the
    entry's bytes the first time and nothing the second time. *)
Theorem read_page_twice (disk : string -> option (list ArchiveEntry))
    (es : list ArchiveEntry) (s : t) (i : nat) (pg : PageEntry)
    (e : ArchiveEntry) :
  Z.of_nat (length es) < 2 ^ 31 ->
  positioned disk es s ->
  entries s !! i = Some pg ->
  0 <= index_in_archive pg ->
  es !! Z.to_nat (index_in_archive pg) = Some e ->
  current_entry s <> index_in_archive pg ->
  let '(first, s1) := read_page disk (Z.of_nat i) s in
  let '(second, s2) := read_page disk (Z.of_nat i) s1 in
  first = read_data e
  /\ second = []
  /\ rewinds s2 = rewinds s1
  /\ current_entry s2 = Z.of_nat (length es) - 1
  /\ archive_handle s2 = Some [].
Proof.
  intros Hsmall Hpos Hpg H0 He Hne.
  destruct (ArchiveFacts.read_page_reaches disk es Hsmall s i pg e)
    as (s1 & Hr & (Hd1 & Hc1 & Hh1) & Hcur1 & Hent1); try done.
  rewrite Hr.
  pose proof (lookup_lt_Some _ _ _ Hpg) as Hi.
  pose proof (lookup_lt_Some _ _ _ He) as Hlt.
  unfold read_page.
  rewrite Hent1, (proj2 (Z.leb_gt _ _)) by lia.
  rewrite bool_decide_eq_true_2 by (rewrite Hh1; eauto).
  cbn [orb negb]. rewrite Nat2Z.id, Hpg. cbv zeta.
  assert (Hno : must_rewind s1 (index_in_archive pg) = false).
  { unfold must_rewind. rewrite to_int_id by (unfold in_int; lia).
    rewrite Hcur1. apply orb_false_iff. split; [|lia].
    rewrite Z.gtb_ltb. apply Z.ltb_irrefl. }
  rewrite Hno, Hh1, Hcur1.
  rewrite walk_misses by (rewrite ?length_drop; lia).
  cbn [rewinds current_entry archive_handle].
  repeat split; try done. rewrite length_drop. lia.
Qed.

Lemma read_page_twice_witness :
  let s := Sample.session "/lib/six.cbz" in
  let '(first, s1) := read_page Sample.disk (Z.of_nat 0) s in
  let '(second, s2) := read_page Sample.disk (Z.of_nat 0) s1 in
  first = read_data (Sample.page "p1.png" 1)
  /\ second = []
  /\ rewinds s2 = rewinds s1
  /\ current_entry s2 = Z.of_nat (length Sample.six_cbz) - 1
  /\ archive_handle s2 = Some [].
Proof.
  apply (read_page_twice Sample.disk Sample.six_cbz
           (Sample.session "/lib/six.cbz") 0 (mk_page "p1.png" 3)
           (Sample.page "p1.png" 1)).
  - vm_compute. reflexivity.
  - repeat split; try reflexivity; vm_compute; congruence.
  - reflexivity.
  - vm_compute. congruence.
  - reflexivity.
  - vm_compute. congruence.
Defined.

(** X4. After [close], and whenever [open] returns [false] (the file does
    not open, or holds no image), the session has no pages and every
    [read_page] returns no bytes and leaves the session as it is. *)
Theorem no_pages_no_bytes (sg : bool)
    (disk : string -> option (list ArchiveEntry)) (path : string)
    (s0 : t) (page_idx : Z) :
  (page_count (close s0) = 0
   /\ read_page disk page_idx (close s0) = ([], close s0)
   /\ close (close s0) = close s0)
  /\ (forall s, open sg disk path s0 = Some (false, s) ->
        0 <= page_idx ->
        page_count s = 0 /\ read_page disk page_idx s = ([], s))
  /\ (disk path = None ->
      exists s, open sg disk path s0 = Some (false, s)
                /\ archive_handle s = None).
Proof.
  split; [|split].
  - split; [done|]. split; [|done].
    unfold read_page. cbn [close archive_handle entries].
    by rewrite orb_true_r.
  - intros s Hopen Hidx. unfold open in Hopen.
    assert (He : entries s = []).
    { destruct (disk path).
      - destruct (StdSort.sort _ _) as [[|pg sorted]|]; cbn in Hopen;
          by inversion Hopen.
      - by inversion Hopen. }
    unfold page_count, read_page. rewrite He. split; [done|].
    cbn [length]. by rewrite (proj2 (Z.leb_le _ _)) by lia.
  - intros Hnone. unfold open. rewrite Hnone. by eexists.
Qed.

End ArchiveMore.

(** * More about the image filter *)

Module PathMore.
Import Path.

Lemma tolower_slash (c : ascii) : is_slash (tolower c) = is_slash c.
Proof. destruct c as [[] [] [] [] [] [] [] []]; reflexivity. Qed.

Lemma tolower_dot (c : ascii) : is_dot (tolower c) = is_dot c.
Proof. destruct c as [[] [] [] [] [] [] [] []]; reflexivity. Qed.

Lemma tolower_twice (c : ascii) : tolower (tolower c) = tolower c.
Proof. destruct c as [[] [] [] [] [] [] [] []]; reflexivity. Qed.

Lemma filename_from_lower (p : list ascii) :
  forall cur,
  filename_from (map tolower cur) (map tolower p)
  = map tolower (filename_from cur p).
Proof.
  induction p as [|c p IH]; intros cur; [done|].
  cbn [map filename_from]. rewrite tolower_slash.
  destruct (is_slash c); [apply IH|apply IH].
Qed.

Lemma last_dot_suffix_lower (f : list ascii) :
  last_dot_suffix (map tolower f) = map tolower <$> last_dot_suffix f.
Proof.
  induction f as [|c f IH]; [done|].
  cbn [map last_dot_suffix]. rewrite IH, tolower_dot.
  destruct (last_dot_suffix f); [done|]. cbn. by destruct (is_dot c).
Qed.

Lemma forallb_dot_lower (f : list ascii) :
  forallb is_dot (map tolower f) = forallb is_dot f.
Proof.
  induction f as [|c f IH]; [done|]. cbn. by rewrite tolower_dot, IH.
Qed.

Lemma extension_lower (p : list ascii) :
  extension (map tolower p) = map tolower (extension p).
Proof.
  unfold extension, filename. rewrite filename_from_lower.
  destruct (filename_from p p) as [|c f]; [done|].
  cbn [map]. change (tolower c :: map tolower f) with (map tolower (c :: f)).
  rewrite forallb_dot_lower, length_map.
  destruct (_ && _); [done|].
  rewrite last_dot_suffix_lower. by destruct (last_dot_suffix f).
Qed.

Lemma filename_no_slash (p : list ascii) :
  forall cur pre, cur = pre ++ p ->
  forallb (fun c => negb (is_slash c)) pre = true ->
  forallb (fun c => negb (is_slash c)) (filename_from cur p) = true.
Proof.
  induction p as [|c p IH]; intros cur pre Hcur Hpre; cbn [filename_from].
  - by rewrite Hcur, app_nil_r.
  - destruct (is_slash c) eqn:Hc.
    + by apply (IH p []).
    + apply (IH cur (pre ++ [c])); [by rewrite <- app_assoc|].
      rewrite forallb_app, Hpre. cbn. by rewrite Hc.
Qed.

Lemma last_dot_suffix_spec (f s : list ascii) :
  last_dot_suffix f = Some s ->
  exists pre rest, f = pre ++ s /\ s = "."%char :: rest
                   /\ forallb (fun c => negb (is_dot c)) rest = true.
Proof.
  revert s. induction f as [|c f IH]; intros s H; [done|].
  cbn [last_dot_suffix] in H.
  destruct (last_dot_suffix f) as [s'|] eqn:Hs.
  - inversion H; subst s'. destruct (IH s eq_refl) as (pre & rest & -> & -> & Hr).
    by exists (c :: pre), rest.
  - destruct (is_dot c) eqn:Hc; [|done]. inversion H; subst s.
    apply Ascii.eqb_eq in Hc. subst c. exists [], f. repeat split.
    clear IH H. induction f as [|d f IH]; [done|].
    cbn [last_dot_suffix] in Hs.
    destruct (last_dot_suffix f); [done|].
    destruct (is_dot d) eqn:Hd; [done|]. cbn. rewrite Hd. by apply IH.
Qed.

Lemma is_slash_eq (c : ascii) : is_slash c = true -> c = "/"%char.
Proof. apply Ascii.eqb_eq. Qed.

(** The file name of a path: what follows the last slash. *)
Lemma filename_from_spec (p : list ascii) :
  forall cur pre, cur = pre ++ p ->
  forallb (fun c => negb (is_slash c)) pre = true ->
  exists dir, cur = dir ++ filename_from cur p
              /\ (dir = [] \/ exists d, dir = d ++ ["/"%char]).
Proof.
  induction p as [|c p IH]; intros cur pre Hcur Hpre; cbn [filename_from].
  - exists []. split; [done|by left].
  - destruct (is_slash c) eqn:Hc.
    + destruct (IH p [] eq_refl eq_refl) as (dir & Hp & Hdir).
      apply is_slash_eq in Hc. subst c.
      exists (pre ++ "/"%char :: dir). split.
      * rewrite Hcur, <- app_assoc. cbn. by rewrite <- Hp.
      * right. destruct Hdir as [->|[d ->]].
        -- by exists pre.
        -- exists (pre ++ "/"%char :: d). by rewrite <- app_assoc.
    + apply (IH cur (pre ++ [c])); [by rewrite <- app_assoc|].
      rewrite forallb_app, Hpre. cbn. by rewrite Hc.
Qed.

Lemma filename_from_plain (p : list ascii) :
  forall cur, forallb (fun c => negb (is_slash c)) p = true ->
  filename_from cur p = cur.
Proof.
  induction p as [|c p IH]; intros cur H; [done|].
  cbn in H. apply andb_true_iff in H as [Hc H].
  cbn [filename_from]. destruct (is_slash c); [done|]. by apply IH.
Qed.

Lemma filename_from_after_slash (d f : list ascii) :
  forall cur, forallb (fun c => negb (is_slash c)) f = true ->
  filename_from cur (d ++ "/"%char :: f) = f.
Proof.
  induction d as [|c d IH]; intros cur Hf.
  - cbn. by apply filename_from_plain.
  - cbn [app filename_from]. destruct (is_slash c); by apply IH.
Qed.

Lemma last_dot_suffix_plain (f : list ascii) :
  forallb (fun c => negb (is_dot c)) f = true -> last_dot_suffix f = None.
Proof.
  induction f as [|c f IH]; [done|]. cbn. intros H.
  apply andb_true_iff in H as [Hc H]. rewrite (IH H).
  by destruct (is_dot c).
Qed.

Lemma last_dot_suffix_last (pre ext : list ascii) :
  forallb (fun c => negb (is_dot c)) ext = true ->
  last_dot_suffix (pre ++ "."%char :: ext) = Some ("."%char :: ext).
Proof.
  intros H. induction pre as [|c pre IH].
  - cbn. by rewrite (last_dot_suffix_plain ext H).
  - cbn [app last_dot_suffix]. by rewrite IH.
Qed.

(** X5. The image filter looks at the letters of a name without regard to
    case, and it accepts a name exactly when what follows the last slash
    of the name (the whole name when there is none) is a non-empty stem,
    a period, and the letters of one of the six extensions, written in
    any case, with no period among them. *)
Theorem is_image_extension (a : string) :
  (forall b, map tolower (list_ascii_of_string a)
             = map tolower (list_ascii_of_string b) ->
             ArchiveReader.is_image a = ArchiveReader.is_image b)
  /\ (ArchiveReader.is_image a = true <->
      exists dir stem ext,
        list_ascii_of_string a = dir ++ stem ++ "."%char :: ext
        /\ (dir = [] \/ exists d, dir = d ++ ["/"%char])
        /\ stem <> []
        /\ forallb (fun c => negb (is_slash c)) stem = true
        /\ forallb (fun c => negb (is_dot c) && negb (is_slash c)) ext = true
        /\ In (string_of_list_ascii ("."%char :: map tolower ext))
              ArchiveReader.image_extensions).
Proof.
  assert (Hlow : forall p,
            ArchiveReader.is_image p
            = existsb (String.eqb
                         (string_of_list_ascii
                            (extension (map tolower (list_ascii_of_string p)))))
                      ArchiveReader.image_extensions).
  { intros p. unfold ArchiveReader.is_image. by rewrite extension_lower. }
  split; [intros b Hab; by rewrite !Hlow, Hab|].
  unfold ArchiveReader.is_image. cbv zeta.
  set (p := list_ascii_of_string a). split.
  - intros H.
    apply existsb_exists in H as [x [Hx Heq]].
    apply String.eqb_eq in Heq. subst x.
    unfold extension in *.
    destruct (filename p) as [|c f] eqn:Hf.
    { cbn in Hx. repeat destruct Hx as [Hx|Hx]; try discriminate; done. }
    destruct (_ && _).
    { cbn in Hx. repeat destruct Hx as [Hx|Hx]; try discriminate; done. }
    destruct (last_dot_suffix f) as [s|] eqn:Hs.
    2:{ cbn in Hx. repeat destruct Hx as [Hx|Hx]; try discriminate; done. }
    destruct (last_dot_suffix_spec f s Hs) as (pre & rest & Hfs & -> & Hrest).
    destruct (filename_from_spec p p [] eq_refl eq_refl) as (dir & Hdir & Hend).
    fold (filename p) in Hdir. rewrite Hf, Hfs in Hdir.
    pose proof (filename_no_slash p p [] eq_refl eq_refl) as Hns.
    fold (filename p) in Hns. rewrite Hf, Hfs in Hns.
    cbn [forallb] in Hns. apply andb_true_iff in Hns as [Hc Hns].
    rewrite forallb_app in Hns. apply andb_true_iff in Hns as [Hpre Hns].
    cbn [forallb] in Hns. apply andb_true_iff in Hns as [_ Hns].
    exists dir, (c :: pre), rest. split; [|split; [|split; [|split; [|split]]]].
    + rewrite Hdir. done.
    + done.
    + done.
    + cbn. by rewrite Hc, Hpre.
    + clear - Hrest Hns. induction rest as [|d rest IH]; [done|].
      cbn in *. apply andb_true_iff in Hrest as [-> Hrest].
      apply andb_true_iff in Hns as [-> Hns]. cbn. by apply IH.
    + cbn [map] in Hx. change (tolower ".") with "."%char in Hx. exact Hx.
  - intros (dir & stem & ext & Hp & Hdir & Hstem & Hns & Hext & Hin).
    assert (Hdots : forallb (fun c => negb (is_dot c)) ext = true
                    /\ forallb (fun c => negb (is_slash c)) ext = true).
    { clear - Hext. induction ext as [|d ext IH]; [done|].
      cbn in *. apply andb_true_iff in Hext as [Hd Hext].
      apply andb_true_iff in Hd as [-> ->]. cbn. by apply IH. }
    destruct Hdots as [Hnd Hnsl].
    assert (Hfile : filename p = stem ++ "."%char :: ext).
    { assert (Hplain : forallb (fun c => negb (is_slash c))
                         (stem ++ "."%char :: ext) = true).
      { rewrite forallb_app, Hns. cbn. exact Hnsl. }
      unfold filename. fold p in Hp. rewrite Hp.
      destruct Hdir as [->|[d ->]].
      - cbn [app]. by apply filename_from_plain.
      - rewrite <- app_assoc. cbn [app].
        by apply filename_from_after_slash. }
    destruct stem as [|c pre]; [done|].
    assert (Hextn : extension p = "."%char :: ext).
    { unfold extension. rewrite Hfile. cbn [app].
      destruct (forallb is_dot (c :: pre ++ "."%char :: ext)
                && (length (c :: pre ++ "."%char :: ext) <=? 2)%nat) eqn:Hshort.
      - apply andb_true_iff in Hshort as [_ Hlen].
        apply Nat.leb_le in Hlen. cbn [length] in Hlen.
        rewrite length_app in Hlen. cbn [length] in Hlen.
        destruct pre; [|cbn in Hlen; lia]. destruct ext; [|cbn in Hlen; lia].
        cbn in Hin. repeat destruct Hin as [Hin|Hin]; try discriminate; done.
      - by rewrite last_dot_suffix_last. }
    rewrite Hextn. cbn [map]. change (tolower ".") with "."%char.
    apply existsb_exists. eexists. split; [exact Hin|].
    apply String.eqb_refl.
Qed.

(** A name without a stem is no image, although it ends in an
    extension. *)
Example is_image_needs_a_stem :
  ArchiveReader.is_image "dir/.jpg" = false
  /\ ArchiveReader.is_image ".jpg" = false
  /\ ArchiveReader.is_image "x.jpg" = true
  /\ ArchiveReader.is_image "dir/x.JPG" = true.
Proof. by vm_compute. Qed.

End PathMore.

(** * More about the natural order *)

Module NaturalSortMore.
Import NaturalSort.

Lemma compare_from_asym (sg : bool) (la lb : nat) (sa sb : list ascii) :
  compare_from sg la lb sa sb = Some true ->
  compare_from sg lb la sb sa = Some false.
Proof.
  funelim (compare_from sg la lb sa sb).
  - intros H. inversion H as [Hlt]. apply Nat.ltb_lt in Hlt.
    destruct sb; simp compare_from; f_equal; apply Nat.ltb_ge; lia.
  - intros H. inversion H as [Hlt]. apply Nat.ltb_lt in Hlt.
    simp compare_from. f_equal. apply Nat.ltb_ge. lia.
  - intros Hres. simp compare_from.
    rewrite (andb_comm (isdigit y)), Heq. cbn.
    rewrite Ascii.eqb_sym.
    destruct (Ascii.eqb x y); [by apply H|].
    inversion Hres as [Hlt]. f_equal. lia.
  - discriminate.
  - intros Hres. simp compare_from.
    rewrite (andb_comm (isdigit y)), Heq1. cbn. rewrite Heq. cbn.
    rewrite Heq0. cbn. rewrite Z.eqb_sym.
    destruct (num_a =? num_b); [by apply H|].
    inversion Hres as [Hlt]. f_equal. lia.
  - discriminate.
Qed.

(** X6. The comparator is asymmetric: when it puts [a] before [b] it does
    not put [b] before [a], and in particular no name is put before
    itself. *)
Theorem natural_sort_compare_asymmetric (sg : bool) (a b : string) :
  natural_sort_compare sg a b = Some true ->
  natural_sort_compare sg b a = Some false /\ a <> b.
Proof.
  intros H. split.
  - by apply compare_from_asym.
  - intros ->. pose proof (compare_from_asym _ _ _ _ _ H) as H'.
    unfold natural_sort_compare in H. cbv zeta in H. congruence.
Qed.

Lemma natural_sort_compare_asymmetric_witness :
  natural_sort_compare true "page2.jpg" "page10.jpg" = Some true
  /\ natural_sort_compare true "page10.jpg" "page2.jpg" = Some false
  /\ "page2.jpg"%string <> "page10.jpg"%string.
Proof.
  split; [reflexivity|].
  apply (natural_sort_compare_asymmetric true "page2.jpg" "page10.jpg").
  reflexivity.
Defined.

(** X7. The comparator is no strict weak ordering: being unordered is not
    transitive. "1a" and "01" are unordered, "01" and "1b" are unordered,
    and "1a" comes before "1b". *)
Theorem natural_sort_compare_not_weak_order (sg : bool) :
  exists a b c,
    natural_sort_compare sg a b = Some false
    /\ natural_sort_compare sg b a = Some false
    /\ natural_sort_compare sg b c = Some false
    /\ natural_sort_compare sg c b = Some false
    /\ natural_sort_compare sg a c = Some true.
Proof.
  exists "1a"%string, "01"%string, "1b"%string.
  destruct sg; repeat split; reflexivity.
Qed.

End NaturalSortMore.

(** * More about the base64 encoder *)

Module Base64More.
Import Base64.

(** X8. Different byte sequences have different encodings. *)
Theorem base64_encode_injective (a b : list byte) :
  base64_encode a = base64_encode b -> a = b.
Proof.
  intros H.
  assert (Hd : rfc4648_decode (base64_encode a)
               = rfc4648_decode (base64_encode b)) by (by rewrite H).
  rewrite !Base64Facts.encode_is_rfc4648, !Base64Facts.decode_encode in Hd.
  by inversion Hd.
Qed.

Lemma base64_encode_injective_witness :
  base64_encode [x4d; x61] = base64_encode (take 2 [x4d; x61; x6e])
  /\ [x4d; x61] = take 2 [x4d; x61; x6e].
Proof.
  split; [reflexivity|].
  apply (base64_encode_injective [x4d; x61] (take 2 [x4d; x61; x6e])).
  reflexivity.
Defined.

Lemma rfc4648_encode_app (a b : list byte) :
  (length a mod 3 = 0)%nat ->
  rfc4648_encode (a ++ b) = rfc4648_encode a ++ rfc4648_encode b.
Proof.
  induction a as [|x|x y|x y z a IH] using Base64Facts.list_ind3;
    intros Hlen; try done.
  cbn [app rfc4648_encode]. rewrite IH; [by rewrite <- app_assoc|].
  cbn [length] in Hlen.
  replace (S (S (S (length a)))) with (length a + 1 * 3)%nat in Hlen by lia.
  by rewrite Nat.Div0.mod_add in Hlen.
Qed.

(** X9. The encoding of a sequence that is cut after a multiple of three
    bytes is the encoding of the first part followed by the encoding of
    the rest: whole groups are encoded independently of what follows. *)
Theorem base64_encode_app (a b : list byte) :
  (length a mod 3 = 0)%nat ->
  base64_encode (a ++ b) = base64_encode a ++ base64_encode b.
Proof.
  intros H. rewrite !Base64Facts.encode_is_rfc4648.
  by apply rfc4648_encode_app.
Qed.

Lemma base64_encode_app_witness :
  base64_encode ([x01; x02; x03] ++ [x04])
  = base64_encode [x01; x02; x03] ++ base64_encode [x04].
Proof. by apply (base64_encode_app [x01; x02; x03] [x04]). Defined.

Lemma rfc4648_padding (data : list byte) :
  exists body,
    rfc4648_encode data
    = body ++ repeat "="%char ((3 - length data mod 3) mod 3)%nat
    /\ Forall (fun c => In c base64_chars) body.
Proof.
  induction data as [|x|x y|x y z data IH] using Base64Facts.list_ind3.
  - by exists [].
  - eexists. split; [reflexivity|].
    pose proof (Base64Facts.byte_val_range x).
    apply Forall_map, Forall_take.
    eapply Forall_impl; [apply Base64Facts.sextets_range; lia|].
    intros k Hk. by apply Base64Facts.char_at_alphabet.
  - eexists. split; [reflexivity|].
    pose proof (Base64Facts.byte_val_range x).
    pose proof (Base64Facts.byte_val_range y).
    apply Forall_map, Forall_take.
    eapply Forall_impl; [apply Base64Facts.sextets_range; lia|].
    intros k Hk. by apply Base64Facts.char_at_alphabet.
  - destruct IH as (body & Hb & Hf).
    exists (map char_at (sextets (byte_val x) (byte_val y) (byte_val z)) ++ body).
    split.
    + cbn [rfc4648_encode]. rewrite Hb, <- app_assoc. do 2 f_equal.
      cbn [length].
      replace (S (S (S (length data)))) with (length data + 1 * 3)%nat by lia.
      by rewrite Nat.Div0.mod_add.
    + apply Forall_app. split; [|done].
      apply Forall_map.
      eapply Forall_impl;
        [apply Base64Facts.sextets_range; apply Base64Facts.byte_val_range|].
      intros k Hk. by apply Base64Facts.char_at_alphabet.
Qed.

(** X10. Pad characters stand only at the end of the encoding, and there
    are as many as bytes are missing from the last group of three: none,
    one or two. *)
Theorem base64_encode_padding (data : list byte) :
  exists body,
    base64_encode data
    = body ++ repeat "="%char ((3 - length data mod 3) mod 3)%nat
    /\ Forall (fun c => In c base64_chars) body
    /\ ~ In "="%char base64_chars.
Proof.
  destruct (rfc4648_padding data) as (body & Hb & Hf).
  exists body. rewrite Base64Facts.encode_is_rfc4648.
  split; [exact Hb|]. split; [done|].
  cbn. intuition discriminate.
Qed.

End Base64More.

(** * More about the Kitty renderer *)

Module KittyMore.
Import Kitty.

(** X11. Clamping the pan is stable: a clamped pan is left as it is by a
    second clamping, a pan already inside [[-max_pan, 0]] is not changed,
    and when the scaled image is no larger than the target the pan
    becomes 0. *)
Theorem clamp_pan_stable (scaled target pan : Z) :
  0 <= scaled < 2 ^ 31 -> 0 <= target < 2 ^ 31 -> in_int pan ->
  clamp_pan (clamp_pan pan scaled target) scaled target
  = clamp_pan pan scaled target
  /\ (- max_pan scaled target <= pan <= 0 -> clamp_pan pan scaled target = pan)
  /\ (scaled <= target -> clamp_pan pan scaled target = 0).
Proof.
  intros Hs Ht Hp.
  unfold clamp_pan, max_pan, clamp.
  rewrite (int_sub_id scaled target) by int_range.
  rewrite int_neg_id by int_range.
  repeat split; intros;
    repeat match goal with
    | |- context [?a <? ?b] => destruct (Z.ltb_spec a b)
    end; lia.
Qed.

Lemma clamp_pan_stable_witness :
  clamp_pan (clamp_pan (-500) 60 40) 60 40 = clamp_pan (-500) 60 40.
Proof.
  apply (clamp_pan_stable 60 40 (-500)); unfold in_int; lia.
Defined.

(** X12. After clamping, the crop is as wide as the smaller of the scaled
    image and the target: the whole image when it fits, and a full target
    otherwise. *)
Theorem crop_extent_min (scaled target pan : Z) :
  0 <= scaled < 2 ^ 31 -> 0 <= target < 2 ^ 31 -> in_int pan ->
  crop_extent scaled target (crop_origin (clamp_pan pan scaled target))
  = Z.min scaled target.
Proof.
  intros Hs Ht Hp.
  destruct (KittyFacts.axis_clamped scaled target pan Hs Ht Hp)
    as (Hm & Hr & Ho & He & _).
  cbv zeta in *. rewrite He. rewrite Hm in Hr. lia.
Qed.

Lemma crop_extent_min_witness :
  crop_extent 60 40 (crop_origin (clamp_pan (-7) 60 40)) = Z.min 60 40.
Proof. apply (crop_extent_min 60 40 (-7)); unfold in_int; lia. Defined.

Section Chunks.

Variables crop_w crop_h cols_needed rows_needed : Z.
Variable b64 : list ascii.

Local Abbreviation send :=
  (send_chunks crop_w crop_h cols_needed rows_needed b64).

Lemma send_chunks_full_from (k : nat) :
  forall offset, (length b64 - offset = k)%nat -> (offset <= length b64)%nat ->
  forall i f, send offset !! i = Some f ->
    (S i < length (send offset))%nat ->
    length (payload_of f) = chunk_sz.
Proof.
  induction k as [k IH] using lt_wf_ind. intros offset Hk Hle i f Hf Hi.
  destruct (decide (offset < length b64)%nat) as [Hlt|Hge].
  2:{ rewrite KittyFacts.send_chunks_done in Hf by lia. done. }
  rewrite KittyFacts.send_chunks_more in Hf, Hi by done.
  set (c := this_chunk b64 offset) in *.
  assert (Hc : c = Nat.min chunk_sz k)
    by (subst c; unfold this_chunk; by rewrite Hk).
  set (fr := KittyFrame _ _) in *. set (rest := send (offset + c)) in *.
  destruct i as [|i]; cbn [lookup list_lookup] in Hf.
  - inversion Hf; subst f. subst fr. cbn [payload_of].
    rewrite length_take, length_drop.
    destruct (decide (length b64 <= offset + c)%nat) as [Hend|Hmore].
    + subst rest. rewrite KittyFacts.send_chunks_done in Hi by lia.
      cbn [length] in Hi. lia.
    + unfold chunk_sz in *. lia.
  - cbn [length] in Hi. subst rest.
    apply (IH (k - c)%nat ltac:(unfold chunk_sz in *; lia) (offset + c)%nat
             ltac:(lia) ltac:(unfold chunk_sz in *; lia) i f Hf).
    lia.
Qed.

End Chunks.

(** X13. Every frame of a transmission but the last carries exactly 4096
    characters of the payload. *)
Theorem kitty_frames_full (crop_w crop_h cols_needed rows_needed : Z)
    (b64 : list ascii) (i : nat) (f : Output) :
  let frames := send_chunks crop_w crop_h cols_needed rows_needed b64 0 in
  frames !! i = Some f -> (S i < length frames)%nat ->
  length (payload_of f) = 4096%nat.
Proof.
  cbv zeta. intros Hf Hi.
  by apply (send_chunks_full_from crop_w crop_h cols_needed rows_needed b64
              (length b64) 0%nat ltac:(lia) ltac:(lia) i f).
Qed.

Lemma kitty_frames_full_witness :
  let frames := send_chunks 30 30 3 3 (replicate 4100 "A"%char) 0 in
  length frames = 2%nat
  /\ length (payload_of (nth 0 frames (Text ""))) = 4096%nat.
Proof.
  cbv zeta. split; [by vm_compute|].
  apply (kitty_frames_full 30 30 3 3 (replicate 4100 "A"%char) 0).
  - by vm_compute.
  - vm_compute. lia.
Defined.

End KittyMore.

(** * The crop loop, row by row *)

Module CropMore.
Import Kitty.

(** The three bytes of the pixel in column [X] of row [Y] of an RGB buffer
    that is [w] pixels wide. *)
Local Abbreviation pixel_at buf w X Y :=
  [ get buf ((Y * w + X) * 3); get buf ((Y * w + X) * 3 + 1);
    get buf ((Y * w + X) * 3 + 2) ].

Section Crop.

Variable resized : list byte.
Variables new_w crop_x crop_y crop_w : Z.

Local Abbreviation copy := (copy_pixel resized new_w crop_x crop_y crop_w).

(** What one pixel copy reads, with the index arithmetic as written. *)
Local Abbreviation read y x :=
  [ get resized (int_add (src_idx new_w crop_x crop_y x y) 0);
    get resized (int_add (src_idx new_w crop_x crop_y x y) 1);
    get resized (int_add (src_idx new_w crop_x crop_y x y) 2) ].

Lemma put_next (done rest : list byte) (r v : byte) (i : Z) :
  i = Z.of_nat (length done) ->
  put (done ++ r :: rest) i v = done ++ v :: rest.
Proof.
  intros ->. unfold put. rewrite (proj2 (Z.ltb_ge _ _)) by lia.
  rewrite Nat2Z.id.
  replace (length done) with (length done + 0)%nat at 1 by lia.
  by rewrite insert_app_r.
Qed.

Lemma copy_pixel_fill (y x : Z) (done rest : list byte) (r0 r1 r2 : byte) :
  dst_idx crop_w x y = Z.of_nat (length done) ->
  Z.of_nat (length done) + 2 < 2 ^ 31 ->
  copy y x (done ++ r0 :: r1 :: r2 :: rest) = done ++ read y x ++ rest.
Proof.
  intros Hd Hsmall. unfold copy_pixel. cbv zeta. rewrite Hd.
  set (d := Z.of_nat (length done)) in *.
  rewrite (int_add_id d 0), (int_add_id d 1), (int_add_id d 2) by int_range.
  subst d.
  rewrite (put_next done _ r0) by lia.
  change (done ++ ?a :: r1 :: ?l) with (done ++ [a] ++ r1 :: l).
  rewrite app_assoc. rewrite (put_next (done ++ [_]) _ r1)
    by (rewrite length_app; cbn; lia).
  rewrite <- app_assoc. cbn [app].
  change (done ++ ?a :: ?b :: r2 :: ?l) with (done ++ [a; b] ++ r2 :: l).
  rewrite app_assoc. rewrite (put_next (done ++ [_; _]) _ r2)
    by (rewrite length_app; cbn; lia).
  by rewrite <- app_assoc.
Qed.

(** One row: the columns [a], [a + 1], ... are written one after the
    other behind what is already there. *)
Lemma row_fill (y : Z) (m : nat) :
  forall (a : Z) (done rest : list byte),
  0 <= a -> 0 <= y -> 0 <= crop_w ->
  Z.of_nat (length done) = (y * crop_w + a) * 3 ->
  (y * crop_w + a + Z.of_nat m) * 3 < 2 ^ 31 ->
  (3 * m <= length rest)%nat ->
  foldl (fun buf x => copy y x buf) (done ++ rest) (seqZ a (Z.of_nat m))
  = done ++ flat_map (fun x => read y x) (seqZ a (Z.of_nat m)) ++ drop (3 * m) rest.
Proof.
  induction m as [|m IH]; intros a done rest Ha Hy Hw Hdone Hsmall Hrest.
  - by rewrite seqZ_nil by lia.
  - rewrite seqZ_cons by lia.
    replace (Z.pred (Z.of_nat (S m))) with (Z.of_nat m) by lia.
    cbn [foldl flat_map].
    destruct rest as [|r0 [|r1 [|r2 rest]]]; cbn [length] in Hrest; try lia.
    assert (Hyw : 0 <= y * crop_w) by (apply Z.mul_nonneg_nonneg; lia).
    rewrite copy_pixel_fill; [| |lia].
    2:{ unfold dst_idx. rewrite (int_mul_id y crop_w) by int_range.
        rewrite int_add_id by int_range. rewrite int_mul_id by int_range.
        lia. }
    rewrite app_assoc. rewrite IH; try lia.
    + rewrite <- !app_assoc. do 2 f_equal.
      replace (3 * S m)%nat with (3 + 3 * m)%nat by lia. done.
    + rewrite length_app. cbn [length]. lia.
Qed.

Lemma read_length (y : Z) (l : list Z) :
  length (flat_map (fun x => read y x) l) = (3 * length l)%nat.
Proof. induction l as [|x l IH]; cbn [flat_map length app]; lia. Qed.

(** The rows [b], [b + 1], ... are written one after the other. *)
Lemma rows_fill (w : nat) (m : nat) :
  crop_w = Z.of_nat w ->
  forall (b : Z) (done rest : list byte),
  0 <= b ->
  Z.of_nat (length done) = b * crop_w * 3 ->
  (b + Z.of_nat m) * crop_w * 3 < 2 ^ 31 ->
  (3 * (w * m) <= length rest)%nat ->
  foldl (fun buf y => foldl (fun buf x => copy y x buf) buf (seqZ 0 crop_w))
        (done ++ rest) (seqZ b (Z.of_nat m))
  = done
    ++ flat_map (fun y => flat_map (fun x => read y x) (seqZ 0 crop_w))
                (seqZ b (Z.of_nat m))
    ++ drop (3 * (w * m)) rest.
Proof.
  intros Hw. induction m as [|m IH]; intros b done rest Hb Hdone Hsmall Hrest.
  - rewrite (seqZ_nil b) by lia. rewrite Nat.mul_0_r. done.
  - rewrite (seqZ_cons b) by lia.
    replace (Z.pred (Z.of_nat (S m))) with (Z.of_nat m) by lia.
    cbn [foldl flat_map].
    assert (Hbw : 0 <= b * crop_w) by (apply Z.mul_nonneg_nonneg; lia).
    assert (Hmw : 0 <= Z.of_nat m * crop_w) by (apply Z.mul_nonneg_nonneg; lia).
    assert (Hexp : (b + Z.of_nat (S m)) * crop_w
                   = b * crop_w + crop_w + Z.of_nat m * crop_w) by lia.
    assert (Hexp' : (Z.succ b + Z.of_nat m) * crop_w
                   = b * crop_w + crop_w + Z.of_nat m * crop_w) by lia.
    assert (Hnat : (w * S m = w + w * m)%nat) by lia.
    pose proof (row_fill b w 0 done rest) as Hrow. rewrite <- Hw in Hrow.
    rewrite Hrow by lia. clear Hrow.
    rewrite app_assoc, IH; try lia.
    + rewrite <- !app_assoc. do 2 f_equal.
      rewrite drop_drop, Hnat, Nat.mul_add_distr_l. done.
    + rewrite length_app, read_length, length_seqZ. lia.
    + rewrite length_drop. lia.
Qed.

End Crop.

(** A pixel copy whose source index does not overflow reads the pixel of
    the resized image at the crop origin plus the loop counters. *)
Lemma read_pixel_at (resized : list byte) (new_w crop_x crop_y x y : Z) :
  0 <= new_w -> 0 <= crop_x -> 0 <= crop_y -> 0 <= x -> 0 <= y ->
  crop_y + y < 2 ^ 31 ->
  ((crop_y + y) * new_w + (crop_x + x)) * 3 + 2 < 2 ^ 31 ->
  [ get resized (int_add (src_idx new_w crop_x crop_y x y) 0);
    get resized (int_add (src_idx new_w crop_x crop_y x y) 1);
    get resized (int_add (src_idx new_w crop_x crop_y x y) 2) ]
  = pixel_at resized new_w (crop_x + x) (crop_y + y).
Proof.
  intros Hw Hx Hy Hx' Hy' Hrow Hsmall. unfold src_idx.
  assert (0 <= (crop_y + y) * new_w) by (apply Z.mul_nonneg_nonneg; lia).
  rewrite (int_add_id crop_y y), (int_add_id crop_x x) by int_range.
  rewrite (int_mul_id (crop_y + y) new_w) by int_range.
  rewrite (int_add_id ((crop_y + y) * new_w)) by int_range.
  rewrite (int_mul_id _ 3) by int_range.
  rewrite !int_add_id by int_range.
  by rewrite Z.add_0_r.
Qed.

(** X14. When the crop rectangle lies inside the resized image and that
    image's buffer size fits in an [int], the cropped buffer is the
    rectangle read row by row: for each row of the rectangle from the top,
    for each column from the left, the three bytes of the pixel of the
    resized image at the crop origin plus (column, row). *)
Theorem crop_pixels_rectangle (resized : list byte)
    (new_w new_h crop_x crop_y crop_w crop_h : Z) :
  0 <= crop_x -> 0 <= crop_y -> 0 <= crop_w -> 0 <= crop_h ->
  crop_x + crop_w <= new_w -> crop_y + crop_h <= new_h ->
  new_w * new_h * 3 < 2 ^ 31 ->
  crop_pixels resized new_w crop_x crop_y crop_w crop_h
  = flat_map
      (fun y => flat_map
         (fun x => pixel_at resized new_w (crop_x + x) (crop_y + y))
         (seqZ 0 crop_w))
      (seqZ 0 crop_h).
Proof.
  intros Hx Hy Hw Hh Hxw Hyh Hsmall. unfold crop_pixels.
  assert (Hwh : crop_w * crop_h <= new_w * new_h)
    by (apply Z.mul_le_mono_nonneg; lia).
  assert (0 <= crop_w * crop_h) by (apply Z.mul_nonneg_nonneg; lia).
  rewrite (int_mul_id crop_w crop_h) by int_range.
  rewrite int_mul_id by int_range.
  unfold vector_of. rewrite take_nil. cbn [app length]. rewrite Nat.sub_0_r.
  pose proof (rows_fill resized new_w crop_x crop_y crop_w (Z.to_nat crop_w)
                (Z.to_nat crop_h) ltac:(lia) 0 []
                (replicate (Z.to_nat (crop_w * crop_h * 3)) "000"%byte)) as Hfill.
  rewrite Z2Nat.id in Hfill by lia. cbn [app] in Hfill.
  rewrite Hfill; clear Hfill.
  - rewrite drop_ge, app_nil_r by (rewrite length_replicate; lia).
    rewrite !flat_map_concat_map. f_equal. apply map_ext_in.
    intros y Hin%list_elem_of_In%elem_of_seqZ.
    rewrite !flat_map_concat_map. f_equal. apply map_ext_in.
    intros x Hin'%list_elem_of_In%elem_of_seqZ.
    assert ((crop_y + y + 1) * new_w <= new_h * new_w)
      by (apply Z.mul_le_mono_nonneg_r; lia).
    assert (new_h * 1 <= new_h * new_w)
      by (apply Z.mul_le_mono_nonneg_l; lia).
    apply read_pixel_at; lia.
  - lia.
  - cbn [length]. lia.
  - rewrite Z.mul_comm in Hwh. lia.
  - rewrite length_replicate. lia.
Qed.

Lemma crop_pixels_rectangle_witness :
  crop_pixels [x01; x02; x03; x04; x05; x06; x07; x08; x09; x0a; x0b; x0c]
              2 1 0 1 1
  = flat_map
      (fun y => flat_map
         (fun x => pixel_at
                     [x01; x02; x03; x04; x05; x06; x07; x08; x09; x0a; x0b; x0c]
                     2 (1 + x) (0 + y))
         (seqZ 0 1))
      (seqZ 0 1).
Proof. apply (crop_pixels_rectangle _ 2 2); lia. Defined.

End CropMore.

(** * The page cache and the archive it serves *)

Module ComicMore.
Import ComicReader ComicFacts PageStore.

(** A cache whose ordinals are pairwise at most two apart holds at most
    three pages. *)
Lemma narrow_size (cache : gmap Z (list byte)) :
  narrow cache -> (size cache <= 3)%nat.
Proof.
  intros Hn. rewrite <- size_dom. unfold narrow in Hn.
  set (S := dom cache) in *. clearbody S.
  destruct (set_choose_or_empty S) as [[k Hk]|Hempty].
  2:{ rewrite Hempty, size_empty. lia. }
  assert (Hsub : exists a : Z, S ⊆ {[a; a + 1; a + 2]}).
  { destruct (decide (k - 2 ∈ S)) as [H2|H2].
    { exists (k - 2). intros j Hj.
      pose proof (Hn j (k - 2) Hj H2). pose proof (Hn j k Hj Hk).
      set_unfold. lia. }
    destruct (decide (k - 1 ∈ S)) as [H1|H1].
    { exists (k - 1). intros j Hj.
      pose proof (Hn j (k - 1) Hj H1). pose proof (Hn j k Hj Hk).
      destruct (decide (j = k - 2)) as [->|]; [done|].
      set_unfold. lia. }
    exists k. intros j Hj. pose proof (Hn j k Hj Hk).
    destruct (decide (j = k - 2)) as [->|]; [done|].
    destruct (decide (j = k - 1)) as [->|]; [done|].
    set_unfold. lia. }
  destruct Hsub as [a Hsub].
  etrans; [apply (subseteq_size _ _ Hsub)|].
  rewrite !size_union, !size_singleton by (set_unfold; lia). lia.
Qed.

Section Store.

Variable disk : string -> option (list ArchiveEntry).
Variable F : Type.
Variable es : list ArchiveEntry.

Lemma page_bytes_entries (a a' : ArchiveReader.t) (k : Z) :
  ArchiveReader.entries a' = ArchiveReader.entries a ->
  page_bytes es a' k = page_bytes es a k.
Proof. unfold page_bytes. by intros ->. Qed.

Lemma serves_frame (r r' : ComicReader.t F) :
  archive r' = archive r -> page_cache r' = page_cache r ->
  serves disk es r -> serves disk es r'.
Proof. unfold serves. by intros -> ->. Qed.

(** A request outside the page list reads nothing and changes nothing. *)
Lemma load_page_outside (r : ComicReader.t F) (page_idx : Z) :
  page_cache r !! page_idx = None ->
  Z.of_nat (length (ArchiveReader.entries (archive r))) < 2 ^ 31 ->
  - 2 ^ 31 <= page_idx < 2 ^ 31 ->
  page_idx < 0
  \/ Z.of_nat (length (ArchiveReader.entries (archive r))) <= page_idx ->
  load_page disk page_idx r = ([], r).
Proof.
  intros Hmiss Hlen Hint Hout. unfold load_page. rewrite Hmiss.
  unfold ArchiveReader.read_page.
  assert (Hle : (Z.of_nat (length (ArchiveReader.entries (archive r)))
                 <=? to_size_t page_idx) = true).
  { apply Z.leb_le. destruct Hout as [Hneg|Hge].
    - pose proof (to_size_t_negative page_idx ltac:(lia)). lia.
    - rewrite to_size_t_id by lia. lia. }
  rewrite Hle. cbn [orb]. by destruct r.
Qed.

Lemma load_page_serves_both (r : ComicReader.t F) (page_idx : Z) :
  serves disk es r ->
  - 2 ^ 31 <= page_idx < 2 ^ 31 ->
  serves disk es (snd (load_page disk page_idx r))
  /\ fst (load_page disk page_idx r)
     = match page_bytes es (archive r) page_idx with
       | Some bs => bs
       | None => []
       end.
Proof.
  intros Hs Hint. pose proof Hs as (Hsmall & Hpos & Hidx & Hcache & Hcur).
  destruct Hidx as (Hlen & Hpages & Hinj).
  destruct (page_cache r !! page_idx) as [cached|] eqn:Hlook.
  { rewrite (load_page_hit disk F r page_idx cached Hlook). cbn [fst snd].
    by rewrite (Hcache _ _ Hlook). }
  destruct (decide (page_idx < 0
            \/ (Z.of_nat (length (ArchiveReader.entries (archive r)))
                <= page_idx)))
    as [Hout|Hin].
  { rewrite load_page_outside by (done || lia). cbn [fst snd]. split; [done|].
    unfold page_bytes. destruct Hout as [Hneg|Hge].
    - by rewrite (proj2 (Z.ltb_lt _ _) Hneg).
    - destruct (page_idx <? 0); [done|].
      rewrite (lookup_ge_None_2 (ArchiveReader.entries (archive r))) by lia.
      done. }
  assert (Hrange : 0 <= page_idx
            < Z.of_nat (length (ArchiveReader.entries (archive r)))) by lia.
  clear Hin.
  destruct (lookup_lt_is_Some_2 (ArchiveReader.entries (archive r))
              (Z.to_nat page_idx) ltac:(lia)) as [pg Hpg].
  destruct (Hpages _ _ Hpg) as (Hnn & e & bs & He & Hwf & Hbs).
  assert (Hne : ArchiveReader.current_entry (archive r) <> index_in_archive pg).
  { intros Heq. destruct (Hcur _ _ Hpg Heq) as [d Hd].
    rewrite Z2Nat.id in Hd by lia. congruence. }
  destruct (ArchiveFacts.read_page_reaches disk es Hsmall (archive r)
              (Z.to_nat page_idx) pg e Hpos Hpg Hnn He Hne)
    as (s' & Hread & Hpos' & Hcur' & Hent').
  rewrite Z2Nat.id in Hread by lia.
  rewrite (ArchiveFacts.read_data_well_formed e bs Hwf) in Hread.
  assert (Hbytes : page_bytes es (archive r) page_idx = Some bs).
  { unfold page_bytes. rewrite (proj2 (Z.ltb_ge _ _)) by lia.
    rewrite Hpg. cbn. rewrite He. cbn.
    by rewrite (ArchiveFacts.read_data_well_formed e bs Hwf). }
  rewrite Hbytes.
  unfold load_page. rewrite Hlook, to_size_t_id by lia. rewrite Hread.
  destruct bs as [|b bs']; [done|]. cbn [fst snd]. split; [|done].
  rewrite evict_filter. unfold serves.
  cbn [archive page_cache set_archive set_page_cache].
  split; [done|]. split; [done|]. rewrite Hent'.
  split; [done|]. split.
  - intros k d Hk. rewrite (page_bytes_entries (archive r) s') by done.
    destruct (decide (k = page_idx)) as [->|Hkne].
    + rewrite lookup_insert_eq in Hk. congruence.
    + rewrite lookup_insert_ne in Hk by done.
      apply map_lookup_filter_Some in Hk as [Hk _]. by apply Hcache.
  - intros i pg' Hpg' Heq.
    assert (i = Z.to_nat page_idx) as ->
      by (apply (Hinj _ _ _ _ Hpg' Hpg); congruence).
    rewrite Z2Nat.id by lia. rewrite lookup_insert_eq. by eexists.
Qed.

(** X16. Let every page of the index of the open archive read without
    error and not be empty. A reader that serves the archive (its cache
    holds only bytes of pages of the archive, and the page that the
    stream stands behind is cached) answers every page request with the
    bytes of that page, from the cache or from the archive, and with no
    bytes when the ordinal is no page; it serves the archive afterwards
    as well. A page that exists never comes back empty. *)
Theorem load_page_serves (r : ComicReader.t F) (page_idx : Z) :
  serves disk es r ->
  in_int page_idx ->
  let '(data, r') := load_page disk page_idx r in
  serves disk es r'
  /\ data = match page_bytes es (archive r) page_idx with
            | Some bs => bs
            | None => []
            end
  /\ (0 <= page_idx < ArchiveReader.page_count (archive r) -> data <> []).
Proof.
  intros Hs Hint.
  destruct (load_page_serves_both r page_idx Hs Hint) as [Hs' Hdata].
  destruct (load_page disk page_idx r) as [data r']. cbn [fst snd] in *.
  split; [done|]. split; [done|]. intros Hrange. subst data.
  destruct Hs as (_ & _ & (_ & Hpages & _) & _).
  unfold ArchiveReader.page_count in Hrange. unfold page_bytes.
  rewrite (proj2 (Z.ltb_ge _ _)) by lia.
  destruct (lookup_lt_is_Some_2 (ArchiveReader.entries (archive r))
              (Z.to_nat page_idx) ltac:(lia)) as [pg Hpg].
  destruct (Hpages _ _ Hpg) as (_ & e & bs & He & Hwf & Hbs).
  rewrite Hpg. cbn. rewrite He. cbn.
  by rewrite (ArchiveFacts.read_data_well_formed e bs Hwf).
Qed.

End Store.

Section Drawing.

Variable disk : string -> option (list ArchiveEntry).
Variable term : TermSize.
Variable F : Type.
Variable is_unzoomed : F -> bool.
Variable scaled_size : Z -> Z -> Z -> Z -> F -> Z * Z.
Variable stbi_load_from_memory : list byte -> option (Z * Z * list byte).
Variable stbir_resize : list byte -> Z -> Z -> Z -> Z -> list byte.

Local Abbreviation draw :=
  (draw_comic_view disk term is_unzoomed scaled_size stbi_load_from_memory
     stbir_resize).
Local Abbreviation display :=
  (display_if_loaded term scaled_size stbi_load_from_memory stbir_resize).

(** The cache is in order: narrow, with ordinals far from the limits. *)
Local Abbreviation tidy r :=
  (narrow (page_cache r) /\ small_keys (page_cache r)).

(** Showing a page touches neither the cache nor the archive nor the
    saved progress. *)
Lemma display_frame (img : list byte) (x_offset width : Z)
    (r r' : ComicReader.t F) :
  display img x_offset width r = Some r' ->
  page_cache r' = page_cache r
  /\ archive r' = archive r
  /\ progress r' = progress r.
Proof.
  intros H.
  apply (display_shown term F scaled_size stbi_load_from_memory stbir_resize)
    in H.
  destruct H as (_ & _ & _ & Ha & Hc & _ & _ & _ & _ & _ & Hp & _).
  done.
Qed.

Lemma load_page_progress (page_idx : Z) (r : ComicReader.t F) :
  progress (snd (load_page disk page_idx r)) = progress r.
Proof.
  unfold load_page. destruct (page_cache r !! page_idx); [done|].
  destruct (ArchiveReader.read_page _ _ _) as [[|b data] a]; done.
Qed.

Lemma load_page_tidy (page_idx : Z) (r : ComicReader.t F) :
  tidy r -> Z.abs page_idx < 2 ^ 30 ->
  tidy (snd (load_page disk page_idx r)).
Proof. intros [Hn Hs] Hi. by apply load_page_keeps_narrow. Qed.

Lemma preload_tidy (r : ComicReader.t F) :
  tidy r -> Z.abs (current_page r) < 2 ^ 30 - 1 ->
  tidy (preload_adjacent disk r).
Proof.
  intros Ht Hp. unfold preload_adjacent.
  set (r1 := if _ <? _ then _ else r).
  assert (Ht1 : tidy r1 /\ current_page r1 = current_page r).
  { subst r1. destruct (_ <? _); [|done]. split.
    - apply load_page_tidy; [done|]. rewrite int_add_id by int_range. lia.
    - apply steady_load_page. }
  destruct Ht1 as [Ht1 Hc1]. destruct (_ >? 0); [|done].
  apply load_page_tidy; [done|]. rewrite Hc1, int_sub_id by int_range. lia.
Qed.

Lemma draw_tidy (r r' : ComicReader.t F) :
  tidy r -> Z.abs (current_page r) < 2 ^ 30 - 1 ->
  draw r = Some r' -> tidy r'.
Proof.
  intros Ht Hp Hd.
  apply (draw_stages disk term F is_unzoomed scaled_size
           stbi_load_from_memory stbir_resize) in Hd as (r1 & H1 & ->).
  assert (Hr1 : tidy r1 /\ current_page r1 = current_page r).
  { revert H1.
    apply (show_pages_invariant disk term F is_unzoomed scaled_size
             stbi_load_from_memory stbir_resize
             (fun x => tidy x /\ current_page x = current_page r)).
    - intros x i [Hx Hc] Hi. split.
      + apply load_page_tidy; [done|].
        destruct Hi as [->| ->]; [lia|]. rewrite int_add_id by int_range. lia.
      + rewrite <- Hc. apply steady_load_page.
    - intros img x w x0 x1 [Hx Hc] Hs.
      destruct (display_frame _ _ _ _ _ Hs) as (Hpc & _).
      apply (steady_display term F scaled_size stbi_load_from_memory
               stbir_resize) in Hs as [Hcp _].
      rewrite Hpc, Hcp. done.
    - done. }
  destruct Hr1 as [Ht1 Hc1].
  apply preload_tidy; [done|]. cbn. lia.
Qed.

Lemma preload_serves (es : list ArchiveEntry) (r : ComicReader.t F) :
  serves disk es r -> serves disk es (preload_adjacent disk r).
Proof.
  intros Hs. unfold preload_adjacent.
  set (r1 := if _ <? _ then _ else r).
  assert (Hs1 : serves disk es r1).
  { subst r1. destruct (_ <? _); [|done].
    apply load_page_serves_both; [done|apply to_int_range]. }
  destruct (_ >? 0); [|done].
  apply load_page_serves_both; [done|apply to_int_range].
Qed.

Lemma draw_serves (es : list ArchiveEntry) (r r' : ComicReader.t F) :
  serves disk es r -> in_int (current_page r) ->
  draw r = Some r' -> serves disk es r'.
Proof.
  intros Hs Hp Hd.
  apply (draw_stages disk term F is_unzoomed scaled_size
           stbi_load_from_memory stbir_resize) in Hd as (r1 & H1 & ->).
  assert (Hr1 : serves disk es r1 /\ current_page r1 = current_page r).
  { revert H1.
    apply (show_pages_invariant disk term F is_unzoomed scaled_size
             stbi_load_from_memory stbir_resize
             (fun x => serves disk es x /\ current_page x = current_page r)).
    - intros x i [Hx Hc] Hi. split.
      + apply load_page_serves_both; [done|].
        destruct Hi as [->| ->]; [by rewrite Hc|apply to_int_range].
      + rewrite <- Hc. apply steady_load_page.
    - intros img x w x0 x1 [Hx Hc] Hsh.
      destruct (display_frame _ _ _ _ _ Hsh) as (Hpc & Ha & _).
      apply (steady_display term F scaled_size stbi_load_from_memory
               stbir_resize) in Hsh as [Hcp _].
      split; [by apply (serves_frame disk F es x0)|congruence].
    - done. }
  destruct Hr1 as [Hs1 _].
  apply preload_serves. by apply (serves_frame disk F es r1).
Qed.

Lemma preload_progress (r : ComicReader.t F) :
  progress (preload_adjacent disk r) = progress r.
Proof.
  unfold preload_adjacent.
  set (r3 := if _ <? _ then _ else r).
  assert (H3 : progress r3 = progress r).
  { subst r3. destruct (_ <? _); [|done]. apply load_page_progress. }
  clearbody r3. destruct (_ >? 0); [|congruence].
  rewrite load_page_progress. congruence.
Qed.

(** The pages that have been shown leave the saved progress alone. *)
Lemma show_pages_progress (r r1 : ComicReader.t F) :
  show_pages disk term is_unzoomed scaled_size stbi_load_from_memory
    stbir_resize r = Some r1 ->
  progress r1 = progress r.
Proof.
  apply (show_pages_invariant disk term F is_unzoomed scaled_size
           stbi_load_from_memory stbir_resize
           (fun x => progress x = progress r)).
  - intros x i Hx _. by rewrite load_page_progress.
  - intros img x w x0 x1 Hx Hs.
    destruct (display_frame _ _ _ _ _ Hs) as (_ & _ & Hp). congruence.
  - done.
Qed.

Lemma draw_progress (r r' : ComicReader.t F) :
  draw r = Some r' ->
  progress r'
  = <[current_comic_filename r := current_page r]> (progress r).
Proof.
  intros Hd.
  apply (draw_stages disk term F is_unzoomed scaled_size
           stbi_load_from_memory stbir_resize) in Hd as (r1 & H1 & ->).
  pose proof (show_pages_progress _ _ H1) as Hp1.
  apply (steady_show_pages disk term F is_unzoomed scaled_size
           stbi_load_from_memory stbir_resize) in H1
    as (Hc1 & _ & _ & _ & Hn1 & _).
  rewrite preload_progress. cbn [progress set_progress emit set_stdout
    current_comic_filename current_page].
  rewrite Hp1, Hc1, Hn1. done.
Qed.

(** X24. A redraw that returns has recorded the page that is shown
    under the name of the open comic, and has left the saved pages of
    all other comics as they were. The page is recorded after the pages
    have been shown (lines 764-765); a redraw that fails before that is
    not covered. *)
Theorem redraw_records_page (r r' : ComicReader.t F) :
  draw r = Some r' ->
  progress r' !! current_comic_filename r' = Some (current_page r')
  /\ forall nm, nm <> current_comic_filename r ->
       progress r' !! nm = progress r !! nm.
Proof.
  intros Hd.
  pose proof (steady_draw disk term F is_unzoomed scaled_size
                stbi_load_from_memory stbir_resize r r' Hd)
    as (Hcp & _ & _ & _ & Hnm & _).
  rewrite Hnm, Hcp, (draw_progress r r' Hd). split.
  - by rewrite lookup_insert_eq.
  - intros nm Hne. by rewrite lookup_insert_ne.
Qed.

End Drawing.

Section Viewing.

Variable char_is_signed : bool.
Variable disk : string -> option (list ArchiveEntry).
Variable listing : string -> list FileEntry.
Variable term : TermSize.
Variable F : Type.
Variable f_one : F.
Variables (is_unzoomed : F -> bool) (zoom_in zoom_out : F -> F).
Variable scaled_size : Z -> Z -> Z -> Z -> F -> Z * Z.
Variable stbi_load_from_memory : list byte -> option (Z * Z * list byte).
Variable stbir_resize : list byte -> Z -> Z -> Z -> Z -> list byte.

Local Abbreviation body :=
  (run_body char_is_signed disk listing term f_one is_unzoomed zoom_in zoom_out
     scaled_size stbi_load_from_memory stbir_resize).
Local Abbreviation viewing :=
  (view disk term f_one is_unzoomed zoom_in zoom_out scaled_size
     stbi_load_from_memory stbir_resize).
Local Abbreviation draw :=
  (draw_comic_view disk term is_unzoomed scaled_size stbi_load_from_memory
     stbir_resize).
Local Abbreviation tidy r :=
  (narrow (page_cache r) /\ small_keys (page_cache r)).

Lemma empty_tidy (r : ComicReader.t F) : page_cache r = ∅ -> tidy r.
Proof.
  intros ->. split; intros j; rewrite dom_empty_L; set_solver.
Qed.

(** What panning and reading an escape sequence leave alone. *)
Local Abbreviation kept r r0 :=
  (entries r0 = entries r
   /\ current_dir r0 = current_dir r
   /\ selected_idx r0 = selected_idx r
   /\ archive r0 = archive r
   /\ page_cache r0 = page_cache r
   /\ viewing_comic r0 = viewing_comic r
   /\ current_comic_filename r0 = current_comic_filename r
   /\ progress r0 = progress r
   /\ current_page r0 = current_page r).

(** Panning touches the pan offsets only. *)
Lemma do_pan_frame (dir : ascii) (n : bool) (r : ComicReader.t F) :
  kept r (snd (do_pan is_unzoomed dir n r)).
Proof.
  unfold do_pan. destruct (is_unzoomed _); [done|].
  repeat (destruct (Ascii.eqb dir _); [done|]). done.
Qed.

Lemma shift_arrow_frame (r : ComicReader.t F) :
  kept r (shift_arrow is_unzoomed r).
Proof.
  unfold shift_arrow, read_char.
  destruct (stdin r) as [|semi [|two [|dir rest]]]; try done. cbn.
  destruct (_ || _); [done|]. destruct (negb _); [|done].
  repeat (destruct (Ascii.eqb dir _); [exact (do_pan_frame _ _ _)|]).
  done.
Qed.

Lemma kept_keyed (r r0 : ComicReader.t F) : kept r r0 -> keyed r r0.
Proof.
  intros (?&?&?&?&?&?&?&?&?). unfold keyed. repeat (split; [done|]).
  by left.
Qed.

(** The three ways in which a key of the comic view ends: the view is
    left; the key changes the reader and nothing is drawn; the key
    changes the reader and the page is drawn again. *)
Lemma view_cases (r r' : ComicReader.t F) (c : ascii) :
  viewing c r = Some r' ->
  r' = leave_comic r
  \/ exists r0, keyed r r0 /\ (r' = r0 \/ draw r0 = Some r').
Proof.
  assert (Hsame : forall r0 : ComicReader.t F, kept r r0 ->
            Some r0 = Some r' ->
            r' = leave_comic r
            \/ exists r0, keyed r r0 /\ (r' = r0 \/ draw r0 = Some r')).
  { intros r0 Hk [= <-]. right. exists r0. split; [by apply kept_keyed|by left]. }
  assert (Hdraw : forall r0 : ComicReader.t F, keyed r r0 ->
            draw r0 = Some r' ->
            r' = leave_comic r
            \/ exists r0, keyed r r0 /\ (r' = r0 \/ draw r0 = Some r')).
  { intros r0 Hk Hd. right. exists r0. split; [done|by right]. }
  assert (Hpan : forall d,
            (let '(n, r0) := do_pan is_unzoomed d false r in
             redraw_if disk term is_unzoomed scaled_size
               stbi_load_from_memory stbir_resize n r0) = Some r' ->
            r' = leave_comic r
            \/ exists r0, keyed r r0 /\ (r' = r0 \/ draw r0 = Some r')).
  { intros d. pose proof (do_pan_frame d false r) as Hk.
    destruct (do_pan is_unzoomed d false r) as [[|] r0];
      cbn [snd] in Hk; cbn [redraw_if].
    - apply Hdraw. by apply kept_keyed.
    - by apply Hsame. }
  unfold view.
  destruct (Ascii.eqb c ESC).
  { unfold view_escape, read_char.
    destruct (stdin r) as [|seq0 [|seq1 rest]];
      [intros [= <-]; by left|by apply Hsame|]. cbn.
    destruct (Ascii.eqb seq0 _); [|by apply Hsame].
    destruct (Ascii.eqb seq1 "1").
    { apply Hsame.
      exact (shift_arrow_frame (set_stdin rest (set_stdin (seq1 :: rest) r))). }
    destruct (_ && _).
    { apply Hdraw. unfold keyed. repeat (split; [done|]). right. by left. }
    destruct (_ && _); [|by apply Hsame].
    apply Hdraw. unfold keyed. repeat (split; [done|]). right. right. by left. }
  destruct (_ && _).
  { apply Hdraw. unfold keyed. repeat (split; [done|]). right. by left. }
  destruct (_ && _).
  { apply Hdraw. unfold keyed. repeat (split; [done|]). right. right. by left. }
  destruct (is_key r c "first_page").
  { apply Hdraw. unfold keyed. repeat (split; [done|]). do 3 right. by left. }
  destruct (is_key r c "last_page").
  { apply Hdraw. unfold keyed. repeat (split; [done|]). by do 4 right. }
  destruct (_ || _); [apply Hdraw; by apply kept_keyed|].
  destruct (is_key r c "toggle_help"); [apply Hdraw; by apply kept_keyed|].
  destruct (is_key r c "quit"); [intros [= <-]; by left|].
  destruct (is_key r c "zoom_in"); [apply Hdraw; by apply kept_keyed|].
  destruct (_ || _); [apply Hdraw; by apply kept_keyed|].
  destruct (is_key r c "zoom_reset"); [apply Hdraw; by apply kept_keyed|].
  repeat (destruct (is_key r c _); [apply Hpan|]). by apply Hsame.
Qed.

Lemma view_tidy (r r' : ComicReader.t F) (c : ascii) :
  tidy r -> Z.abs (current_page r) < 2 ^ 30 - 3 ->
  0 <= page_count r < 2 ^ 30 ->
  viewing c r = Some r' ->
  tidy r'.
Proof.
  intros Ht Hp Hc Hv.
  assert (Hstep : 1 <= page_step r <= 2)
    by (unfold page_step; destruct (double_page _); lia).
  destruct (view_cases r r' c Hv) as [->|(r0 & Hk & Hr)];
    [by apply empty_tidy|].
  destruct Hk as (_ & _ & _ & _ & Hpc & _ & _ & _ & Hcp).
  destruct Hr as [->|Hd]; [by rewrite Hpc|].
  apply (draw_tidy disk term F is_unzoomed scaled_size stbi_load_from_memory
           stbir_resize r0 r'); [by rewrite Hpc| |done].
  destruct Hcp as [->|[->|[->|[->| ->]]]];
    rewrite ?int_add_id, ?int_sub_id by int_range; lia.
Qed.

(** X15. While a comic is viewed, a key press that is handled to the end
    (the redraw can fail) leaves at most three pages in the cache,
    whatever the key: the cached ordinals stay pairwise at most two
    apart. The cache is taken narrow before the key, with the page
    ordinals far from the limits of [int]. *)
Theorem view_cache_at_most_three (r r' : ComicReader.t F) (c : ascii)
    (ctl : Control) :
  viewing_comic r = true ->
  narrow (page_cache r) -> small_keys (page_cache r) ->
  Z.abs (current_page r) < 2 ^ 30 - 3 ->
  0 <= page_count r < 2 ^ 30 ->
  body c r = Some (ctl, r') ->
  ctl = Continue
  /\ narrow (page_cache r') /\ small_keys (page_cache r')
  /\ (size (page_cache r') <= 3)%nat.
Proof.
  intros Hv Hn Hs Hp Hc Hb.
  destruct (body_viewing char_is_signed disk listing term F f_one is_unzoomed
              zoom_in zoom_out scaled_size stbi_load_from_memory stbir_resize
              r c ctl r' Hv Hb) as [-> Hview].
  destruct (view_tidy r r' c (conj Hn Hs) Hp Hc Hview) as [Hn' Hs'].
  repeat split; try done. by apply narrow_size.
Qed.

(** In the comic view the reader serves [es]; in the file list the cache
    is empty. The page ordinal and the saved ordinals are [int]s. *)
Local Abbreviation sound es r :=
  ((if viewing_comic r then serves disk es r else page_cache r = ∅)
   /\ in_int (current_page r)
   /\ map_Forall (fun (_ : string) p => in_int p) (progress r)).

Lemma view_sound (es : list ArchiveEntry) (r r' : ComicReader.t F) (c : ascii) :
  viewing_comic r = true -> serves disk es r -> in_int (current_page r) ->
  map_Forall (fun (_ : string) p => in_int p) (progress r) ->
  viewing c r = Some r' ->
  sound es r'.
Proof.
  intros Hv Hs Hp Hsaved Hview.
  destruct (view_cases r r' c Hview) as [->|(r0 & Hk & Hr)]; [done|].
  destruct Hk as (_ & _ & _ & Ha & Hpc & Hv0 & _ & Hpr & Hcp).
  assert (Hint : in_int (current_page r0)).
  { destruct Hcp as [->|[->|[->|[->| ->]]]];
      [done|apply to_int_range| |int_range|apply to_int_range].
    pose proof (to_int_range (current_page r - page_step r)).
    unfold in_int, int_sub in *. lia. }
  assert (Hs0 : serves disk es r0) by (by apply (serves_frame disk F es r)).
  destruct Hr as [->|Hd].
  - rewrite Hv0, Hv, Hpr. done.
  - pose proof (steady_draw disk term F is_unzoomed scaled_size
                  stbi_load_from_memory stbir_resize r0 r' Hd)
      as (Hcp' & _ & _ & Hvv & _).
    rewrite Hvv, Hv0, Hv, Hcp'.
    rewrite (draw_progress disk term F is_unzoomed scaled_size
               stbi_load_from_memory stbir_resize r0 r' Hd), Hpr.
    split; [|split; [done|]].
    + by apply (draw_serves disk term F is_unzoomed scaled_size
                  stbi_load_from_memory stbir_resize es r0 r').
    + by apply map_Forall_insert_2.
Qed.

End Viewing.

(** A session that [open] returns on a sound archive, with nothing
    cached, serves that archive. *)
Lemma open_serves (sg : bool) (disk : string -> option (list ArchiveEntry))
    (F : Type) (path : string) (es : list ArchiveEntry)
    (s0 a : ArchiveReader.t) (ok : bool) (r : ComicReader.t F) :
  disk path = Some es ->
  Z.of_nat (length es) < 2 ^ 31 ->
  (forall e, e ∈ es -> ArchiveReader.is_image (entry_pathname e) = true ->
     exists bs, ArchiveReader.well_formed e bs /\ bs <> []) ->
  ArchiveReader.open sg disk path s0 = Some (ok, a) ->
  archive r = a -> page_cache r = ∅ ->
  serves disk es r.
Proof.
  intros Hdisk Hsmall Hsound Hopen Ha Hcache.
  destruct (ArchiveFacts.open_positioned sg disk path es s0 a ok Hdisk Hopen)
    as (Hpos & Hcur & _ & Hperm & _).
  destruct (ArchiveFacts.indexed_pages sg disk path es s0 a ok Hdisk Hsmall
              Hopen) as [Hpages Hinj].
  unfold serves. rewrite Ha, Hcache.
  split; [done|]. split; [done|]. split; [|split].
  - split; [|split; [|done]].
    + rewrite <- (Permutation_length Hperm),
        (ArchiveMore.index_entries_length es 0).
      apply length_filter.
    + intros i pg Hpg. destruct (Hpages i pg Hpg) as (Hnn & e & He & Hname).
      split; [done|]. exists e.
      assert (Himg : ArchiveReader.is_image (entry_pathname e) = true).
      { rewrite Hname. apply (ArchiveMore.index_entries_image es 0).
        apply (Permutation_in _ (Permutation_sym Hperm)).
        apply list_elem_of_In. by eapply list_elem_of_lookup_2. }
      destruct (Hsound e (list_elem_of_lookup_2 _ _ _ He) Himg)
        as (bs & Hwf & Hbs).
      by exists bs.
  - intros k d Hk. by rewrite lookup_empty in Hk.
  - intros i pg Hpg Heq. destruct (Hpages i pg Hpg) as [Hnn _]. lia.
Qed.

Section Running.

Variable char_is_signed : bool.
Variable disk : string -> option (list ArchiveEntry).
Variable listing : string -> list FileEntry.
Variable term : TermSize.
Variable F : Type.
Variable f_one : F.
Variables (is_unzoomed : F -> bool) (zoom_in zoom_out : F -> F).
Variable scaled_size : Z -> Z -> Z -> Z -> F -> Z * Z.
Variable stbi_load_from_memory : list byte -> option (Z * Z * list byte).
Variable stbir_resize : list byte -> Z -> Z -> Z -> Z -> list byte.

(** Every archive on the disk has fewer than 2^31 entries, and its images
    read without error and are not empty. *)
Hypothesis disk_sound : sound_disk disk.

Local Abbreviation body :=
  (run_body char_is_signed disk listing term f_one is_unzoomed zoom_in zoom_out
     scaled_size stbi_load_from_memory stbir_resize).
Local Abbreviation draw :=
  (draw_comic_view disk term is_unzoomed scaled_size stbi_load_from_memory
     stbir_resize).

(** The state between two key presses: in the comic view the reader
    serves an archive of the disk, in the file list nothing is cached;
    the page ordinal and the saved ordinals are [int]s. *)
Local Abbreviation sound r :=
  ((if viewing_comic r then exists es, serves disk es r
    else page_cache r = ∅)
   /\ in_int (current_page r)
   /\ map_Forall (fun _ p => in_int p) (progress r)).


Lemma open_true_on_disk (path : string) (s0 a : ArchiveReader.t) :
  ArchiveReader.open char_is_signed disk path s0 = Some (true, a) ->
  exists es, disk path = Some es.
Proof.
  unfold ArchiveReader.open. destruct (disk path) as [es|]; [by eexists|].
  intros [=].
Qed.

Lemma file_list_sound (r r' : ComicReader.t F) :
  viewing_comic r = false -> sound r ->
  viewing_comic r' = false -> page_cache r' = page_cache r ->
  current_page r' = current_page r -> progress r' = progress r ->
  sound r'.
Proof.
  intros Hv (Hc & Hp & Hs) Hv' Hc' Hp' Hs'. rewrite Hv in Hc.
  rewrite Hv', Hc', Hp', Hs'. done.
Qed.

Lemma open_comic_sound (fe : FileEntry) (r r' : ComicReader.t F) :
  viewing_comic r = false -> sound r ->
  open_comic char_is_signed disk term f_one is_unzoomed scaled_size
    stbi_load_from_memory stbir_resize fe r = Some r' ->
  sound r'.
Proof.
  intros Hv Hsound Hopen. pose proof Hsound as (Hc & Hp & Hs).
  rewrite Hv in Hc. unfold open_comic in Hopen.
  destruct (ArchiveReader.open _ _ _ _) as [[ok a]|] eqn:Ho; [|done].
  cbn [mbind option_bind] in Hopen. destruct ok.
  - destruct (open_true_on_disk _ _ _ Ho) as [es Hes].
    destruct (disk_sound _ _ Hes) as [Hsmall Himgs].
    cbv zeta in Hopen.
    match type of Hopen with
    | draw_comic_view _ _ _ _ _ _ ?x = _ => set (rX := x) in Hopen
    end.
    assert (HX : archive rX = a /\ page_cache rX = ∅
                 /\ viewing_comic rX = true /\ progress rX = progress r
                 /\ in_int (current_page rX)).
    { subst rX. cbn.
      destruct (progress r !! fe_name fe) as [saved|] eqn:Hsaved; cbn.
      - pose proof (Hs _ _ Hsaved) as Hint. cbn in Hint.
        destruct (_ >=? _); cbn; repeat split; (done || int_range).
      - repeat split; (done || int_range). }
    clearbody rX. destruct HX as (Ha & Hcache & HvX & HpX & HcX).
    pose proof (steady_draw disk term F is_unzoomed scaled_size
                  stbi_load_from_memory stbir_resize rX r' Hopen)
      as (Hcp' & _ & _ & Hvv & _).
    rewrite Hvv, HvX, Hcp'.
    rewrite (draw_progress disk term F is_unzoomed scaled_size
               stbi_load_from_memory stbir_resize rX r' Hopen), HpX.
    split; [|split; [done|]].
    + exists es.
      apply (draw_serves disk term F is_unzoomed scaled_size
               stbi_load_from_memory stbir_resize es rX r'); [|done|done].
      by apply (open_serves char_is_signed disk F (full_path fe) es
                  (archive r) a true).
    + by apply map_Forall_insert_2.
  - injection Hopen as <-. by apply (file_list_sound r).
Qed.

Lemma browse_sound (r r' : ComicReader.t F) (c : ascii) (ctl : Control) :
  viewing_comic r = false -> sound r ->
  browse char_is_signed disk listing term f_one is_unzoomed scaled_size
    stbi_load_from_memory stbir_resize c r = Some (ctl, r') ->
  sound r'.
Proof.
  intros Hv Hsound. unfold browse.
  assert (Hscan : forall r0 : ComicReader.t F,
            viewing_comic r0 = false -> page_cache r0 = page_cache r ->
            current_page r0 = current_page r -> progress r0 = progress r ->
            sound (draw_file_list (scan_directory listing r0))).
  { intros r0 H1 H2 H3 H4. apply (file_list_sound r); try done;
      unfold scan_directory; cbn; by destruct (_ >=? _). }
  repeat match goal with
  | |- (if ?b then _ else _) = _ -> _ => destruct b
  end;
  try (intros [= <- <-]; first
        [ exact Hsound
        | by apply Hscan
        | by apply (file_list_sound r) ]).
  - unfold browse_arrows, read_char.
    destruct (stdin r) as [|seq0 [|seq1 rest]];
      try (intros [= <- <-]; by apply (file_list_sound r)).
    cbn. repeat match goal with
    | |- Some (_, if ?b then _ else _) = _ -> _ => destruct b
    end; intros [= <- <-]; by apply (file_list_sound r).
  - unfold press_enter.
    destruct (_ || _); [intros [= <- <-]; exact Hsound|].
    destruct (_ <? 0); [done|].
    destruct (entries r !! _) as [fe|]; [|done]. cbn.
    destruct (is_directory fe).
    + intros [= <- <-]. by apply Hscan.
    + destruct (open_comic _ _ _ _ _ _ _ _ fe r) as [r1|] eqn:Ho; [|done].
      cbn. intros [= <- <-]. by apply (open_comic_sound fe r).
Qed.

(** X17. On a disk whose archives are sound, a key press takes a
    consistent reader to a consistent reader, in the file list and in the
    comic view: while a comic is viewed the cache holds only bytes of its
    pages and the page behind which the stream stands is cached, so that
    every later request is answered with the page asked for. *)
Theorem run_body_consistent (r r' : ComicReader.t F) (c : ascii)
    (ctl : Control) :
  consistent disk r ->
  body c r = Some (ctl, r') ->
  consistent disk r'.
Proof.
  unfold consistent. intros Hsound Hb.
  destruct (viewing_comic r) eqn:Hv.
  - destruct (body_viewing char_is_signed disk listing term F f_one
                is_unzoomed zoom_in zoom_out scaled_size
                stbi_load_from_memory stbir_resize r c ctl r' Hv Hb)
      as [_ Hview].
    destruct Hsound as ([es Hs] & Hp & Hsaved).
    pose proof (view_sound disk term F f_one is_unzoomed zoom_in zoom_out
                  scaled_size stbi_load_from_memory stbir_resize es r r' c
                  Hv Hs Hp Hsaved Hview) as (H1 & H2 & H3).
    split; [|done]. revert H1.
    destruct (viewing_comic r'); intros H1; [by exists es|done].
  - unfold run_body in Hb. rewrite Hv in Hb.
    apply (browse_sound r r' c ctl Hv); [|done].
    by rewrite Hv.
Qed.

End Running.

(** The sample disk is sound, and a reader that has just opened one of
    its archives serves it. *)
Lemma sample_disk_sound : sound_disk Sample.disk.
Proof.
  intros path es H. unfold Sample.disk in H.
  destruct (String.eqb path "/lib/pages.cbz");
    [|destruct (String.eqb path "/lib/six.cbz"); [|done]];
    injection H as <-; (split; [by vm_compute|]); intros e He Himg;
    repeat (apply elem_of_cons in He as [->|He]);
    try (by apply elem_of_nil in He);
    try (vm_compute in Himg; discriminate Himg);
    eexists; (split; [split; reflexivity|discriminate]).
Qed.

Lemma sample_just_opened_serves :
  serves Sample.disk Sample.six_cbz
    (set_archive (Sample.session "/lib/six.cbz")
       (Sample.browsing default_config ∅ 3)).
Proof.
  apply (open_serves true Sample.disk Z "/lib/six.cbz" Sample.six_cbz
           ArchiveReader.initial (Sample.session "/lib/six.cbz") true).
  - reflexivity.
  - by vm_compute.
  - apply (sample_disk_sound "/lib/six.cbz"). reflexivity.
  - by vm_compute.
  - reflexivity.
  - reflexivity.
Qed.

Lemma view_cache_at_most_three_witness :
  exists r', Sample.run_body "l" Sample.viewing_six = Some (Continue, r')
    /\ (size (page_cache r') <= 3)%nat.
Proof.
  assert (Hrun : exists r',
            Sample.run_body "l" Sample.viewing_six = Some (Continue, r'))
    by (eexists; by vm_compute).
  destruct Hrun as [r' Hrun]. exists r'. split; [exact Hrun|].
  destruct (view_cache_at_most_three true Sample.disk Sample.listing
              Sample.term Z Sample.f_one Sample.is_unzoomed Sample.zoom_in
              Sample.zoom_out Sample.scaled_size Sample.stbi_load_from_memory
              Sample.stbir_resize Sample.viewing_six r' "l" Continue)
    as (_ & _ & _ & Hsize).
  - reflexivity.
  - apply (empty_tidy Z). reflexivity.
  - apply (empty_tidy Z). reflexivity.
  - vm_compute. reflexivity.
  - vm_compute. split; [discriminate|reflexivity].
  - exact Hrun.
  - exact Hsize.
Defined.

Lemma load_page_serves_witness :
  let r := set_archive (Sample.session "/lib/six.cbz")
             (Sample.browsing default_config ∅ 3) in
  let '(data, r') := load_page Sample.disk 0 r in
  serves Sample.disk Sample.six_cbz r'
  /\ data = match page_bytes Sample.six_cbz (archive r) 0 with
            | Some bs => bs
            | None => []
            end
  /\ (0 <= 0 < ArchiveReader.page_count (archive r) -> data <> []).
Proof.
  apply (load_page_serves Sample.disk Z Sample.six_cbz).
  - exact sample_just_opened_serves.
  - unfold in_int. lia.
Defined.

Lemma run_body_consistent_witness :
  consistent Sample.disk (Sample.opened default_config ∅ 3).
Proof.
  apply (run_body_consistent true Sample.disk Sample.listing Sample.term Z
           Sample.f_one Sample.is_unzoomed Sample.zoom_in Sample.zoom_out
           Sample.scaled_size Sample.stbi_load_from_memory Sample.stbir_resize
           sample_disk_sound (Sample.browsing default_config ∅ 3)
           (Sample.opened default_config ∅ 3) "010"%char Continue).
  - split; [reflexivity|]. split; [unfold in_int; cbn; lia|].
    apply map_Forall_empty.
  - by vm_compute.
Defined.

Lemma redraw_records_page_witness :
  exists r',
    draw_comic_view Sample.disk Sample.term Sample.is_unzoomed
      Sample.scaled_size Sample.stbi_load_from_memory Sample.stbir_resize
      Sample.viewing_six = Some r'
    /\ progress r' !! "six.cbz"%string = Some 0.
Proof.
  assert (Hdraw : exists r',
            draw_comic_view Sample.disk Sample.term Sample.is_unzoomed
              Sample.scaled_size Sample.stbi_load_from_memory
              Sample.stbir_resize Sample.viewing_six = Some r')
    by (eexists; by vm_compute).
  destruct Hdraw as [r' Hdraw]. exists r'. split; [exact Hdraw|].
  destruct (redraw_records_page Sample.disk Sample.term Z Sample.is_unzoomed
              Sample.scaled_size Sample.stbi_load_from_memory
              Sample.stbir_resize Sample.viewing_six r' Hdraw) as [Hrec _].
  destruct (steady_draw Sample.disk Sample.term Z Sample.is_unzoomed
              Sample.scaled_size Sample.stbi_load_from_memory
              Sample.stbir_resize Sample.viewing_six r' Hdraw)
    as (Hcp & _ & _ & _ & Hnm & _).
  rewrite Hnm, Hcp in Hrec. exact Hrec.
Defined.

End ComicMore.

(** * The keys of the two screens *)

Module KeysMore.
Import ComicReader ComicFacts.

Section Keys.

Variable char_is_signed : bool.
Variable disk : string -> option (list ArchiveEntry).
Variable listing : string -> list FileEntry.
Variable term : TermSize.
Variable F : Type.
Variable f_one : F.
Variables (is_unzoomed : F -> bool) (zoom_in zoom_out : F -> F).
Variable scaled_size : Z -> Z -> Z -> Z -> F -> Z * Z.
Variable stbi_load_from_memory : list byte -> option (Z * Z * list byte).
Variable stbir_resize : list byte -> Z -> Z -> Z -> Z -> list byte.

Local Abbreviation body :=
  (run_body char_is_signed disk listing term f_one is_unzoomed zoom_in zoom_out
     scaled_size stbi_load_from_memory stbir_resize).
Local Abbreviation viewing :=
  (view disk term f_one is_unzoomed zoom_in zoom_out scaled_size
     stbi_load_from_memory stbir_resize).
Local Abbreviation draw :=
  (draw_comic_view disk term is_unzoomed scaled_size stbi_load_from_memory
     stbir_resize).

(** The viewing branch for a key that is bound to one name only. *)
Ltac only_key Hb :=
  let Hk := fresh "Hk" in
  let Hesc := fresh "Hesc" in
  destruct (bound_only_key _ _ _ _ Hb) as [Hk Hesc];
  unfold view; rewrite Hesc;
  repeat match goal with
  | |- context [is_key ?r ?c ?o] =>
      rewrite (bound_only_other _ r c _ o Hb eq_refl eq_refl)
  end;
  rewrite ?Hk; cbn [andb orb].


(** X19. A key press executes the [break] of the key loop exactly when
    the reader is in the file list and the key is the quit key, and the
    reader is then as it was: in the comic view no key press executes
    it. (The loop also ends when the input ends and when an exception
    leaves it; this is about [break] only.) *)
Theorem break_only_from_file_list (r r' : ComicReader.t F) (c : ascii) :
  body c r = Some (Break, r')
  <-> viewing_comic r = false /\ is_key r c "quit" = true /\ r' = r.
Proof.
  unfold run_body. split.
  - destruct (viewing_comic r).
    { by destruct (view _ _ _ _ _ _ _ _ _ _ _). }
    unfold browse.
    destruct (is_key r c "quit"); [by intros [= <-]|].
    repeat match goal with
    | |- (if ?b then _ else _) = _ -> _ => destruct b; [done|]
    end.
    destruct (_ || _); [|done].
    by destruct (press_enter _ _ _ _ _ _ _ _ _).
  - intros (-> & Hq & ->). unfold browse. by rewrite Hq.
Qed.



(** The file list is the same in two readers. *)
Local Abbreviation same_list r r' :=
  (entries r' = entries r /\ selected_idx r' = selected_idx r
   /\ current_dir r' = current_dir r).

Lemma load_page_list (page_idx : Z) (r : ComicReader.t F) :
  same_list r (snd (load_page disk page_idx r)).
Proof.
  unfold load_page. destruct (page_cache r !! page_idx); [done|].
  destruct (ArchiveReader.read_page _ _ _) as [[|b data] a]; done.
Qed.

Lemma display_list (img : list byte) (x_offset width : Z)
    (r r' : ComicReader.t F) :
  display_if_loaded term scaled_size stbi_load_from_memory stbir_resize
    img x_offset width r = Some r' ->
  same_list r r'.
Proof.
  intros H.
  apply (display_shown term F scaled_size stbi_load_from_memory stbir_resize)
    in H.
  destruct H as (He & Hd & Hs & _). done.
Qed.

Lemma same_list_trans (r1 r2 r3 : ComicReader.t F) :
  same_list r1 r2 -> same_list r2 r3 -> same_list r1 r3.
Proof. intros (-> & -> & ->) (-> & -> & ->). done. Qed.

Lemma preload_list (r : ComicReader.t F) :
  same_list r (preload_adjacent disk r).
Proof.
  unfold preload_adjacent.
  set (r1 := if _ <? _ then _ else r).
  assert (H1 : same_list r r1).
  { subst r1. destruct (_ <? _); [apply load_page_list|done]. }
  clearbody r1. destruct (_ >? 0); [|done].
  eapply same_list_trans; [exact H1|apply load_page_list].
Qed.

Lemma draw_list (r r' : ComicReader.t F) :
  draw r = Some r' -> same_list r r'.
Proof.
  intros Hd.
  apply (draw_stages disk term F is_unzoomed scaled_size
           stbi_load_from_memory stbir_resize) in Hd as (r1 & H1 & ->).
  assert (Hr1 : same_list r r1).
  { revert H1.
    apply (show_pages_invariant disk term F is_unzoomed scaled_size
             stbi_load_from_memory stbir_resize (fun x => same_list r x)).
    - intros x i Hx _.
      eapply same_list_trans; [exact Hx|apply load_page_list].
    - intros img x w x0 x1 Hx Hs.
      eapply same_list_trans; [exact Hx|by apply (display_list img x w)].
    - done. }
  eapply same_list_trans; [exact Hr1|].
  eapply same_list_trans; [|apply preload_list]. done.
Qed.

Lemma view_list (r r' : ComicReader.t F) (c : ascii) :
  viewing c r = Some r' -> same_list r r'.
Proof.
  intros Hview.
  destruct (ComicMore.view_cases disk term F f_one is_unzoomed zoom_in
              zoom_out scaled_size stbi_load_from_memory stbir_resize
              r r' c Hview) as [->|(r0 & Hk & Hr)]; [done|].
  destruct Hk as (He & Hd & Hs & _).
  destruct Hr as [->|Hdraw]; [done|].
  eapply same_list_trans; [|by apply draw_list]. done.
Qed.

(** The cursor is on an entry of the list, a list of fewer than 2^31
    entries. *)
Local Abbreviation on_entry r :=
  (0 <= selected_idx r < Z.of_nat (length (entries r))
   /\ Z.of_nat (length (entries r)) < 2 ^ 31).

Lemma same_list_on_entry (r r' : ComicReader.t F) :
  same_list r r' -> on_entry r -> on_entry r'.
Proof. intros (-> & -> & _). done. Qed.

Lemma scan_on_entry (r : ComicReader.t F) :
  (forall d, listing d <> [] /\ Z.of_nat (length (listing d)) < 2 ^ 31) ->
  0 <= selected_idx r ->
  on_entry (draw_file_list (scan_directory listing r)).
Proof.
  intros Hlisting Hsel. unfold scan_directory. cbn.
  destruct (Hlisting (current_dir r)) as [Hne Hsmall].
  assert (Hpos : 0 < Z.of_nat (length (listing (current_dir r))))
    by (destruct (listing (current_dir r)); [done|cbn; lia]).
  rewrite to_int_id by int_range.
  destruct (Z.geb_spec (selected_idx r)
              (Z.of_nat (length (listing (current_dir r))))) as [Hge|Hlt];
    cbn; lia.
Qed.

Lemma open_comic_list (fe : FileEntry) (r r' : ComicReader.t F) :
  open_comic char_is_signed disk term f_one is_unzoomed scaled_size
    stbi_load_from_memory stbir_resize fe r = Some r' ->
  same_list r r'.
Proof.
  unfold open_comic.
  destruct (ArchiveReader.open _ _ _ _) as [[[|] a]|];
    cbn [mbind option_bind]; [| |done].
  - cbv zeta. intros Hd. apply draw_list in Hd.
    eapply same_list_trans; [|exact Hd].
    cbn. destruct (progress r !! fe_name fe); cbn; [|done].
    by destruct (_ >=? _).
  - by intros [= <-].
Qed.


Lemma open_true_pages (path : string) (s0 a : ArchiveReader.t) :
  ArchiveReader.open char_is_signed disk path s0 = Some (true, a) ->
  0 < ArchiveReader.page_count a.
Proof.
  unfold ArchiveReader.open, ArchiveReader.page_count.
  destruct (disk path) as [es|]; [|done].
  destruct (StdSort.sort _ _) as [[|pg sorted]|]; cbn; [done| |done].
  intros [= <-]. cbn. lia.
Qed.

(** X23. Enter on an archive that opens, when the first redraw returns,
    starts the comic on the saved page when that page is not negative
    and below the page count, and on the first page when there is no
    saved page or it is too large: in these cases the page shown is a
    page of the archive. *)
Theorem enter_restores_saved_page (r r' : ComicReader.t F) (fe : FileEntry)
    (a : ArchiveReader.t) (ctl : Control) :
  viewing_comic r = false ->
  enter_is_free r = true ->
  0 <= selected_idx r < Z.of_nat (length (entries r)) ->
  Z.of_nat (length (entries r)) < 2 ^ 31 ->
  entries r !! Z.to_nat (selected_idx r) = Some fe ->
  is_directory fe = false ->
  ArchiveReader.open char_is_signed disk (full_path fe) (archive r)
    = Some (true, a) ->
  ArchiveReader.page_count a < 2 ^ 31 ->
  body "010"%char r = Some (ctl, r') ->
  ctl = Continue
  /\ viewing_comic r' = true
  /\ page_count r' = ArchiveReader.page_count a
  /\ (forall saved, progress r !! fe_name fe = Some saved -> 0 <= saved ->
        current_page r' = (if saved <? page_count r' then saved else 0)
        /\ 0 <= current_page r' < page_count r')
  /\ (progress r !! fe_name fe = None ->
      current_page r' = 0 /\ 0 < page_count r').
Proof.
  intros Hv Hfree Hsel Hlen Hfe Hdir Hopen Hcount Hrun.
  destruct (enter_on_archive char_is_signed disk listing term F f_one
              is_unzoomed zoom_in zoom_out scaled_size stbi_load_from_memory
              stbir_resize r fe true a Hv Hfree Hsel Hlen Hfe Hdir Hopen)
    as [_ Hall].
  destruct (Hall ctl r' Hrun) as (-> & Hview & Hrest).
  destruct (Hrest eq_refl) as (_ & _ & _ & _ & Hpc & Hcp).
  pose proof (open_true_pages _ _ _ Hopen) as Hpos.
  rewrite to_int_id in Hpc, Hcp by int_range.
  split; [done|]. split; [done|]. split; [done|]. split.
  - intros saved Hsaved Hnn. rewrite Hcp, Hsaved, Hpc. cbn.
    rewrite Z.geb_leb.
    destruct (Z.leb_spec (ArchiveReader.page_count a) saved);
      destruct (Z.ltb_spec saved (ArchiveReader.page_count a)); lia.
  - intros Hnone. rewrite Hcp, Hnone, Hpc. cbn. lia.
Qed.

End Keys.



(** The sample directory lists four entries; the lists of this example
    are the one of [/lib] for every directory. *)
Lemma sample_lib_listed (d : string) :
  Sample.listing "/lib" <> []
  /\ Z.of_nat (length (Sample.listing "/lib")) < 2 ^ 31.
Proof. split; [done|]. cbn. lia. Qed.


(** Without an entry the last-entry key leaves the cursor before the
    list, at [-1]: the cursor stays on an entry only when the lists are
    not empty. *)
Example last_entry_of_no_entry :
  let r := set_entries [] (Sample.browsing default_config ∅ 0) in
  exists r', Sample.run_body "G" r = Some (Continue, r')
             /\ selected_idx r' = -1.
Proof. cbv zeta. eexists. split; by vm_compute. Qed.

Lemma enter_restores_saved_page_witness :
  exists r',
    Sample.run_body "010"%char
      (Sample.browsing default_config {["six.cbz"%string := 2]} 3)
    = Some (Continue, r')
    /\ current_page r' = 2 /\ 0 <= current_page r' < page_count r'.
Proof.
  assert (Hrun : exists r',
            Sample.run_body "010"%char
              (Sample.browsing default_config {["six.cbz"%string := 2]} 3)
            = Some (Continue, r'))
    by (eexists; by vm_compute).
  destruct Hrun as [r' Hrun]. exists r'. split; [exact Hrun|].
  destruct (enter_restores_saved_page true Sample.disk Sample.listing
              Sample.term Z Sample.f_one Sample.is_unzoomed Sample.zoom_in
              Sample.zoom_out Sample.scaled_size Sample.stbi_load_from_memory
              Sample.stbir_resize
              (Sample.browsing default_config {["six.cbz"%string := 2]} 3)
              r' (mk_file "six.cbz" "/lib/six.cbz" false)
              (Sample.session "/lib/six.cbz") Continue)
    as (_ & _ & Hcount & Hsaved & _).
  - reflexivity.
  - by vm_compute.
  - cbn. lia.
  - cbn. lia.
  - reflexivity.
  - reflexivity.
  - by vm_compute.
  - by vm_compute.
  - exact Hrun.
  - destruct (Hsaved 2 eq_refl ltac:(lia)) as [Hpage Hrange].
    split; [|exact Hrange]. rewrite Hpage, Hcount. reflexivity.
Defined.

End KeysMore.

(** * The configuration file *)

Module StrFacts.
Import Str.

Lemma find_skip (c : ascii) (pre rest : list ascii) :
  Forall (fun x => x <> c) pre ->
  find c (pre ++ c :: rest) = Some (length pre).
Proof.
  induction 1 as [|x pre Hx _ IH]; cbn.
  - by rewrite Ascii.eqb_refl.
  - rewrite (proj2 (Ascii.eqb_neq x c) Hx), IH. done.
Qed.

Lemma find_none (c : ascii) (s : list ascii) :
  Forall (fun x => x <> c) s -> find c s = None.
Proof.
  induction 1 as [|x s Hx _ IH]; cbn; [done|].
  by rewrite (proj2 (Ascii.eqb_neq x c) Hx), IH.
Qed.

Lemma find_first_not_of_skip (set pre : list ascii) (x : ascii)
    (rest : list ascii) :
  Forall (fun c => among set c = true) pre -> among set x = false ->
  find_first_not_of set (pre ++ x :: rest) = Some (length pre).
Proof.
  intros Hpre Hx. induction Hpre as [|c pre Hc _ IH]; cbn.
  - by rewrite Hx.
  - by rewrite Hc, IH.
Qed.

Lemma find_first_not_of_all (set s : list ascii) :
  Forall (fun c => among set c = true) s -> find_first_not_of set s = None.
Proof.
  induction 1 as [|c s Hc _ IH]; cbn; [done|]. by rewrite Hc, IH.
Qed.

Lemma find_last_not_of_skip (set pre : list ascii) (x : ascii)
    (post : list ascii) :
  Forall (fun c => among set c = true) post -> among set x = false ->
  find_last_not_of set (pre ++ x :: post) = Some (length pre).
Proof.
  intros Hpost Hx. unfold find_last_not_of.
  rewrite rev_app_distr. cbn [rev]. rewrite <- app_assoc. cbn [app].
  rewrite find_first_not_of_skip; [|by apply Forall_rev|done].
  cbn. f_equal. rewrite length_rev, length_app. cbn. lia.
Qed.

Lemma find_last_not_of_all (set s : list ascii) :
  Forall (fun c => among set c = true) s -> find_last_not_of set s = None.
Proof.
  intros H. unfold find_last_not_of.
  rewrite find_first_not_of_all; [done|by apply Forall_rev].
Qed.

End StrFacts.

Module ConfigFacts.
Import Str StrFacts ConfigFile.

Lemma trim_layout (b1 s b2 : list ascii) :
  blanks b1 -> blanks b2 -> trimmed s -> trim (b1 ++ s ++ b2) = s.
Proof.
  intros H1 H2 [Hfirst Hlast]. unfold trim.
  destruct s as [|x s'].
  { cbn [app]. rewrite find_first_not_of_all by (by apply Forall_app).
    done. }
  rewrite <- app_comm_cons.
  rewrite find_first_not_of_skip by done. cbn [erase_front].
  rewrite drop_app_length.
  destruct (rev (x :: s')) as [|y r] eqn:Hrev.
  { apply (f_equal (@length _)) in Hrev. rewrite length_rev in Hrev. done. }
  apply (f_equal (@rev _)) in Hrev. rewrite rev_involutive in Hrev.
  cbn [rev] in Hrev. rewrite app_comm_cons, Hrev, <- app_assoc. cbn [app].
  rewrite find_last_not_of_skip by done. cbn [succ_pos]. unfold erase_from.
  replace (S (length (rev r))) with (length (rev r ++ [y]))
    by (rewrite length_app; cbn; lia).
  change (rev r ++ y :: b2) with (rev r ++ [y] ++ b2).
  rewrite app_assoc. by rewrite take_app_length.
Qed.

Lemma blank_not (c x : ascii) :
  among blank c = true -> among blank x = false -> c <> x.
Proof. intros Hc Hx ->. congruence. Qed.

Lemma load_line_setting (b1 b2 b3 b4 key val : list ascii) (c : Config) :
  blanks b1 -> blanks b2 -> blanks b3 -> blanks b4 ->
  trimmed key -> trimmed val ->
  Forall (fun x => x <> "="%char) key ->
  hd "="%char key <> "#"%char ->
  load_line (b1 ++ key ++ b2 ++ "="%char :: b3 ++ val ++ b4) c
  = apply_setting (string_of_list_ascii key) (string_of_list_ascii val) c.
Proof.
  intros H1 H2 H3 H4 Hkey Hval Hne Hhash.
  assert (Hblank : forall b, blanks b -> Forall (fun x => x <> "="%char) b).
  { intros b Hb. eapply Forall_impl; [exact Hb|]. intros x Hx.
    by apply (blank_not x "="). }
  assert (Hfind : find "=" (b1 ++ key ++ b2 ++ "="%char :: b3 ++ val ++ b4)
                  = Some (length (b1 ++ key ++ b2))).
  { rewrite !app_assoc. rewrite <- (app_assoc b1).
    apply find_skip. repeat apply Forall_app_2; auto. }
  unfold load_line.
  destruct (b1 ++ key ++ b2 ++ "="%char :: b3 ++ val ++ b4)
    as [|first rest] eqn:Hline.
  { by destruct b1, key, b2. }
  assert (Hfirst : Ascii.eqb first "#" = false).
  { apply Ascii.eqb_neq.
    destruct b1 as [|c1 b1'].
    - destruct key as [|k key'].
      + destruct b2 as [|c2 b2']; cbn in Hline; injection Hline as <- _.
        * done.
        * apply (blank_not c2 "#"); [by inversion H2|done].
      + cbn in Hline. injection Hline as <- _. exact Hhash.
    - cbn in Hline. injection Hline as <- _.
      apply (blank_not c1 "#"); [by inversion H1|done]. }
  rewrite Hfirst, Hfind. cbn [substr_front substr_from].
  rewrite <- Hline.
  assert (Hsplit : b1 ++ key ++ b2 ++ "="%char :: b3 ++ val ++ b4
                   = (b1 ++ key ++ b2) ++ "="%char :: b3 ++ val ++ b4)
    by (by rewrite <- !app_assoc).
  rewrite Hsplit, take_app_length.
  replace (S (length (b1 ++ key ++ b2)))
    with (length (b1 ++ key ++ b2) + 1)%nat by lia.
  unfold substr_from. rewrite <- drop_drop, drop_app_length. cbn [drop].
  rewrite drop_0. by rewrite !trim_layout.
Qed.


(** X25. The layout of a setting does not matter: blanks before and
    after the name and the value are dropped, and the line is split at
    its first equals sign, so that the value may hold further ones; the
    line sets what the same line without the blanks sets. The name holds
    no equals sign and does not start with the comment character. *)
Theorem load_line_layout (b1 b2 b3 b4 key val : list ascii) (c : Config) :
  blanks b1 -> blanks b2 -> blanks b3 -> blanks b4 ->
  trimmed key -> trimmed val ->
  Forall (fun x => x <> "="%char) key ->
  hd "="%char key <> "#"%char ->
  load_line (b1 ++ key ++ b2 ++ "="%char :: b3 ++ val ++ b4) c
  = apply_setting (string_of_list_ascii key) (string_of_list_ascii val) c
  /\ load_line (b1 ++ key ++ b2 ++ "="%char :: b3 ++ val ++ b4) c
     = load_line (key ++ "="%char :: val) c.
Proof.
  intros H1 H2 H3 H4 Hkey Hval Hne Hhash.
  assert (Hnil : blanks []) by constructor.
  pose proof (load_line_setting [] [] [] [] key val c Hnil Hnil Hnil Hnil
                Hkey Hval Hne Hhash) as Htight.
  cbn [app] in Htight. rewrite !app_nil_r in Htight.
  rewrite Htight. split; by apply load_line_setting.
Qed.

Lemma load_line_layout_witness :
  load_line (list_ascii_of_string "  render_mode = timg ") default_config
  = apply_setting "render_mode" "timg" default_config
  /\ load_line (list_ascii_of_string "  render_mode = timg ") default_config
     = load_line (list_ascii_of_string "render_mode=timg") default_config.
Proof.
  apply (load_line_layout [" "; " "]%char [" "%char] [" "%char] [" "%char]
           (list_ascii_of_string "render_mode") (list_ascii_of_string "timg")
           default_config);
    first [ by repeat constructor | by split
          | (repeat constructor; discriminate) | discriminate ].
Defined.

(** What a line adds to the library paths does not depend on the
    configuration it is applied to. *)
Lemma load_line_library (l : list ascii) (c : Config) :
  library_paths (load_line l c)
  = library_paths c ++ library_paths (load_line l default_config).
Proof.
  unfold load_line. destruct l as [|first rest]; [by rewrite app_nil_r|].
  destruct (Ascii.eqb first "#"); [by rewrite app_nil_r|].
  destruct (find "=" (first :: rest)); [|by rewrite app_nil_r].
  unfold apply_setting.
  repeat (destruct (String.eqb _ _); [by rewrite ?app_nil_r|]).
  by rewrite app_nil_r.
Qed.

Lemma load_lines_library (ls : list (list ascii)) :
  forall c,
  library_paths (foldl (fun c line => load_line line c) c ls)
  = library_paths c
    ++ flat_map (fun l => library_paths (load_line l default_config)) ls.
Proof.
  induction ls as [|l ls IH]; intros c; cbn [foldl flat_map].
  - by rewrite app_nil_r.
  - by rewrite IH, load_line_library, <- app_assoc.
Qed.

Lemma flat_map_nil {A B} (f : A -> list B) (l : list A) :
  Forall (fun x => f x = []) l -> flat_map f l = [].
Proof. induction 1 as [|x l Hx _ IH]; cbn; [done|]. by rewrite Hx, IH. Qed.

(** The directory that [main] chooses: an argument on the command line
    wins; without one it is the value of the first library line of the
    configuration file; and it is the current directory when [HOME] is
    empty, the file does not open, or no line names a library. *)
Lemma main_directory_choice (argv : list string) (home : string)
    (fs : string -> option (list ascii)) :
  (forall prog dir rest, argv = prog :: dir :: rest ->
     main_directory argv home fs = dir)
  /\ ((length argv <= 1)%nat -> home <> ""%string ->
      forall text ls1 ls2 b1 b2 b3 b4 val,
      fs (home ++ "/.tcreader.conf")%string = Some text ->
      getlines text
      = ls1 ++ (b1 ++ list_ascii_of_string "library" ++ b2
                   ++ "="%char :: b3 ++ val ++ b4) :: ls2 ->
      Forall (fun l => library_paths (load_line l default_config) = []) ls1 ->
      blanks b1 -> blanks b2 -> blanks b3 -> blanks b4 -> trimmed val ->
      main_directory argv home fs = string_of_list_ascii val)
  /\ ((length argv <= 1)%nat ->
      home = ""%string
      \/ fs (home ++ "/.tcreader.conf")%string = None
      \/ (exists text, fs (home ++ "/.tcreader.conf")%string = Some text
            /\ Forall (fun l => library_paths (load_line l default_config) = [])
                      (getlines text)) ->
      main_directory argv home fs = "."%string).
Proof.
  split; [by intros prog dir rest ->|]. split.
  - intros Hargv Hhome text ls1 ls2 b1 b2 b3 b4 val Hfs Hlines Hnone
      H1 H2 H3 H4 Hval.
    unfold main_directory.
    rewrite (proj2 (String.eqb_neq home "") Hhome), Hfs. unfold load.
    rewrite load_lines_library, Hlines, flat_map_app. cbn [flat_map].
    rewrite (flat_map_nil _ ls1 Hnone).
    rewrite load_line_setting
      by first [ done | by split | (repeat constructor; discriminate)
               | discriminate ].
    cbn. by destruct argv as [|prog [|dir rest]]; [| |cbn in Hargv; lia].
  - intros Hargv Hcase. unfold main_directory.
    assert (Hlib : library_paths
              (if String.eqb home "" then default_config
               else load (fs (home ++ "/.tcreader.conf")%string) default_config)
              = []).
    { destruct (String.eqb_spec home ""); [done|].
      destruct Hcase as [Hh|[Hnone|(text & Hfs & Hall)]]; [done| |].
      - by rewrite Hnone.
      - rewrite Hfs. unfold load.
        by rewrite load_lines_library, (flat_map_nil _ _ Hall). }
    rewrite Hlib.
    by destruct argv as [|prog [|dir rest]]; [| |cbn in Hargv; lia].
Qed.


(** An argument that names no directory: the reader does not run. *)
Example start_directory_missing :
  start_directory ["tcreader"; "/no/such/dir"]%string "" (fun _ => None)
    (fun _ => Some false) (fun _ => Some false)
  = Some (InvalidDirectory "/no/such/dir").
Proof. reflexivity. Qed.

End ConfigFacts.

(** * The progress file *)

Module JSONFacts.
Import Str StrFacts SimpleJSON.

Lemma decimal_snoc (ds : list ascii) (c : ascii) :
  NaturalSort.decimal (ds ++ [c])
  = NaturalSort.decimal ds * 10 + (NaturalSort.code c - 48).
Proof. unfold NaturalSort.decimal. by rewrite fold_left_app. Qed.

Lemma digit_char_code (d : Z) :
  0 <= d < 10 -> NaturalSort.code (digit_char d) = 48 + d.
Proof.
  intros H. unfold NaturalSort.code, digit_char.
  rewrite N_ascii_embedding by lia. lia.
Qed.

Lemma digit_char_isdigit (d : Z) :
  0 <= d < 10 -> NaturalSort.isdigit (digit_char d) = true.
Proof.
  intros H. unfold NaturalSort.isdigit. rewrite digit_char_code by done.
  apply andb_true_iff. split; apply Z.leb_le; lia.
Qed.

Lemma digits_spec (fuel : nat) :
  forall n, 0 <= n < 10 ^ Z.of_nat (S fuel) ->
  NaturalSort.decimal (digits (S fuel) n) = n
  /\ Forall (fun c => NaturalSort.isdigit c = true) (digits (S fuel) n)
  /\ digits (S fuel) n <> [].
Proof.
  induction fuel as [|fuel IH]; intros n Hn;
    pose proof (Z.mod_pos_bound n 10 ltac:(lia)) as Hmod;
    pose proof (Z.div_mod n 10 ltac:(lia)) as Hdiv;
    change (digits (S ?f) n)
      with ((if n <? 10 then [] else digits f (n / 10))
              ++ [digit_char (n mod 10)]).
  - change (10 ^ Z.of_nat 1) with 10 in Hn.
    rewrite (proj2 (Z.ltb_lt n 10)) by lia. cbn [app].
    split; [|split; [|done]].
    + unfold NaturalSort.decimal. cbn.
      rewrite digit_char_code by done. rewrite Z.mod_small by lia. lia.
    + repeat constructor. by apply digit_char_isdigit.
  - destruct (Z.ltb_spec n 10) as [Hsmall|Hbig].
    + cbn [app]. split; [|split; [|done]].
      * unfold NaturalSort.decimal. cbn.
        rewrite digit_char_code by done. rewrite Z.mod_small by lia. lia.
      * repeat constructor. by apply digit_char_isdigit.
    + assert (Hq : 0 <= n / 10 < 10 ^ Z.of_nat (S fuel)).
      { split; [apply Z.div_pos; lia|].
        apply Z.div_lt_upper_bound; [lia|].
        rewrite (Nat2Z.inj_succ (S fuel)), Z.pow_succ_r in Hn by lia. lia. }
      destruct (IH _ Hq) as (Hdec & Hall & Hne).
      split; [|split].
      * rewrite decimal_snoc, Hdec, digit_char_code by done. lia.
      * apply Forall_app_2; [done|]. repeat constructor.
        by apply digit_char_isdigit.
      * by destruct (digits (S fuel) (n / 10)).
Qed.

Lemma isdigit_chars (c : ascii) :
  NaturalSort.isdigit c = true ->
  isspace c = false /\ Ascii.eqb c "-" = false /\ Ascii.eqb c "+" = false
  /\ among [" "; ","; "009"; "010"]%char c = false
  /\ among [" "; "009"]%char c = false.
Proof.
  destruct c as [[] [] [] [] [] [] [] []]; vm_compute; intros H;
    try discriminate H; done.
Qed.

Lemma digits_all (n : Z) :
  0 <= n <= 2 ^ 31 ->
  NaturalSort.decimal (digits 10 n) = n
  /\ Forall (fun c => NaturalSort.isdigit c = true) (digits 10 n)
  /\ exists d ds, digits 10 n = d :: ds.
Proof.
  intros Hn. destruct (digits_spec 9 n) as (H1 & H2 & H3).
  { change (10 ^ Z.of_nat 10) with 10000000000. lia. }
  split; [done|]. split; [done|].
  destruct (digits 10 n) as [|d ds]; [done|]. by exists d, ds.
Qed.

Lemma digit_run_all (ds : list ascii) :
  Forall (fun c => NaturalSort.isdigit c = true) ds ->
  NaturalSort.digit_run ds = ds.
Proof.
  intros H. rewrite <- (app_nil_r ds) at 1.
  by apply NaturalSortFacts.digit_run_app.
Qed.

(** Reading back a printed [int]. *)
Lemma stoi_print_int (v : Z) :
  - 2 ^ 31 <= v < 2 ^ 31 -> stoi (print_int v) = Some v.
Proof.
  intros Hv. unfold print_int, stoi.
  destruct (Z.ltb_spec v 0) as [Hneg|Hpos].
  - cbn [skip_space]. change (isspace "-") with false. cbn iota.
    rewrite Ascii.eqb_refl.
    destruct (digits_all (- v) ltac:(lia)) as (Hdec & Hall & d & ds & Hd).
    rewrite digit_run_all by done. rewrite Hd, <- Hd, Hdec.
    rewrite Z.opp_involutive.
    rewrite (proj2 (Z.leb_le _ _)), (proj2 (Z.ltb_lt _ _)) by lia. done.
  - destruct (digits_all v ltac:(lia)) as (Hdec & Hall & d & ds & Hd).
    rewrite Hd. pose proof Hall as Hall'. rewrite Hd in Hall'.
    apply Forall_cons in Hall' as [Hdig _].
    destruct (isdigit_chars d Hdig) as (Hsp & Hminus & Hplus & _).
    cbn [skip_space]. rewrite Hsp, Hminus, Hplus. rewrite <- Hd.
    rewrite digit_run_all by done. rewrite Hd, <- Hd, Hdec.
    rewrite (proj2 (Z.leb_le _ _)), (proj2 (Z.ltb_lt _ _)) by lia. done.
Qed.

Lemma print_int_shape (v : Z) :
  - 2 ^ 31 <= v < 2 ^ 31 ->
  (exists p0 ps, print_int v = p0 :: ps
                 /\ among [" "; "009"]%char p0 = false)
  /\ (exists init l, print_int v = init ++ [l]
                     /\ among [" "; ","; "009"; "010"]%char l = false)
  /\ Forall (fun c => c <> newline) (print_int v).
Proof.
  intros Hv. unfold print_int.
  assert (Hd : forall n, 0 <= n <= 2 ^ 31 ->
            exists init, digits 10 n = init ++ [digit_char (n mod 10)]).
  { intros n Hn. by eexists. }
  assert (Hnl : forall c, NaturalSort.isdigit c = true -> c <> newline).
  { intros c Hc ->. done. }
  destruct (Z.ltb_spec v 0) as [Hneg|Hpos].
  - destruct (digits_all (- v) ltac:(lia)) as (_ & Hall & _).
    destruct (Hd (- v) ltac:(lia)) as [init Hinit].
    split; [|split].
    + by eexists _, _.
    + exists ("-"%char :: init), (digit_char (- v mod 10)).
      split; [by rewrite Hinit|].
      apply isdigit_chars, digit_char_isdigit.
      apply Z.mod_pos_bound. lia.
    + constructor; [done|]. eapply Forall_impl; [exact Hall|]. exact Hnl.
  - destruct (digits_all v ltac:(lia)) as (_ & Hall & d & ds & Hds).
    destruct (Hd v ltac:(lia)) as [init Hinit].
    split; [|split].
    + exists d, ds. split; [done|]. rewrite Hds in Hall.
      apply Forall_cons in Hall as [Hdig _]. by apply isdigit_chars.
    + exists init, (digit_char (v mod 10)). split; [done|].
      apply isdigit_chars, digit_char_isdigit.
      apply Z.mod_pos_bound. lia.
    + eapply Forall_impl; [exact Hall|]. exact Hnl.
Qed.

Lemma plain_key_chars (k : string) :
  plain_key k = true ->
  Forall (fun c => c <> quote /\ c <> ":"%char /\ c <> newline)
         (list_ascii_of_string k).
Proof.
  unfold plain_key. intros H. apply Forall_forall. intros c Hc.
  rewrite forallb_forall in H.
  specialize (H c (proj1 (list_elem_of_In _ _) Hc)).
  apply negb_true_iff in H. cbn in H.
  repeat split; intros ->; cbn in H; by rewrite ?Ascii.eqb_refl in H.
Qed.

Lemma load_line_entry (k : string) (v : Z) (sep : list ascii)
    (data : gmap string Z) :
  plain_key k = true -> - 2 ^ 31 <= v < 2 ^ 31 ->
  sep = [] \/ sep = [","%char] ->
  load_line (entry_line (k, v) ++ sep) data = Some (<[k := v]> data).
Proof.
  intros Hk Hv Hsep. pose proof (plain_key_chars k Hk) as Hchars.
  destruct (print_int_shape v Hv)
    as ((p0 & ps & Hp0 & Hb0) & (init & l & Hinit & Hl) & _).
  unfold entry_line. cbn [fst snd].
  set (K := list_ascii_of_string k) in *.
  set (P := print_int v) in *.
  set (line := ([" "; " "; quote]%char ++ K ++ [quote; ":"; " "]%char ++ P)
               ++ sep).
  assert (Hline1 : line = ([" "; " "; quote]%char ++ K ++ [quote])
                          ++ ":"%char :: " "%char :: P ++ sep).
  { subst line. cbn. by rewrite <- !app_assoc. }
  assert (Hline2 : line = [" "; " "]%char ++ quote
                          :: K ++ quote :: ":"%char :: " "%char :: P ++ sep).
  { subst line. cbn. by rewrite <- !app_assoc. }
  assert (Hcolon : find ":" line
                   = Some (length ([" "; " "; quote]%char ++ K ++ [quote]))).
  { rewrite Hline1. apply find_skip.
    repeat first [apply Forall_app_2 | apply Forall_cons_2 | apply Forall_nil_2];
      try done.
    eapply Forall_impl; [exact Hchars|]. by intros c (_ & ? & _). }
  assert (Hquote : find quote line = Some 2%nat).
  { rewrite Hline2. by apply (find_skip quote [" "; " "]%char);
      repeat constructor. }
  unfold load_line. rewrite Hcolon, Hquote. cbn [succ_pos].
  unfold substr_from.
  assert (Hkey : drop 3 line = K ++ quote :: ":"%char :: " "%char :: P ++ sep)
    by (by rewrite Hline2).
  rewrite Hkey.
  rewrite (find_skip quote K)
    by (eapply Forall_impl; [exact Hchars|]; by intros c (? & _)).
  cbn [substr_front]. rewrite take_app_length.
  assert (Hval : drop (S (length ([" "; " "; quote]%char ++ K ++ [quote]))) line
                 = " "%char :: P ++ sep).
  { replace (S (length ([" "; " "; quote]%char ++ K ++ [quote])))
      with (length ([" "; " "; quote]%char ++ K ++ [quote]) + 1)%nat by lia.
    rewrite <- drop_drop. rewrite Hline1 at 1. by rewrite drop_app_length. }
  rewrite Hval.
  assert (Hff : find_first_not_of [" "; "009"]%char (" "%char :: P ++ sep)
                = Some 1%nat).
  { rewrite Hp0. cbn [app find_first_not_of].
    change (among [" "%char; "009"%char] " ") with true. cbn iota.
    by rewrite Hb0. }
  rewrite Hff. cbn [erase_front drop]. rewrite ?drop_0.
  rewrite Hinit, <- app_assoc. cbn [app].
  rewrite (find_last_not_of_skip _ init l sep).
  2:{ destruct Hsep as [->| ->]; by repeat constructor. }
  2:{ done. }
  cbn [succ_pos]. unfold erase_from.
  replace (S (length init)) with (length (init ++ [l]))
    by (rewrite length_app; cbn; lia).
  change (init ++ l :: sep) with (init ++ [l] ++ sep).
  rewrite app_assoc, take_app_length, <- Hinit.
  subst P. rewrite stoi_print_int by done. cbn.
  subst K. by rewrite string_of_list_ascii_of_string.
Qed.

Lemma getlines_line (l rest : list ascii) :
  Forall (fun c => c <> newline) l ->
  getlines (l ++ newline :: rest) = l :: getlines rest.
Proof.
  induction 1 as [|c l Hc _ IH]; cbn [app getlines].
  - by rewrite Ascii.eqb_refl.
  - by rewrite (proj2 (Ascii.eqb_neq c newline) Hc), IH.
Qed.

Lemma entry_line_no_newline (k : string) (v : Z) :
  plain_key k = true -> - 2 ^ 31 <= v < 2 ^ 31 ->
  Forall (fun c => c <> newline) (entry_line (k, v)).
Proof.
  intros Hk Hv. unfold entry_line. cbn [fst snd].
  repeat first [apply Forall_app_2 | apply Forall_cons_2 | apply Forall_nil_2];
    try done.
  - eapply Forall_impl; [exact (plain_key_chars k Hk)|].
    by intros c (_ & _ & ?).
  - by apply print_int_shape.
Qed.

(** An entry that the file format can hold. *)
Local Abbreviation storable kv :=
  (plain_key kv.1 = true /\ - 2 ^ 31 <= kv.2 < 2 ^ 31).

Local Abbreviation step :=
  (fun (acc : option (gmap string Z)) line => data ← acc; load_line line data).

Local Abbreviation closing := [newline; "}"%char; newline].

Lemma load_closing (data : gmap string Z) :
  foldl step (Some data) (getlines closing) = Some data.
Proof. done. Qed.

Lemma load_entries (items : list (string * Z)) :
  forall kv0 data,
  storable kv0 -> Forall (fun kv => storable kv) items ->
  foldl step (Some data)
        (getlines (entry_line kv0 ++ entry_lines false items ++ closing))
  = Some (foldl (fun d kv => <[kv.1 := kv.2]> d) data (kv0 :: items)).
Proof.
  induction items as [|kv items IH]; intros [k0 v0] data [Hk0 Hv0] Hall.
  - cbn [entry_lines app].
    rewrite getlines_line by (by apply entry_line_no_newline).
    cbn [foldl]. cbn [mbind option_bind].
    pose proof (load_line_entry k0 v0 [] data Hk0 Hv0 (or_introl eq_refl))
      as Hload.
    rewrite app_nil_r in Hload. rewrite Hload. done.
  - apply Forall_cons in Hall as [Hkv Hall].
    cbn [entry_lines].
    replace (entry_line (k0, v0)
               ++ (([","%char; newline] ++ entry_line kv
                      ++ entry_lines false items) ++ closing))
      with ((entry_line (k0, v0) ++ [","%char])
              ++ newline :: entry_line kv ++ entry_lines false items
              ++ closing)
      by (by rewrite <- !app_assoc).
    rewrite getlines_line.
    2:{ apply Forall_app_2; [by apply entry_line_no_newline|].
        by repeat constructor. }
    cbn [foldl]. cbn [mbind option_bind].
    rewrite (load_line_entry k0 v0 [","%char] data Hk0 Hv0
               (or_intror eq_refl)).
    by rewrite IH.
Qed.

Lemma load_render (items : list (string * Z)) (data : gmap string Z) :
  Forall (fun kv => storable kv) items ->
  load (Some (render items)) data
  = Some (foldl (fun d kv => <[kv.1 := kv.2]> d) data items).
Proof.
  intros Hall. unfold load, render.
  change (["{"%char; newline] ++ ?x) with (["{"%char] ++ newline :: x).
  rewrite getlines_line by (by repeat constructor).
  cbn [foldl]. cbn [mbind option_bind].
  change (load_line ["{"%char] data) with (Some data).
  destruct items as [|kv0 items]; [done|].
  apply Forall_cons in Hall as [Hkv Hall].
  cbn [entry_lines app]. rewrite <- app_assoc. by apply load_entries.
Qed.

Lemma foldl_insert_union (items : list (string * Z)) :
  forall data : gmap string Z,
  foldl (fun d kv => <[kv.1 := kv.2]> d) data items
  = list_to_map (rev items) ∪ data.
Proof.
  induction items as [|[k v] items IH]; intros data; cbn [foldl rev].
  - cbn. by rewrite (left_id_L ∅ (∪)).
  - rewrite IH, list_to_map_app. cbn [list_to_map fst snd].
    rewrite <- (assoc_L (∪)). f_equal.
    change (list_to_map [(k, v)]) with (<[k:=v]> (∅ : gmap string Z)).
    rewrite insert_empty. by rewrite <- insert_union_singleton_l.
Qed.

Lemma insert_by_key_perm (kv : string * Z) (l : list (string * Z)) :
  insert_by_key kv l ≡ₚ kv :: l.
Proof.
  induction l as [|x l IH]; cbn; [done|].
  destruct (String.leb _ _); [done|]. rewrite IH. apply Permutation_swap.
Qed.

Lemma in_key_order_perm (data : gmap string Z) :
  in_key_order data ≡ₚ map_to_list data.
Proof.
  unfold in_key_order. induction (map_to_list data) as [|kv l IH]; cbn;
    [done|].
  by rewrite insert_by_key_perm, IH.
Qed.

Lemma save_load (data old : gmap string Z) :
  map_Forall (fun k v => plain_key k = true /\ - 2 ^ 31 <= v < 2 ^ 31) data ->
  load (Some (save data)) old = Some (data ∪ old).
Proof.
  intros Hdata. unfold save.
  pose proof (in_key_order_perm data) as Hperm.
  assert (Hrev : rev (in_key_order data) ≡ₚ map_to_list data)
    by (by rewrite <- Permutation_rev).
  rewrite load_render.
  - rewrite foldl_insert_union. do 2 f_equal.
    rewrite <- (list_to_map_to_list data) at 2.
    apply list_to_map_proper; [|done].
    rewrite Hrev. apply NoDup_fst_map_to_list.
  - rewrite Hperm. apply Forall_forall. intros [k v] Hin.
    apply elem_of_map_to_list in Hin. exact (Hdata k v Hin).
Qed.

(** X27. The progress file round trip: loading the text that [save]
    writes gives every saved page back, on top of what was there, when
    no name holds a double quote, a colon or a line feed. *)
Theorem save_load_round_trip (data old : gmap string Z) :
  map_Forall (fun k v => plain_key k = true /\ in_int v) data ->
  load (Some (save data)) old = Some (data ∪ old)
  /\ load (Some (save data)) ∅ = Some data.
Proof.
  intros Hdata. split; [by apply save_load|].
  rewrite save_load by done. by rewrite (right_id_L ∅ (∪)).
Qed.

Lemma save_load_round_trip_witness :
  load (Some (save {["six.cbz"%string := 4]})) {["old.cbz"%string := 1]}
  = Some ({["six.cbz"%string := 4]} ∪ {["old.cbz"%string := 1]})
  /\ load (Some (save {["six.cbz"%string := 4]})) ∅
     = Some {["six.cbz"%string := 4]}.
Proof.
  apply (save_load_round_trip {["six.cbz"%string := 4]}
           {["old.cbz"%string := 1]}).
  intros k v Hkv. apply lookup_singleton_Some in Hkv as [<- <-].
  split; [reflexivity|]. unfold in_int. lia.
Defined.

Lemma getlines_nonempty (text : list ascii) :
  text <> [] -> getlines text <> [].
Proof.
  destruct text as [|c rest]; [done|]. intros _. cbn.
  destruct (Ascii.eqb c newline); [done|]. by destruct (getlines rest).
Qed.

Lemma getlines_app_newline (before rest : list ascii) :
  getlines (before ++ newline :: rest)
  = getlines (before ++ [newline]) ++ getlines rest.
Proof.
  induction before as [|c before IH]; cbn [app getlines].
  - by rewrite Ascii.eqb_refl.
  - destruct (Ascii.eqb c newline); [by rewrite IH|].
    rewrite IH.
    pose proof (getlines_nonempty (before ++ [newline])) as Hne.
    destruct (getlines (before ++ [newline])) as [|l ls]; [|done].
    exfalso. apply Hne; [|done]. by destruct before.
Qed.

Lemma entry_lines_split (kv : string * Z) (i2 : list (string * Z)) :
  forall i1 first,
  exists before,
    entry_lines first (i1 ++ kv :: i2)
    = before ++ entry_line kv ++ entry_lines false i2
    /\ ((before = [] /\ first = true)
        \/ exists before', before = before' ++ [newline]).
Proof.
  induction i1 as [|x i1 IH]; intros first; cbn [app entry_lines].
  - exists (if first then [] else [","%char; newline]). split; [done|].
    destruct first; [by left|right]. by exists [","%char].
  - destruct (IH false) as (b0 & Heq & [[_ [=]]|[b0' ->]]).
    exists (((if first then [] else [","%char; newline]) ++ entry_line x
               ++ b0') ++ [newline]).
    split; [|right; by eexists].
    rewrite Heq. by rewrite <- !app_assoc.
Qed.

Lemma foldl_step_none (ls : list (list ascii)) : foldl step None ls = None.
Proof. by induction ls. Qed.

(** A line whose value part, after its leading blanks, starts with a
    character that starts no number. *)
Lemma load_line_throws (pre bl rest tail : list ascii) (data : gmap string Z) :
  Forall (fun c => c <> ":"%char) pre ->
  ConfigFile.blanks bl ->
  number_start (hd quote (rest ++ tail)) = false ->
  rest ++ tail <> [] ->
  load_line (pre ++ ":"%char :: bl ++ rest ++ tail) data = None.
Proof.
  intros Hpre Hbl Hstart Hne. unfold load_line.
  rewrite find_skip by done.
  assert (Hval : substr_from (S (length pre))
                   (pre ++ ":"%char :: bl ++ rest ++ tail)
                 = bl ++ rest ++ tail).
  { unfold substr_from.
    replace (S (length pre)) with (length pre + 1)%nat by lia.
    by rewrite <- drop_drop, drop_app_length. }
  rewrite Hval.
  destruct (rest ++ tail) as [|x more] eqn:Hrest; [done|]. cbn [hd] in Hstart.
  unfold number_start in Hstart.
  apply orb_false_iff in Hstart as [Hstart Hplus].
  apply orb_false_iff in Hstart as [Hstart Hminus].
  apply orb_false_iff in Hstart as [Hspace Hdigit].
  assert (Hx : among [" "; "009"]%char x = false).
  { unfold isspace, among in *. cbn in *.
    destruct (Ascii.eqb x " "); [done|]. by destruct (Ascii.eqb x "009"). }
  rewrite (find_first_not_of_skip [" "; "009"]%char bl x more Hbl Hx).
  cbn [erase_front]. rewrite drop_app_length.
  destruct (find_last_not_of _ (x :: more)) as [j|]; cbn [succ_pos];
    unfold erase_from; cbn [take]; [|done].
  unfold stoi. cbn [skip_space]. rewrite Hspace, Hminus, Hplus.
  cbn [NaturalSort.digit_run]. by rewrite Hdigit.
Qed.

(** X28. A name with a colon can make the progress file unreadable: when
    the first character after the first colon of a saved name and the
    blanks behind it starts no number (it is no digit, sign or white
    space, or the name ends there), [std::stoi] throws while the file
    that [save] wrote is loaded, whatever else the file holds. *)
Theorem colon_in_name_breaks_load (data old : gmap string Z) (k : string)
    (v : Z) (pre bl rest : list ascii) :
  data !! k = Some v ->
  in_int v ->
  list_ascii_of_string k = pre ++ ":"%char :: bl ++ rest ->
  Forall (fun c => c <> ":"%char) pre ->
  Forall (fun c => c <> newline) (list_ascii_of_string k) ->
  ConfigFile.blanks bl ->
  number_start (hd quote rest) = false ->
  load (Some (save data)) old = None.
Proof.
  intros Hlook Hv Hk Hpre Hnl Hbl Hstart.
  assert (Hin : (k, v) ∈ in_key_order data).
  { rewrite in_key_order_perm. by apply elem_of_map_to_list. }
  apply list_elem_of_split in Hin as (i1 & i2 & Hitems).
  unfold save, load, render. rewrite Hitems.
  destruct (entry_lines_split (k, v) i2 i1 true) as (before & -> & Hbefore).
  assert (Hhead : exists head,
            ["{"%char; newline] ++ before = head ++ [newline]).
  { destruct Hbefore as [[-> _]|[b' ->]].
    - by exists ["{"%char].
    - exists (["{"%char; newline] ++ b'). by rewrite <- app_assoc. }
  destruct Hhead as [head Hhead].
  assert (Htail : exists sep after,
            entry_lines false i2 ++ closing = sep ++ newline :: after
            /\ (sep = [] \/ sep = [","%char])).
  { destruct i2 as [|y i2].
    - exists [], ["}"%char; newline]. by split; [|left].
    - exists [","%char], (entry_line y ++ entry_lines false i2 ++ closing).
      split; [|by right]. cbn [entry_lines]. by rewrite <- !app_assoc. }
  destruct Htail as (sep & after & Htail & Hsep).
  replace (["{"%char; newline]
             ++ (before ++ entry_line (k, v) ++ entry_lines false i2)
             ++ closing)
    with (head ++ newline
            :: (entry_line (k, v) ++ sep) ++ newline :: after).
  2:{ rewrite <- !app_assoc. rewrite <- Htail.
      change (head ++ newline :: ?x) with (head ++ [newline] ++ x).
      rewrite (app_assoc head), <- Hhead. by rewrite <- !app_assoc. }
  rewrite getlines_app_newline, (getlines_line (entry_line (k, v) ++ sep)).
  2:{ apply Forall_app_2.
      - unfold entry_line. cbn [fst snd].
        repeat first [apply Forall_app_2 | apply Forall_cons_2
                     | apply Forall_nil_2]; try done.
        by apply print_int_shape.
      - destruct Hsep as [->| ->]; by repeat constructor. }
  rewrite foldl_app. cbn [foldl].
  set (acc := foldl step (Some old) _).
  assert (Hbad : step acc (entry_line (k, v) ++ sep) = None).
  { destruct acc as [d|]; [|done]. cbn [mbind option_bind].
    unfold entry_line. cbn [fst snd]. rewrite Hk.
    replace (([" "; " "; quote]%char ++ (pre ++ ":"%char :: bl ++ rest)
                ++ [quote; ":"; " "]%char ++ print_int v) ++ sep)
      with (([" "; " "; quote]%char ++ pre)
              ++ ":"%char :: bl ++ rest
              ++ ([quote; ":"; " "]%char ++ print_int v ++ sep))
      by (by rewrite <- !app_assoc; cbn; rewrite <- !app_assoc).
    apply load_line_throws.
    - apply Forall_app_2; [by repeat constructor|done].
    - done.
    - destruct rest; [done|exact Hstart].
    - by destruct rest. }
  rewrite Hbad. apply foldl_step_none.
Qed.

Lemma colon_in_name_breaks_load_witness :
  load (Some (save {["Batman: Year One.cbz"%string := 12]})) ∅ = None.
Proof.
  apply (colon_in_name_breaks_load {["Batman: Year One.cbz"%string := 12]} ∅
           "Batman: Year One.cbz" 12 (list_ascii_of_string "Batman")
           [" "%char] (list_ascii_of_string "Year One.cbz")).
  - apply lookup_singleton_eq.
  - unfold in_int. lia.
  - reflexivity.
  - repeat constructor; discriminate.
  - repeat constructor; discriminate.
  - by repeat constructor.
  - reflexivity.
Defined.

End JSONFacts.

(** * The character renderer *)

Module AsciiFacts.
Import AsciiArt.

Lemma ramp_index_value (v : Z) :
  0 <= v <= 255 -> ramp_index v = v * 68 / 255.
Proof.
  intros Hv. unfold ramp_index.
  change charset_len with 69. change (int_sub 69 1) with 68.
  rewrite int_mul_id by int_range.
  unfold int_div. rewrite Z.quot_div_nonneg by lia.
  apply to_int_id.
  pose proof (Z.div_pos (v * 68) 255 ltac:(lia) ltac:(lia)).
  assert (v * 68 / 255 <= 68) by (apply Z.div_le_upper_bound; lia).
  int_range.
Qed.

Lemma byte_val_bound (b : byte) : 0 <= byte_val b <= 255.
Proof. by destruct b. Qed.

(** X29. The character renderer never reads outside its ramp of sixty-nine
    characters: every brightness gets a character of the ramp, a brighter
    pixel never gets an earlier one, black is drawn as a space and white
    as the last character; and the picture has as many lines and columns
    as asked for. *)
Theorem ascii_ramp :
  (forall b, 0 <= ramp_index (byte_val b) < Z.of_nat (length charset)
             /\ In (ramp_char b) charset)
  /\ (forall a b, byte_val a <= byte_val b ->
        ramp_index (byte_val a) <= ramp_index (byte_val b))
  /\ ramp_char "000"%byte = " "%char
  /\ ramp_char "255"%byte = "$"%char
  /\ (forall resized target_w target_h,
        length (render_rows resized target_w target_h) = Z.to_nat target_h
        /\ Forall (fun row => length row = Z.to_nat target_w
                              /\ Forall (fun c => In c charset) row)
                  (render_rows resized target_w target_h)).
Proof.
  assert (Hin : forall b, 0 <= ramp_index (byte_val b) < Z.of_nat (length charset)
                          /\ In (ramp_char b) charset).
  { intros b. pose proof (byte_val_bound b) as Hb.
    assert (Hidx : 0 <= ramp_index (byte_val b) < Z.of_nat (length charset)).
    { rewrite ramp_index_value by done.
      change (Z.of_nat (length charset)) with 69.
      pose proof (Z.div_pos (byte_val b * 68) 255 ltac:(lia) ltac:(lia)).
      assert (byte_val b * 68 / 255 <= 68)
        by (apply Z.div_le_upper_bound; lia).
      lia. }
    split; [done|]. unfold ramp_char. apply nth_In. lia. }
  split; [exact Hin|]. split; [|split; [done|split; [done|]]].
  - intros a b Hab. pose proof (byte_val_bound a). pose proof (byte_val_bound b).
    rewrite !ramp_index_value by done. apply Z.div_le_mono; lia.
  - intros resized target_w target_h. unfold render_rows. split.
    + by rewrite length_map, length_seqZ.
    + apply Forall_forall. intros row Hrow.
      apply list_elem_of_fmap in Hrow as (y & -> & _). split.
      * by rewrite length_map, length_seqZ.
      * apply Forall_forall. intros c Hc.
        apply list_elem_of_fmap in Hc as (x & -> & _). apply Hin.
Qed.

End AsciiFacts.
